(** * Agentic Motion Studio: timeline, frame renderer and export orchestrator

    A shallow embedding of [src/webapp/src/app/page.tsx].

    Conventions of the embedding.
    - A JavaScript [number] is an exact rational ([Q]); integer counters
      (frame counts, frame indices) are [Z] or [nat].  Comparisons and sums
      are the ones the source writes; rounding error of binary floating point
      is outside the model.
    - [Math.sin], [Math.cos], [Math.PI], text measurement, PNG serialisation
      and the gradient registry of [lib/palette] are capabilities of the
      hosting browser, gathered in the class [Host].
    - The 2D context is the canvas of the HTML standard as far as the page
      uses it: [addColorStop] throws where the standard says so, and the
      [fillStyle] and [globalAlpha] setters ignore what the standard says
      they ignore.  Which strings are colours is for the browser's parser to
      say; it is taken to accept the hexadecimal and the [rgba()] notations
      of CSS Color.
    - The ffmpeg instance of [lib/ffmpeg] is a capability with its own state,
      the class [Encoder]; every method may throw.
    - Asynchronous code runs on one cooperative thread, so [await] is
      sequencing: effectful functions are state transformers that return
      either a value or the thrown exception, together with the new state.
    - The state of an export attempt carries, next to the encoder and the
      React state, the trace of what the attempt did (encoder calls, frames
      rendered, stages reported); the properties are stated on that trace. *)

From Stdlib Require Import QArith Qround Qminmax ZArith NArith List String Ascii Bool.
From Stdlib Require Import Lia Lqa DecimalString Decimal.
From Stdlib Require DecimalFacts DecimalNat.
Import ListNotations.

Open Scope Q_scope.

(** ** JavaScript primitives used by the page *)

Module JS.

(** [Math.round]: the nearest integer, halves rounded up. *)
Definition Math_round (x : Q) : Z := Qfloor (x + (1 # 2)).

(** [Math.max] on integers, [Math.max]/[Math.min] on numbers. *)
Definition Math_maxZ (a b : Z) : Z := Z.max a b.
Definition Math_max (a b : Q) : Q := Qmax a b.
Definition Math_min (a b : Q) : Q := Qmin a b.

(** The comparison [a < b] on numbers. *)
Definition Qlt_bool (a b : Q) : bool := negb (Qle_bool b a).

(** [Math.pow(x, 3)]. *)
Definition Math_pow3 (x : Q) : Q := x * x * x.

(** [String(n)] for a non-negative integer [n]. *)
Definition String_of_nat (n : nat) : string :=
  NilEmpty.string_of_uint (Nat.to_uint n).

Fixpoint repeat_char (c : ascii) (n : nat) : string :=
  match n with
  | O => EmptyString
  | S k => String c (repeat_char c k)
  end.

(** [s.padStart(width, c)] for a one-character filler. *)
Definition padStart (width : nat) (c : ascii) (s : string) : string :=
  (repeat_char c (width - String.length s) ++ s)%string.

(** [s.split(sep)] for a one-character separator: never empty, and two
    adjacent separators enclose an empty string. *)
Fixpoint split (sep : ascii) (s : string) : list string :=
  match s with
  | EmptyString => [EmptyString]
  | String c rest =>
      if Ascii.eqb c sep then EmptyString :: split sep rest
      else match split sep rest with
           | [] => [String c EmptyString]
           | w :: ws => String c w :: ws
           end
  end.

(** Truthiness of a string: the empty string is falsy. *)
Definition truthy (s : string) : bool :=
  match s with EmptyString => false | _ => true end.

(** The double-quote character, for message templates. *)
Definition dquote : string := String (ascii_of_nat 34) EmptyString.

(** A thrown value: an [Error] with its message, or anything else. *)
Inductive Exn : Type :=
| Error (message : string)
| Thrown (value : string).

(** The outcome of a call: a value, or the exception it threw. *)
Inductive Result (A : Type) : Type :=
| Ok (value : A)
| Throw (e : Exn).
Arguments Ok {A} value.
Arguments Throw {A} e.

End JS.
Import JS.

(** ** Data model *)

(** [SceneAnimation] of [lib/animation]: the three motion systems the page
    compares against. *)
Inductive SceneAnimation : Type := zoom | slide | drift.

Record Scene : Type := mkScene {
  id : string;
  title : string;
  description : string;
  duration : Q;
  gradientId : string;
  textColor : string;
  accent : string;
  animation : SceneAnimation
}.

(** [GradientSpec] of [lib/palette], with the fields the page reads. *)
Record GradientStop : Type := mkStop { at_ : Q; color : string }.

Record GradientSpec : Type := mkGradient {
  gid : string;
  label : string;
  angle : Q;
  stops : list GradientStop
}.

Inductive Status : Type :=
| idle | loading_encoder | encoding | ready | error.

(** [RenderState]: the status tag, the progress, the url of the artifact when
    there is one and the message of an error state. *)
Record RenderState : Type := mkRenderState {
  status : Status;
  progress : Q;
  url : option string;
  errorMessage : option string
}.

Inductive Stage : Type := loading | frames | muxing.

Definition CANVAS_WIDTH : Q := 1280.
Definition CANVAS_HEIGHT : Q := 720.
Definition FPS : Z := 24.

Definition MAX_SCENES : nat := 6.
Definition MIN_DURATION : Q := 2.
Definition MAX_DURATION : Q := 8.

Definition title_font : string := "700 64px 'Sora', 'Inter', sans-serif".
Definition description_font : string := "400 30px 'Inter', system-ui, sans-serif".

(** [buildInitialScenes]; the three ids are the results of its three
    [nanoid()] calls. *)
Definition buildInitialScenes (id1 id2 id3 : string) : list Scene :=
  [ mkScene id1 "Showcase your ideas in motion"
      "Craft cinematic storyboards that turn into silky, production-ready clips with zero hassle."
      4 "aurora" "#f8fafc" "#facc15" zoom;
    mkScene id2 "Scene-aware pacing"
      "Fine-tune every beat. Dial in timing, gradients, and motion for a smooth narrative arc."
      3.5 "midnight" "#e2e8f0" "#38bdf8" slide;
    mkScene id3 "Render to share in one click"
      "Generate studio-grade MP4s in-browser using a fast WASM encoder optimized for Vercel deploys."
      3 "sunset" "#fff7ed" "#fb7185" drift ].

(** ** Pure helpers of the page *)

Definition clamp (value min max : Q) : Q :=
  Math_min (Math_max value min) max.

Definition easeInOut (value : Q) : Q :=
  if Qlt_bool value 0.5
  then 4 * value * value * value
  else 1 - Math_pow3 (-2 * value + 2) / 2.

Definition easeOut (value : Q) : Q := 1 - Math_pow3 (1 - value).

Definition easeIn (value : Q) : Q := value * value.

Definition totalDurationForScenes (scenes : list Scene) : Q :=
  fold_left (fun total scene => total + duration scene) scenes 0.

(** ** Editing the scene list (component [Home]) *)

Record AppState : Type := mkApp {
  scenes : list Scene;
  selectedSceneId : string
}.

Definition string_eqb (a b : string) : bool := String.eqb a b.

(** [Array.prototype.findIndex], with [-1] when nothing matches. *)
Fixpoint findIndex {A : Type} (p : A -> bool) (l : list A) : Z :=
  match l with
  | [] => (-1)%Z
  | x :: rest =>
      if p x then 0%Z
      else let i := findIndex p rest in
           if (i <? 0)%Z then (-1)%Z else (i + 1)%Z
  end.

Definition activeScene (st : AppState) : option Scene :=
  match find (fun scene => string_eqb (id scene) (selectedSceneId st)) (scenes st) with
  | Some scene => Some scene
  | None => hd_error (scenes st)
  end.

Definition updateScene (target : string) (updater : Scene -> Scene)
    (st : AppState) : AppState :=
  mkApp
    (map (fun scene => if string_eqb (id scene) target then updater scene else scene)
         (scenes st))
    (selectedSceneId st).

Section SceneList.

(** The registry [GRADIENTS] of [lib/palette]. *)
Variable GRADIENTS : list GradientSpec.

(** [addScene]; [newId] is the result of its [nanoid()] call.  With an
    empty registry the lookup of the next gradient yields [undefined] and
    reading its id throws before any state is set. *)
Definition addScene (newId : string) (st : AppState) : AppState :=
  if (MAX_SCENES <=? List.length (scenes st))%nat then st
  else
    let template :=
      last (scenes st)
           (hd (mkScene "" "" "" 0 "" "" "" zoom)
               (buildInitialScenes "" "" "")) in
    let next :=
      ((findIndex (fun g => string_eqb (gid g) (gradientId template)) GRADIENTS + 1)
         mod Z.of_nat (List.length GRADIENTS))%Z in
    match nth_error GRADIENTS (Z.to_nat next) with
    | None => st
    | Some gradient =>
        let newScene :=
          mkScene newId "New Narrative Moment"
            "Swap in your copy and colors, then keep sculpting the flow."
            (clamp (duration template) MIN_DURATION MAX_DURATION)
            (gid gradient) (textColor template) (accent template)
            (animation template) in
        mkApp (scenes st ++ [newScene]) newId
    end.

Definition removeScene (target : string) (st : AppState) : AppState :=
  if (List.length (scenes st) =? 1)%nat then st
  else
    mkApp
      (filter (fun scene => negb (string_eqb (id scene) target)) (scenes st))
      (if string_eqb (selectedSceneId st) target
       then match find (fun scene => negb (string_eqb (id scene) target)) (scenes st) with
            | Some nextScene => id nextScene
            | None => selectedSceneId st
            end
       else selectedSceneId st).

(** The [onChange] payloads of [SceneEditor]. *)
Inductive Edit : Type :=
| EditTitle (value : string)
| EditDescription (value : string)
| EditDuration (value : Q)
| EditTextColor (value : string)
| EditAccent (value : string)
| EditGradient (gradient : GradientSpec)
| EditAnimation (option : SceneAnimation).

(** The record [SceneEditor] hands to [onChange] for each control. *)
Definition sceneEditorChange (scene : Scene) (e : Edit) : Scene :=
  match e with
  | EditTitle v =>
      mkScene (id scene) v (description scene) (duration scene)
        (gradientId scene) (textColor scene) (accent scene) (animation scene)
  | EditDescription v =>
      mkScene (id scene) (title scene) v (duration scene)
        (gradientId scene) (textColor scene) (accent scene) (animation scene)
  | EditDuration v =>
      mkScene (id scene) (title scene) (description scene)
        (clamp v MIN_DURATION MAX_DURATION)
        (gradientId scene) (textColor scene) (accent scene) (animation scene)
  | EditTextColor v =>
      mkScene (id scene) (title scene) (description scene) (duration scene)
        (gradientId scene) v (accent scene) (animation scene)
  | EditAccent v =>
      mkScene (id scene) (title scene) (description scene) (duration scene)
        (gradientId scene) (textColor scene) v (animation scene)
  | EditGradient g =>
      mkScene (id scene) (title scene) (description scene) (duration scene)
        (gid g) (textColor scene) (accent scene) (animation scene)
  | EditAnimation a =>
      mkScene (id scene) (title scene) (description scene) (duration scene)
        (gradientId scene) (textColor scene) (accent scene) a
  end.

(** The editor is mounted on the active scene and replaces it through
    [updateScene]. *)
Definition editActiveScene (e : Edit) (st : AppState) : AppState :=
  match activeScene st with
  | Some scene => updateScene (id scene) (fun _ => sceneEditorChange scene e) st
  | None => st
  end.

(** What the user can do to the scene list. *)
Inductive Action : Type :=
| AddScene (newId : string)
| RemoveScene (target : string)
| SelectScene (target : string)
| EditScene (e : Edit).

Definition perform (a : Action) (st : AppState) : AppState :=
  match a with
  | AddScene newId => addScene newId st
  | RemoveScene target => removeScene target st
  | SelectScene target => mkApp (scenes st) target
  | EditScene e => editActiveScene e st
  end.

Definition initialState (id1 id2 id3 : string) : AppState :=
  mkApp (buildInitialScenes id1 id2 id3) id1.

(** A run of user actions. *)
Definition performAll (acts : list Action) (st : AppState) : AppState :=
  fold_left (fun s a => perform a s) acts st.

(** [nanoid()] returns an id no live scene carries. *)
Definition nanoidFresh (a : Action) (st : AppState) : Prop :=
  match a with
  | AddScene newId => ~ In newId (map id (scenes st))
  | _ => True
  end.

(** The states of the scene list the page can be in. *)
Inductive reachable : AppState -> Prop :=
| reach_initial id1 id2 id3 :
    NoDup [id1; id2; id3] -> reachable (initialState id1 id2 id3)
| reach_perform st a :
    reachable st -> nanoidFresh a st -> reachable (perform a st).

End SceneList.

(** ** Timeline resolution ([renderPreviewFrame]) *)

(** The scene walk of [renderPreviewFrame]: [elapsed] is the running start
    time; the first scene with [start <= time < end] wins. *)
Fixpoint resolveFrom (elapsed : Q) (scenes : list Scene) (time : Q)
  : option (Scene * Q) :=
  match scenes with
  | [] => None
  | scene :: rest =>
      let start := elapsed in
      let end_ := start + duration scene in
      if Qle_bool start time && Qlt_bool time end_
      then Some (scene, (time - start) / duration scene)
      else resolveFrom end_ rest time
  end.

(** The scene and progress [renderPreviewFrame] hands to [renderSceneFrame]:
    none when the total duration is zero, the walk's hit otherwise, and the
    last scene at progress 1 when the walk finds nothing. *)
Definition resolve (scenes : list Scene) (time : Q) : option (Scene * Q) :=
  let totalDuration := totalDurationForScenes scenes in
  if Qeq_bool totalDuration 0 then None
  else match resolveFrom 0 scenes time with
       | Some hit => Some hit
       | None =>
           match nth_error scenes (List.length scenes - 1) with
           | Some lastScene => Some (lastScene, 1)
           | None => None
           end
       end.

(** ** The drawing surface

    A 2D context keeps a current drawing state, the stack of saved states,
    the current path and, as its surface, the painting commands issued so
    far, each with the drawing state it was issued in. *)

Inductive Paint : Type :=
| CssColor (css : string)
| LinearGradient (x0 y0 x1 y1 : Q) (colorStops : list (Q * string))
| RadialGradient (x0 y0 r0 x1 y1 r1 : Q) (colorStops : list (Q * string)).

Inductive Transform : Type :=
| Translate (x y : Q)
| Scale (x y : Q)
| Rotate (radians : Q).

Record DrawingState : Type := mkDrawingState {
  fillStyle : Paint;
  globalAlpha : Q;
  font : string;
  textBaseline : string;
  transform : list Transform
}.

Inductive PathSegment : Type :=
| MoveTo (x y : Q)
| LineTo (x y : Q)
| QuadraticCurveTo (cpx cpy x y : Q)
| ClosePath.

Inductive DrawOp : Type :=
| FillRect (st : DrawingState) (x y w h : Q)
| FillText (st : DrawingState) (text : string) (x y : Q)
| FillPath (st : DrawingState) (path : list PathSegment).

Record Context : Type := mkContext {
  current : DrawingState;
  saved : list DrawingState;
  path : list PathSegment;
  drawn : list DrawOp
}.

Definition defaultDrawingState : DrawingState :=
  mkDrawingState (CssColor "#000000") 1 "10px sans-serif" "alphabetic" [].

(** The context of a newly created canvas. *)
Definition freshContext : Context := mkContext defaultDrawingState [] [] [].

(** ** CSS colours

    Whether a string is a colour is for the parser of the browser to say.
    These are the notations the page writes. *)

Definition hexDigit (c : ascii) : bool :=
  let n := nat_of_ascii c in
  ((48 <=? n) && (n <=? 57) || (65 <=? n) && (n <=? 70)
   || (97 <=? n) && (n <=? 102))%nat.

Fixpoint hexDigits (s : string) : bool :=
  match s with
  | EmptyString => true
  | String c rest => hexDigit c && hexDigits rest
  end.

(** The hexadecimal notations [#rgb], [#rgba], [#rrggbb] and [#rrggbbaa]. *)
Definition hexColor (s : string) : bool :=
  match s with
  | EmptyString => false
  | String c digits =>
      Ascii.eqb c "#" && hexDigits digits
      && existsb (Nat.eqb (String.length digits)) [3; 4; 6; 8]%nat
  end.

(** The value of an [<input type="color">]: always of the form [#rrggbb]. *)
Definition colorInputValue (s : string) : bool :=
  match s with
  | EmptyString => false
  | String c digits =>
      Ascii.eqb c "#" && hexDigits digits && (String.length digits =? 6)%nat
  end.

Definition decimalDigit (c : ascii) : bool :=
  ((48 <=? nat_of_ascii c) && (nat_of_ascii c <=? 57))%nat.

Fixpoint decimalDigits (s : string) : bool :=
  match s with
  | EmptyString => true
  | String c rest => decimalDigit c && decimalDigits rest
  end.

(** A number written without sign or exponent: digits, or digits, a point
    and digits. *)
Definition numberText (s : string) : bool :=
  match split "." s with
  | [whole] => truthy whole && decimalDigits whole
  | [whole; fraction] =>
      truthy whole && decimalDigits whole && truthy fraction && decimalDigits fraction
  | _ => false
  end.

(** The notation [rgba(r,g,b,a)]. *)
Definition rgbaNotation (r g b : nat) (alpha : string) : string :=
  ("rgba(" ++ String_of_nat r ++ "," ++ String_of_nat g ++ ","
     ++ String_of_nat b ++ "," ++ alpha ++ ")")%string.

(** ** Capabilities of the hosting browser *)

Record Blob : Type := mkBlob { blobBytes : list Byte.byte; mimeType : string }.

Class Host : Type := {
  (** the registry of [lib/palette] *)
  GRADIENTS : list GradientSpec;
  (** end points of the full-frame gradient line, from width, height and angle *)
  gradientLine : Q -> Q -> Q -> Q * Q * Q * Q;
  Math_sin : Q -> Q;
  Math_cos : Q -> Q;
  Math_PI : Q;
  (** [context.measureText(text).width] under a font *)
  measureText : string -> string -> Q;
  (** whether [canvas.getContext("2d")] yields a context *)
  supports2d : bool;
  (** the payload of [canvas.toDataURL("image/png")] for a surface *)
  toDataURL : list DrawOp -> string;
  (** [window.atob], when the environment has one *)
  atob : option (string -> string);
  (** [URL.createObjectURL] *)
  createObjectURL : Blob -> string;
  (** whether a string parses as a CSS colour *)
  parsesColor : string -> bool;
  (** the messages of the two exceptions of [addColorStop]: the
      IndexSizeError for an offset outside [0, 1] and the SyntaxError for a
      string that is no colour *)
  indexSizeErrorMessage : string;
  syntaxErrorMessage : string;
  (** the parser conforms to CSS Color: the hexadecimal notations and the
      [rgba()] notation are colours *)
  parses_hex : forall s, hexColor s = true -> parsesColor s = true;
  parses_rgba :
    forall r g b alpha,
      numberText alpha = true -> parsesColor (rgbaNotation r g b alpha) = true
}.

Module Ctx.

Definition withCurrent (f : DrawingState -> DrawingState) (c : Context) : Context :=
  mkContext (f (current c)) (saved c) (path c) (drawn c).

Definition save (c : Context) : Context :=
  mkContext (current c) (current c :: saved c) (path c) (drawn c).

(** [restore] pops the saved state; the current path is not part of it. *)
Definition restore (c : Context) : Context :=
  match saved c with
  | [] => c
  | st :: more => mkContext st more (path c) (drawn c)
  end.

Definition pushTransform (t : Transform) : Context -> Context :=
  withCurrent (fun st =>
    mkDrawingState (fillStyle st) (globalAlpha st) (font st) (textBaseline st)
                   (transform st ++ [t])).

Definition translate (x y : Q) := pushTransform (Translate x y).
Definition scale (x y : Q) := pushTransform (Scale x y).
Definition rotate (a : Q) := pushTransform (Rotate a).

(** The [fillStyle] setter takes a gradient as it is and ignores a string
    that is no colour. *)
Definition set_fillStyle {host : Host} (p : Paint) : Context -> Context :=
  withCurrent (fun st =>
    if match p with CssColor css => parsesColor css | _ => true end
    then mkDrawingState p (globalAlpha st) (font st) (textBaseline st) (transform st)
    else st).

(** The [globalAlpha] setter ignores a value outside [0, 1]. *)
Definition set_globalAlpha (a : Q) : Context -> Context :=
  withCurrent (fun st =>
    if Qle_bool 0 a && Qle_bool a 1
    then mkDrawingState (fillStyle st) a (font st) (textBaseline st) (transform st)
    else st).

Definition set_font (f : string) : Context -> Context :=
  withCurrent (fun st =>
    mkDrawingState (fillStyle st) (globalAlpha st) f (textBaseline st) (transform st)).

Definition set_textBaseline (b : string) : Context -> Context :=
  withCurrent (fun st =>
    mkDrawingState (fillStyle st) (globalAlpha st) (font st) b (transform st)).

Definition paint (op : DrawOp) (c : Context) : Context :=
  mkContext (current c) (saved c) (path c) (drawn c ++ [op]).

Definition fillRect (x y w h : Q) (c : Context) : Context :=
  paint (FillRect (current c) x y w h) c.

Definition fillText (text : string) (x y : Q) (c : Context) : Context :=
  paint (FillText (current c) text x y) c.

Definition fill (c : Context) : Context :=
  paint (FillPath (current c) (path c)) c.

Definition beginPath (c : Context) : Context :=
  mkContext (current c) (saved c) [] (drawn c).

Definition addSegment (s : PathSegment) (c : Context) : Context :=
  mkContext (current c) (saved c) (path c ++ [s]) (drawn c).

Definition moveTo (x y : Q) := addSegment (MoveTo x y).
Definition lineTo (x y : Q) := addSegment (LineTo x y).
Definition quadraticCurveTo (cpx cpy x y : Q) := addSegment (QuadraticCurveTo cpx cpy x y).
Definition closePath := addSegment ClosePath.

Definition createLinearGradient (x0 y0 x1 y1 : Q) : Paint :=
  LinearGradient x0 y0 x1 y1 [].

Definition createRadialGradient (x0 y0 r0 x1 y1 r1 : Q) : Paint :=
  RadialGradient x0 y0 r0 x1 y1 r1 [].

Definition withColorStop (offset : Q) (css : string) (g : Paint) : Paint :=
  match g with
  | CssColor c => CssColor c
  | LinearGradient x0 y0 x1 y1 l => LinearGradient x0 y0 x1 y1 (l ++ [(offset, css)])
  | RadialGradient x0 y0 r0 x1 y1 r1 l =>
      RadialGradient x0 y0 r0 x1 y1 r1 (l ++ [(offset, css)])
  end.

(** [gradient.addColorStop]: it throws an IndexSizeError for an offset
    outside [0, 1] and a SyntaxError for a string that is no colour. *)
Definition addColorStop {host : Host} (offset : Q) (css : string) (g : Paint)
  : Result Paint :=
  if negb (Qle_bool 0 offset && Qle_bool offset 1)
  then Throw (Error indexSizeErrorMessage)
  else if negb (parsesColor css)
       then Throw (Error syntaxErrorMessage)
       else Ok (withColorStop offset css g).

End Ctx.

(** ** Frame renderer *)

Section Renderer.

Context {host : Host}.

(** Modelled from the spec: the body of [drawGradient] ([lib/palette] is
    not among the sources).  It paints the full frame with a linear
    gradient built from the gradient's angle and stops; the spec gives this
    step no error, and the stops of the registry are positions within
    [0, 1] with their colours, so it is total here. *)
Definition drawGradient (width height : Q) (gradient : GradientSpec)
    (c : Context) : Context :=
  let '(x0, y0, x1, y1) := gradientLine width height (angle gradient) in
  let fillGradient :=
    fold_left (fun g stop => Ctx.withColorStop (at_ stop) (color stop) g)
              (stops gradient) (Ctx.createLinearGradient x0 y0 x1 y1) in
  let c := Ctx.set_fillStyle fillGradient c in
  Ctx.fillRect 0 0 width height c.

Definition drawMist (c : Context) : Result unit * Context :=
  let gradient :=
    Ctx.createRadialGradient
      (CANVAS_WIDTH * 0.3) (CANVAS_HEIGHT * 0.2) 0
      (CANVAS_WIDTH * 0.4) (CANVAS_HEIGHT * 0.3) (CANVAS_WIDTH * 0.8) in
  match Ctx.addColorStop 0 "rgba(255,255,255,0.18)" gradient with
  | Throw e => (Throw e, c)
  | Ok gradient =>
      match Ctx.addColorStop 1 "rgba(255,255,255,0)" gradient with
      | Throw e => (Throw e, c)
      | Ok gradient =>
          let c := Ctx.set_fillStyle gradient c in
          (Ok tt, Ctx.fillRect 0 0 CANVAS_WIDTH CANVAS_HEIGHT c)
      end
  end.

Definition roundedRect (x y width height radius : Q) (c : Context) : Context :=
  let c := Ctx.beginPath c in
  let c := Ctx.moveTo (x + radius) y c in
  let c := Ctx.lineTo (x + width - radius) y c in
  let c := Ctx.quadraticCurveTo (x + width) y (x + width) (y + radius) c in
  let c := Ctx.lineTo (x + width) (y + height - radius) c in
  let c := Ctx.quadraticCurveTo (x + width) (y + height)
                                (x + width - radius) (y + height) c in
  let c := Ctx.lineTo (x + radius) (y + height) c in
  let c := Ctx.quadraticCurveTo x (y + height) x (y + height - radius) c in
  let c := Ctx.lineTo x (y + radius) c in
  let c := Ctx.quadraticCurveTo x y (x + radius) y c in
  Ctx.closePath c.

(** [drawAccent]: an exception of [addColorStop] leaves the function with
    the state it saved still on the stack. *)
Definition drawAccent (accentColor : string) (progress : Q)
    (anim : SceneAnimation) (c : Context) : Result unit * Context :=
  let eased := easeInOut progress in
  let baseOpacity := 0.35 + 0.15 * Math_sin (progress * Math_PI) in
  let c := Ctx.save c in
  let c := Ctx.translate (CANVAS_WIDTH / 2) (CANVAS_HEIGHT / 2) c in
  let scale :=
    match anim with
    | zoom => 1 + eased * 0.08
    | slide => 1.05 + Math_sin (progress * Math_PI) * 0.05
    | drift => 1 + Math_cos (progress * Math_PI * 2) * 0.04
    end in
  let c := Ctx.scale scale scale c in
  let rotation :=
    match anim with
    | slide => (easeOut progress - 0.5) * 0.4
    | drift => Math_sin (progress * Math_PI * 2) * 0.2
    | zoom => easeInOut progress * 0.15
    end in
  let c := Ctx.rotate rotation c in
  let rectWidth := CANVAS_WIDTH * 0.65 in
  let rectHeight := CANVAS_HEIGHT * 0.65 in
  let gradient :=
    Ctx.createLinearGradient (- rectWidth / 2) (- rectHeight / 2)
                             (rectWidth / 2) (rectHeight / 2) in
  match Ctx.addColorStop 0 (accentColor ++ "30") gradient with
  | Throw e => (Throw e, c)
  | Ok gradient =>
      match Ctx.addColorStop 1 (accentColor ++ "00") gradient with
      | Throw e => (Throw e, c)
      | Ok gradient =>
          let c := Ctx.set_fillStyle gradient c in
          let c := Ctx.set_globalAlpha baseOpacity c in
          let c :=
            roundedRect (- rectWidth / 2) (- rectHeight / 2) rectWidth rectHeight 48 c in
          let c := Ctx.fill c in
          (Ok tt, Ctx.restore c)
      end
  end.

(** The loop of [wrapText] over the words, with its two variables. *)
Fixpoint wrapWords (fontNow : string) (maxWidth : Q) (words : list string)
    (lines : list string) (currentLine : string) : list string * string :=
  match words with
  | [] => (lines, currentLine)
  | word :: more =>
      let testLine :=
        if truthy currentLine then (currentLine ++ " " ++ word)%string else word in
      let width := measureText fontNow testLine in
      if Qlt_bool maxWidth width && truthy currentLine
      then wrapWords fontNow maxWidth more (lines ++ [currentLine]) word
      else wrapWords fontNow maxWidth more lines testLine
  end.

Definition wrapText (c : Context) (text : string) (maxWidth : Q) : list string :=
  let words := split " " text in
  let '(lines, currentLine) := wrapWords (font (current c)) maxWidth words [] "" in
  if truthy currentLine then lines ++ [currentLine] else lines.

(** [lines.forEach] of [drawTextBlock]: one [fillText] per line, [currentY]
    advanced by the line height. *)
Fixpoint fillLines (lineHeight : Q) (lines : list string) (currentY : Q)
    (c : Context) : Q * Context :=
  match lines with
  | [] => (currentY, c)
  | line :: more =>
      let c := Ctx.fillText line 0 currentY c in
      fillLines lineHeight more (currentY + lineHeight) c
  end.

Definition drawTextBlock (scene : Scene) (progress : Q) (c : Context) : Context :=
  let padding := 120 in
  let textWidth := CANVAS_WIDTH - padding * 2 in
  let c := Ctx.save c in
  let c := Ctx.translate padding padding c in
  let offset :=
    match animation scene with
    | slide => (1 - easeOut progress) * 80
    | drift => Math_sin (progress * Math_PI * 2) * 20
    | zoom => (1 - easeOut progress) * 40
    end in
  let c := Ctx.translate 0 offset c in
  let c := Ctx.set_globalAlpha (easeIn progress) c in
  let c := Ctx.set_fillStyle (CssColor (textColor scene)) c in
  let c := Ctx.set_font title_font c in
  let c := Ctx.set_textBaseline "top" c in
  let titleLines := wrapText c (title scene) textWidth in
  let currentY := 0 in
  let '(currentY, c) := fillLines 70 titleLines currentY c in
  let c := Ctx.set_globalAlpha (easeIn progress * 0.9) c in
  let c := Ctx.set_font description_font c in
  let bodyLines := wrapText c (description scene) textWidth in
  let currentY := currentY + 20 in
  let '(currentY, c) := fillLines 44 bodyLines currentY c in
  Ctx.restore c.

Definition missingGradient (gradientName : string) : Exn :=
  Error ("Missing gradient " ++ dquote ++ gradientName ++ dquote ++ ".").

(** [renderSceneFrame]: the registry lookup comes first and throws before
    the context is touched; an exception of a drawing step leaves the
    function before its [restore]. *)
Definition renderSceneFrame (scene : Scene) (progress : Q) (c : Context)
  : Result unit * Context :=
  match find (fun entry => string_eqb (gid entry) (gradientId scene)) GRADIENTS with
  | None => (Throw (missingGradient (gradientId scene)), c)
  | Some gradient =>
      let c := Ctx.save c in
      let c := drawGradient CANVAS_WIDTH CANVAS_HEIGHT gradient c in
      match drawMist c with
      | (Throw e, c) => (Throw e, c)
      | (Ok _, c) =>
          match drawAccent (accent scene) progress (animation scene) c with
          | (Throw e, c) => (Throw e, c)
          | (Ok _, c) =>
              let c := drawTextBlock scene progress c in
              let c := Ctx.restore c in
              (Ok tt, c)
          end
      end
  end.

(** [renderPreviewFrame]: nothing is drawn for a zero total duration. *)
Definition renderPreviewFrame (c : Context) (scenes : list Scene) (time : Q)
  : Result unit * Context :=
  match resolve scenes time with
  | None => (Ok tt, c)
  | Some (scene, progress) => renderSceneFrame scene progress c
  end.

(** [canvasToUint8]: the PNG payload of the surface, decoded byte by byte. *)
Definition canvasToUint8 (c : Context) : Result (list Byte.byte) :=
  let base64 := toDataURL (drawn c) in
  match atob with
  | None => Throw (Error "Base64 decoding is not available in this environment.")
  | Some decoder =>
      let binary := decoder base64 in
      Ok (map byte_of_ascii (list_ascii_of_string binary))
  end.

End Renderer.


(** ** The encoder capability ([lib/ffmpeg]) *)

(** What [readFile] may return. *)
Inductive FileData : Type :=
| Uint8Array (bytes : list Byte.byte)
| TextData (text : string).

(** The ffmpeg instance: a state [E] (its working storage among it) and the
    five calls the page makes, each of which may throw. *)
Class Encoder (E : Type) : Type := {
  getFFmpeg : E -> Result unit * E;
  writeFile : string -> list Byte.byte -> E -> Result unit * E;
  exec : list string -> E -> Result unit * E;
  readFile : string -> E -> Result FileData * E;
  deleteFile : string -> E -> Result unit * E;
  (** whether working storage holds a file of that name *)
  stored : string -> E -> bool
}.

(** A conforming working storage: a delete that returns normally removes the
    name, and no delete, whether it returns or throws, brings a name in. *)
Class EncoderStorage (E : Type) `{Encoder E} : Prop := {
  deleteFile_removes :
    forall name e e', deleteFile name e = (Ok tt, e') -> stored name e' = false;
  deleteFile_shrinks :
    forall name other e r e',
      deleteFile name e = (r, e') -> stored other e = false -> stored other e' = false
}.

(** ** The export attempt as a state transformer *)

(** What an attempt does that an observer can see, in order. *)
Inductive Event : Type :=
| EvLoad
| EvRender (scene : Scene) (progress : Q)
| EvWrite (name : string)
| EvExec (args : list string)
| EvRead (name : string)
| EvDelete (name : string)
| EvStage (stage : Stage) (progress : Q).

(** The React state [handleRender] touches. *)
Record Ui : Type := mkUi {
  renderState : RenderState;
  previousUrlRef : option string;
  revokedUrls : list string
}.

Record World (E : Type) : Type := mkWorld {
  encoder : E;
  trace : list Event;
  ui : Ui
}.
Arguments mkWorld {E} encoder trace ui.
Arguments encoder {E} w.
Arguments trace {E} w.
Arguments ui {E} w.

Definition M (E A : Type) : Type := World E -> Result A * World E.

Definition ret {E A : Type} (a : A) : M E A := fun w => (Ok a, w).

Definition throw {E A : Type} (e : Exn) : M E A := fun w => (Throw e, w).

Definition bind {E A B : Type} (c : M E A) (k : A -> M E B) : M E B :=
  fun w =>
    match c w with
    | (Ok a, w') => k a w'
    | (Throw e, w') => (Throw e, w')
    end.

Notation "x <- c ;; k" := (bind c (fun x => k))
  (at level 61, c at next level, right associativity).
Notation "c ;; k" := (bind c (fun _ => k))
  (at level 61, right associativity).

(** [try { body } finally { cleanup }]: the cleanup runs on both outcomes; an
    exception of the cleanup replaces the outcome of the body. *)
Definition tryFinally {E A : Type} (body : M E A) (cleanup : M E unit) : M E A :=
  fun w =>
    match body w with
    | (r, w1) =>
        match cleanup w1 with
        | (Ok _, w2) => (r, w2)
        | (Throw e, w2) => (Throw e, w2)
        end
    end.

(** [try { body } catch { }]: an exception of the body is dropped. *)
Definition ignoring {E : Type} (body : M E unit) : M E unit :=
  fun w => match body w with (_, w') => (Ok tt, w') end.

Definition logged {E : Type} (ev : Event) (w : World E) : World E :=
  mkWorld (encoder w) (trace w ++ [ev]) (ui w).

(** A call of the encoder: recorded, then run on the encoder's state. *)
Definition call {E A : Type} (ev : Event) (f : E -> Result A * E) : M E A :=
  fun w =>
    match f (encoder w) with
    | (r, e') => (r, mkWorld e' (trace w ++ [ev]) (ui w))
    end.

(** The [onStage] callback: it acts on the React state only. *)
Definition OnStage : Type := Stage -> Q -> Ui -> Ui.

Definition report {E : Type} (onStage : OnStage) (stage : Stage) (fraction : Q)
  : M E unit :=
  fun w =>
    (Ok tt, mkWorld (encoder w) (trace w ++ [EvStage stage fraction])
                    (onStage stage fraction (ui w))).

Record LoopState : Type := mkLoop {
  context : Context;
  writtenFiles : list string;
  frameIndex : nat
}.

Definition frameFilename (index : nat) : string :=
  ("frame_" ++ padStart 5 "0" (String_of_nat index) ++ ".png")%string.

Definition framesFor (seconds : Q) : Z :=
  Math_maxZ 1 (Math_round (seconds * inject_Z FPS)).

Definition frameProgress (framesForScene : Z) (frame : nat) : Q :=
  if (framesForScene <=? 1)%Z then 1
  else inject_Z (Z.of_nat frame) / inject_Z (framesForScene - 1).

Section Orchestrator.

Context {host : Host} {E : Type} {enc : Encoder E}.

Definition loadEncoder (onStage : OnStage) : M E unit :=
  report onStage loading 0.1 ;;
  call EvLoad getFFmpeg ;;
  report onStage loading 1.

Fixpoint cleanupFiles (files : list string) : M E unit :=
  match files with
  | [] => ret tt
  | file :: more =>
      ignoring (call (EvDelete file) (deleteFile file)) ;;
      cleanupFiles more
  end.

Definition cleanupFfmpeg (files : list string) : M E unit :=
  cleanupFiles files ;;
  ignoring (call (EvDelete "output.mp4") (deleteFile "output.mp4")).

(** The body of the inner [for] loop. *)
Definition renderFrame (onStage : OnStage) (totalFrames : Z) (scene : Scene)
    (framesForScene : Z) (frame : nat) (st : LoopState) : M E LoopState :=
  let progress := frameProgress framesForScene frame in
  fun w =>
    let w := logged (EvRender scene progress) w in
    match renderSceneFrame scene progress (context st) with
    | (Throw e, _) => (Throw e, w)
    | (Ok _, context') =>
        let filename := frameFilename (frameIndex st) in
        match canvasToUint8 context' with
        | Throw e => (Throw e, w)
        | Ok pixels =>
            (call (EvWrite filename) (writeFile filename pixels) ;;
             let written := writtenFiles st ++ [filename] in
             let index := S (frameIndex st) in
             report onStage frames
                    (inject_Z (Z.of_nat index) / inject_Z totalFrames) ;;
             ret (mkLoop context' written index)) w
        end
    end.

(** The inner loop, [frame] running over [0 .. framesForScene - 1]. *)
Fixpoint frameLoop (onStage : OnStage) (totalFrames : Z) (scene : Scene)
    (framesForScene : Z) (frameNumbers : list nat) (st : LoopState)
  : M E LoopState :=
  match frameNumbers with
  | [] => ret st
  | frame :: more =>
      st' <- renderFrame onStage totalFrames scene framesForScene frame st ;;
      frameLoop onStage totalFrames scene framesForScene more st'
  end.

(** The outer loop over the scenes. *)
Fixpoint sceneLoop (onStage : OnStage) (totalFrames : Z) (scenes : list Scene)
    (st : LoopState) : M E LoopState :=
  match scenes with
  | [] => ret st
  | scene :: more =>
      let framesForScene := framesFor (duration scene) in
      st' <- frameLoop onStage totalFrames scene framesForScene
                       (seq 0 (Z.to_nat framesForScene)) st ;;
      sceneLoop onStage totalFrames more st'
  end.

Definition execArgs : list string :=
  [ "-framerate"; String_of_nat (Z.to_nat FPS); "-i"; "frame_%05d.png";
    "-c:v"; "libx264"; "-pix_fmt"; "yuv420p"; "output.mp4" ]%string.

(** The body of the [try] block; its value is what [data] holds afterwards. *)
Definition muxAndRead (onStage : OnStage) : M E (option (list Byte.byte)) :=
  call (EvExec execArgs) (exec execArgs) ;;
  report onStage muxing 0.9 ;;
  fileData <- call (EvRead "output.mp4") (readFile "output.mp4") ;;
  match fileData with
  | TextData _ => throw (Error "Unexpected encoder output format.")
  | Uint8Array bytes =>
      report onStage muxing 1 ;;
      ret (Some bytes)
  end.

Definition synthesizeVideo (scenes : list Scene) (options : option OnStage)
  : M E Blob :=
  if (List.length scenes =? 0)%nat
  then throw (Error "Add at least one scene before rendering.")
  else
    let onStage :=
      match options with
      | Some f => f
      | None => fun _ _ u => u
      end in
    loadEncoder onStage ;;
    if negb supports2d
    then throw (Error "Unable to access 2D context for rendering.")
    else
      let totalFrames :=
        Math_maxZ 1 (Math_round (totalDurationForScenes scenes * inject_Z FPS)) in
      st <- sceneLoop onStage totalFrames scenes (mkLoop freshContext [] 0) ;;
      report onStage muxing 0.1 ;;
      data <- tryFinally (muxAndRead onStage) (cleanupFfmpeg (writtenFiles st)) ;;
      match data with
      | None => throw (Error "Failed to read rendered video output.")
      | Some bytes => ret (mkBlob bytes "video/mp4")
      end.

Definition setRenderState (s : RenderState) (u : Ui) : Ui :=
  mkUi s (previousUrlRef u) (revokedUrls u).

(** The callback [handleRender] passes as [onStage]. *)
Definition stageToRenderState : OnStage :=
  fun stage fraction =>
    match stage with
    | loading =>
        setRenderState (mkRenderState loading_encoder (0.05 + fraction * 0.15) None None)
    | frames =>
        setRenderState (mkRenderState encoding (0.2 + fraction * 0.6) None None)
    | muxing =>
        setRenderState (mkRenderState encoding (0.8 + fraction * 0.2) None None)
    end.

Definition onUi (f : Ui -> Ui) (w : World E) : World E :=
  mkWorld (encoder w) (trace w) (f (ui w)).

Definition handleRender (scenes : list Scene) (w : World E) : World E :=
  let w :=
    match previousUrlRef (ui w) with
    | Some old =>
        onUi (fun u => mkUi (renderState u) None (revokedUrls u ++ [old])) w
    | None => w
    end in
  let w := onUi (setRenderState (mkRenderState loading_encoder 0.05 None None)) w in
  match synthesizeVideo scenes (Some stageToRenderState) w with
  | (Ok blob, w') =>
      let url := createObjectURL blob in
      onUi (fun u => mkUi (mkRenderState ready 1 (Some url) None)
                          (Some url) (revokedUrls u)) w'
  | (Throw e, w') =>
      onUi (setRenderState
              (mkRenderState error 0 None
                 (Some match e with
                       | Error message => message
                       | Thrown _ => "Something went wrong."%string
                       end))) w'
  end.

End Orchestrator.


(** ** A concrete host and a concrete encoder

    An in-memory encoder with a plan of the calls that are to fail, and a
    host with rational stand-ins for the numeric library.  They serve as test
    doubles: the statements below that assume something of a host or an
    encoder are exercised on them. *)

Module Double.

Definition registry : list GradientSpec :=
  [ mkGradient "aurora" "Aurora" 135
      [mkStop 0 "#0ea5e9"; mkStop 0.5 "#6366f1"; mkStop 1 "#a855f7"];
    mkGradient "midnight" "Midnight" 160
      [mkStop 0 "#0f172a"; mkStop 1 "#1e3a8a"];
    mkGradient "sunset" "Sunset" 120
      [mkStop 0 "#f97316"; mkStop 1 "#db2777"] ].

(** Bhaskara's rational approximation of the sine on [0, pi]. *)
Definition sinApprox (pi x : Q) : Q :=
  16 * x * (pi - x) / (5 * pi * pi - 4 * x * (pi - x)).

Definition pi : Q := 355 # 113.

Fixpoint startsWith (start s : string) : bool :=
  match start, s with
  | EmptyString, _ => true
  | String a start', String b s' => Ascii.eqb a b && startsWith start' s'
  | String _ _, EmptyString => false
  end.

(** A colour parser that takes the hexadecimal notations and whatever
    starts as the [rgba()] notation does. *)
Definition parser (s : string) : bool := hexColor s || startsWith "rgba(" s.

Definition parser_hex (s : string) (hex : hexColor s = true) : parser s = true :=
  eq_ind_r (fun b => b || startsWith "rgba(" s = true)
           (eq_refl : true || startsWith "rgba(" s = true) hex.

Definition parser_rgba (r g b : nat) (alpha : string) (number : numberText alpha = true)
  : parser (rgbaNotation r g b alpha) = true :=
  orb_true_r (hexColor (rgbaNotation r g b alpha)).

#[export] Instance browser : Host := {
  GRADIENTS := registry;
  gradientLine := fun width height angleDegrees =>
    (0, 0, width * sinApprox 180 angleDegrees, height);
  Math_sin := sinApprox pi;
  Math_cos := fun x => sinApprox pi (pi / 2 - x);
  Math_PI := pi;
  measureText := fun _ text => inject_Z (Z.of_nat (String.length text)) * 18;
  supports2d := true;
  toDataURL := fun surface => String_of_nat (List.length surface);
  atob := Some (fun payload => payload);
  createObjectURL := fun blob =>
    ("blob:" ++ String_of_nat (List.length (blobBytes blob)))%string;
  parsesColor := parser;
  indexSizeErrorMessage := "The provided offset is outside the range (0.0, 1.0).";
  syntaxErrorMessage := "The value provided could not be parsed as a color.";
  parses_hex := parser_hex;
  parses_rgba := parser_rgba
}.

(** The calls that are to throw. *)
Record Faults : Type := mkFaults {
  failLoad : bool;
  failWrite : option string;
  failExec : bool;
  failRead : bool;
  failDelete : list string;
  textOutput : bool
}.

Definition noFaults : Faults := mkFaults false None false false [] false.

(** Working storage: the files by name. *)
Definition MemFs : Type := list (string * list Byte.byte).

Definition holds (name : string) (fs : MemFs) : bool :=
  existsb (fun entry => string_eqb (fst entry) name) fs.

Definition without (name : string) (fs : MemFs) : MemFs :=
  filter (fun entry => negb (string_eqb (fst entry) name)) fs.

Definition lookup (name : string) (fs : MemFs) : option (list Byte.byte) :=
  option_map snd (find (fun entry => string_eqb (fst entry) name) fs).

(** The in-memory encoder that fails as the plan says.  Its mux writes
    [output.mp4] as the concatenation of the stored files. *)
Definition memEncoder (plan : Faults) : Encoder MemFs := {|
  getFFmpeg := fun fs =>
    if failLoad plan then (Throw (Error "failed to load the encoder core"), fs)
    else (Ok tt, fs);
  writeFile := fun name bytes fs =>
    match failWrite plan with
    | Some bad =>
        if string_eqb bad name then (Throw (Error "write failed"), fs)
        else (Ok tt, without name fs ++ [(name, bytes)])
    | None => (Ok tt, without name fs ++ [(name, bytes)])
    end;
  exec := fun _ fs =>
    if failExec plan then (Throw (Error "encoder exited with an error"), fs)
    else (Ok tt, without "output.mp4" fs ++ [("output.mp4"%string, flat_map snd fs)]);
  readFile := fun name fs =>
    if failRead plan then (Throw (Error "read failed"), fs)
    else match lookup name fs with
         | None => (Throw (Error "no such file"), fs)
         | Some bytes =>
             (Ok (if textOutput plan then TextData "" else Uint8Array bytes), fs)
         end;
  deleteFile := fun name fs =>
    if existsb (string_eqb name) (failDelete plan)
    then (Throw (Error "delete failed"), fs)
    else if holds name fs
         then (Ok tt, without name fs)
         else (Throw (Error "no such file"), fs);
  stored := fun name fs => holds name fs
|}.

Definition idleUi : Ui := mkUi (mkRenderState idle 0 None None) None [].

(** The world before an attempt: empty storage, nothing observed. *)
Definition start : World MemFs := mkWorld [] [] idleUi.

(** The initial storyboard, and the page after one more scene was added. *)
Definition storyboard : list Scene := buildInitialScenes "a" "b" "c".

Definition fourScenes : AppState :=
  perform registry (AddScene "d") (initialState "a" "b" "c").

Definition shortScene (name gradientName : string) (seconds : Q) : Scene :=
  mkScene name "Title" "A short description" seconds gradientName "#ffffff" "#facc15" zoom.

(** One scene of two seconds. *)
Definition oneScene : list Scene := [shortScene "a" "aurora" 2].

(** Three scenes whose durations are not on the half-second grid of the
    duration field. *)
Definition offGridScenes : list Scene :=
  [ shortScene "a" "aurora" 2.03; shortScene "b" "midnight" 2.03;
    shortScene "c" "sunset" 2.03 ].

(** A scene that names a gradient the registry does not have. *)
Definition danglingScene : Scene := shortScene "x" "nebula" 2.

(** A scene whose accent is a colour by name: with the alpha digits
    appended it is no colour. *)
Definition namedAccentScene : Scene :=
  mkScene "g" "Title" "A short description" 2 "aurora" "#ffffff" "gold" zoom.

(** An encoder whose second frame write throws, and one whose mux throws. *)
Definition failingWrite : Faults :=
  mkFaults false (Some "frame_00001.png"%string) false false [] false.

Definition failingExec : Faults := mkFaults false None true false [] false.

(** A browser without a 2D context and without a base64 decoder. *)
Definition headless : Host := {|
  GRADIENTS := registry;
  gradientLine := @gradientLine browser;
  Math_sin := @Math_sin browser;
  Math_cos := @Math_cos browser;
  Math_PI := pi;
  measureText := @measureText browser;
  supports2d := false;
  toDataURL := @toDataURL browser;
  atob := None;
  createObjectURL := @createObjectURL browser;
  parsesColor := parser;
  indexSizeErrorMessage := @indexSizeErrorMessage browser;
  syntaxErrorMessage := @syntaxErrorMessage browser;
  parses_hex := parser_hex;
  parses_rgba := parser_rgba
|}.

(** An encoder whose core fails to load. *)
Definition failingLoad : Faults := mkFaults true None false false [] false.

End Double.

(** ** Observations on a trace *)

Definition writtenNames (tr : list Event) : list string :=
  flat_map (fun ev => match ev with EvWrite name => [name] | _ => [] end) tr.

Definition deletedNames (tr : list Event) : list string :=
  flat_map (fun ev => match ev with EvDelete name => [name] | _ => [] end) tr.

Definition renderedFrames (tr : list Event) : list (Scene * Q) :=
  flat_map (fun ev => match ev with EvRender scene p => [(scene, p)] | _ => [] end) tr.

Definition stageReports (stage : Stage) (tr : list Event) : list Q :=
  flat_map (fun ev =>
              match ev, stage with
              | EvStage loading p, loading => [p]
              | EvStage frames p, frames => [p]
              | EvStage muxing p, muxing => [p]
              | _, _ => []
              end) tr.

(** The start time of the scene at position [i]: the durations before it. *)
Definition sceneStart (scenes : list Scene) (i : nat) : Q :=
  totalDurationForScenes (firstn i scenes).

Definition inBounds (scene : Scene) : Prop :=
  MIN_DURATION <= duration scene /\ duration scene <= MAX_DURATION.

(** The events of one frame of a scene, and of the whole frame stage. *)
Definition frameEvents (totalFrames : Z) (scene : Scene) (framesForScene : Z)
    (frame index : nat) : list Event :=
  [ EvRender scene (frameProgress framesForScene frame);
    EvWrite (frameFilename index);
    EvStage frames (inject_Z (Z.of_nat (S index)) / inject_Z totalFrames) ].

Fixpoint framesEvents (totalFrames : Z) (scene : Scene) (framesForScene : Z)
    (frameNumbers : list nat) (index : nat) : list Event :=
  match frameNumbers with
  | [] => []
  | frame :: more =>
      frameEvents totalFrames scene framesForScene frame index
        ++ framesEvents totalFrames scene framesForScene more (S index)
  end.

Definition sceneFrameCount (scene : Scene) : nat :=
  Z.to_nat (framesFor (duration scene)).

Fixpoint stageEvents (totalFrames : Z) (scenes : list Scene) (index : nat)
  : list Event :=
  match scenes with
  | [] => []
  | scene :: more =>
      framesEvents totalFrames scene (framesFor (duration scene))
                   (seq 0 (sceneFrameCount scene)) index
        ++ stageEvents totalFrames more (index + sceneFrameCount scene)
  end.

Definition totalFrameCount (scenes : list Scene) : nat :=
  fold_right (fun scene n => (sceneFrameCount scene + n)%nat) 0%nat scenes.

Fixpoint nondecreasing (l : list Q) : Prop :=
  match l with
  | [] => True
  | x :: rest =>
      match rest with
      | [] => True
      | y :: _ => x <= y /\ nondecreasing rest
      end
  end.

(** The running sum the walk of [renderPreviewFrame] keeps in [elapsed]. *)
Definition accumulate (elapsed : Q) (scenes : list Scene) : Q :=
  fold_left (fun total scene => total + duration scene) scenes elapsed.

Definition nonNegative (scene : Scene) : Prop := 0 <= duration scene.

(** The invariant behind the scene count: distinct ids, between one and
    [MAX_SCENES] scenes. *)
Definition wellFormed (st : AppState) : Prop :=
  NoDup (map id (scenes st)) /\
  (1 <= List.length (scenes st) <= MAX_SCENES)%nat.

Definition prefixOf {A : Type} (l1 l2 : list A) : Prop :=
  exists rest, l2 = l1 ++ rest.

(** [totalFrames] of [synthesizeVideo]. *)
Definition totalFramesOf (scenes : list Scene) : Z :=
  Math_maxZ 1 (Math_round (totalDurationForScenes scenes * inject_Z FPS)).

(** The scene's gradient id has an entry in the registry. *)
Definition resolves {host : Host} (scene : Scene) : Prop :=
  find (fun entry => string_eqb (gid entry) (gradientId scene)) GRADIENTS <> None.

(** The two colour stops [drawAccent] builds from the scene's accent are
    colours for the parser of the browser. *)
Definition acceptedAccent {host : Host} (scene : Scene) : Prop :=
  parsesColor (accent scene ++ "30") = true /\
  parsesColor (accent scene ++ "00") = true.



Definition loadEvents : list Event :=
  [EvStage loading 0.1; EvLoad; EvStage loading 1].

Definition muxEvents : list Event :=
  [ EvExec execArgs; EvStage muxing 0.9; EvRead "output.mp4"; EvStage muxing 1 ].

Definition cleanupEvents (files : list string) : list Event :=
  map EvDelete files ++ [EvDelete "output.mp4"].

(** The [fillText] commands of one text block, and where [currentY] ends. *)
Fixpoint lineOps (st : DrawingState) (lineHeight : Q) (lines : list string)
    (currentY : Q) : list DrawOp :=
  match lines with
  | [] => []
  | line :: more =>
      FillText st line 0 currentY :: lineOps st lineHeight more (currentY + lineHeight)
  end.

Fixpoint lineEnd (lineHeight : Q) (lines : list string) (currentY : Q) : Q :=
  match lines with
  | [] => currentY
  | _ :: more => lineEnd lineHeight more (currentY + lineHeight)
  end.

(** [deleteFile] returns normally on every file that working storage holds. *)
Definition reliableDelete {E : Type} {enc : Encoder E} : Prop :=
  forall name e, stored name e = true -> exists e', deleteFile name e = (Ok tt, e').

(** Whole frames: the duration is a whole number of frames at [FPS]. *)
Definition wholeFrames (scene : Scene) : Prop :=
  exists k : Z, (1 <= k)%Z /\ duration scene * inject_Z FPS == inject_Z k.

(** The file name of the frame whose index has the little-endian digits [d]. *)
Definition nameOfDigits (d : uint) : string :=
  ("frame_" ++ padStart 5 "0" (NilEmpty.string_of_uint (rev d)) ++ ".png")%string.

(** Whether each of the next [count] names is below its successor in the
    order of strings, starting from the index with digits [d]. *)
Fixpoint namesAscend (count : nat) (d : uint) : bool :=
  match count with
  | O => true
  | S k =>
      if String.ltb (nameOfDigits d) (nameOfDigits (Little.succ d))
      then namesAscend k (Little.succ d)
      else false
  end.

(** Reading a string of decimal digits back as a number. *)
Definition parseDigits (s : string) : option nat :=
  option_map Nat.of_uint (NilEmpty.uint_of_string s).

(** The frames rendered for one scene: the scene with each frame's progress. *)
Definition sceneFrames (scene : Scene) : list (Scene * Q) :=
  map (fun frame => (scene, frameProgress (framesFor (duration scene)) frame))
      (seq 0 (sceneFrameCount scene)).

(** The fraction reported after [written] frames. *)
Definition frameFraction (totalFrames : Z) (written : nat) : Q :=
  inject_Z (Z.of_nat written) / inject_Z totalFrames.


(** ** The preview clock and the timeline strip *)

(** The [raf] callback of the preview effect: [previewTime] is the value the
    effect closed over, [startTimestamp] its local variable.  It returns the
    new [startTimestamp] and the value handed to [setPreviewTime]. *)
Definition raf (previewTime totalDuration : Q) (startTimestamp : option Q)
    (timestamp : Q) : Q * Q :=
  let start :=
    match startTimestamp with
    | None => timestamp - previewTime * 1000
    | Some s => s
    end in
  let elapsed := (timestamp - start) / 1000 in
  if Qle_bool totalDuration elapsed then (timestamp, 0) else (start, elapsed).

(** The animation frames of one run of the effect, in order: the first call
    finds [startTimestamp] null.  The result is what each call showed. *)
Fixpoint rafRun (previewTime totalDuration : Q) (startTimestamp : option Q)
    (timestamps : list Q) : list Q :=
  match timestamps with
  | [] => []
  | timestamp :: later =>
      let '(start, shown) := raf previewTime totalDuration startTimestamp timestamp in
      shown :: rafRun previewTime totalDuration (Some start) later
  end.

(** One cell of the strip under the preview: its grid span, the start time
    printed under it, its number and its duration. *)
Record Segment : Type := mkSegment {
  span : Z;
  startLabel : Q;
  sceneNumber : nat;
  seconds : Q
}.

(** [width] and [span] of a cell of [Timeline]: zero is falsy. *)
Definition timelineSpan (totalDuration : Q) (count : nat) (sceneSeconds : Q) : Z :=
  let width :=
    if Qeq_bool totalDuration 0 then 0 else sceneSeconds / totalDuration * 100 in
  Math_maxZ 1
    (Math_round
       ((if Qeq_bool width 0 then 100 / inject_Z (Z.of_nat count) else width)
        / 100 * 12)).

(** The [scenes.map] of [Timeline], with its running [elapsed]. *)
Fixpoint timelineCells (totalDuration : Q) (count : nat) (index : nat)
    (elapsed : Q) (scenes : list Scene) : list Segment :=
  match scenes with
  | [] => []
  | scene :: more =>
      let start := elapsed in
      let elapsed := elapsed + duration scene in
      mkSegment (timelineSpan totalDuration count (duration scene)) start
                (index + 1) (duration scene)
        :: timelineCells totalDuration count (S index) elapsed more
  end.

(** [Timeline]: the width of the progress bar in percent, and the cells. *)
Definition Timeline (scenes : list Scene) (currentTime totalDuration : Q)
  : Q * list Segment :=
  (if Qeq_bool totalDuration 0 then 0 else currentTime / totalDuration * 100,
   timelineCells totalDuration (List.length scenes) 0 0 scenes).

(** ** What the page offers *)

(** The actions the controls of the page can fire in a state: a fresh id for
    a new scene, the Remove and select buttons of a scene that is shown, the
    gradient swatches of the registry, and the values of the two colour
    inputs. *)
Definition offered (registry : list GradientSpec) (a : Action) (st : AppState)
  : Prop :=
  match a with
  | AddScene newId => ~ In newId (map id (scenes st))
  | RemoveScene target => In target (map id (scenes st))
  | SelectScene target => In target (map id (scenes st))
  | EditScene (EditGradient gradient) => In gradient registry
  | EditScene (EditTextColor value) => colorInputValue value = true
  | EditScene (EditAccent value) => colorInputValue value = true
  | EditScene _ => True
  end.

Inductive pageState (registry : list GradientSpec) : AppState -> Prop :=
| page_initial id1 id2 id3 :
    NoDup [id1; id2; id3] -> pageState registry (initialState id1 id2 id3)
| page_perform st a :
    pageState registry st -> offered registry a st ->
    pageState registry (perform registry a st).

(** The registry has the three gradients the initial scenes name. *)
Definition hasInitialGradients (registry : list GradientSpec) : Prop :=
  forall name,
    In name ["aurora"; "midnight"; "sunset"]%string -> In name (map gid registry).

(** The scene's gradient id is the id of an entry of the registry. *)
Definition gradientKnown (registry : list GradientSpec) (scene : Scene) : Prop :=
  In (gradientId scene) (map gid registry).

(** The scene [addScene] takes as its template. *)
Definition templateOf (st : AppState) : Scene :=
  last (scenes st)
       (hd (mkScene "" "" "" 0 "" "" "" zoom) (buildInitialScenes "" "" "")).

(** What holds of every state the controls can reach. *)
Definition pageInvariant (registry : list GradientSpec) (st : AppState) : Prop :=
  wellFormed st /\
  In (selectedSceneId st) (map id (scenes st)) /\
  Forall (gradientKnown registry) (scenes st) /\
  Forall inBounds (scenes st) /\
  Forall (fun scene => colorInputValue (accent scene) = true) (scenes st).

(** ** Further observations on a trace *)

(** The stage reports of a trace, in order. *)
Definition stageSequence (tr : list Event) : list (Stage * Q) :=
  flat_map (fun ev => match ev with EvStage stage p => [(stage, p)] | _ => [] end) tr.

Definition execCalls (tr : list Event) : list (list string) :=
  flat_map (fun ev => match ev with EvExec args => [args] | _ => [] end) tr.

Definition readNames (tr : list Event) : list string :=
  flat_map (fun ev => match ev with EvRead name => [name] | _ => [] end) tr.

(** The progress [handleRender] shows on a stage report. *)
Definition barValue (report : Stage * Q) : Q :=
  progress
    (renderState
       (stageToRenderState (fst report) (snd report)
          (mkUi (mkRenderState idle 0 None None) None []))).

(** The events of an attempt that returns. *)
Definition successEvents (scenes : list Scene) : list Event :=
  loadEvents ++ stageEvents (totalFramesOf scenes) scenes 0
    ++ [EvStage muxing 0.1] ++ muxEvents
    ++ cleanupEvents (map frameFilename (seq 0 (totalFrameCount scenes))).

(** The sum of the durations, from the right. *)
Definition sumOfDurations (scenes : list Scene) : Q :=
  fold_right (fun scene total => duration scene + total) 0 scenes.

(** Joining strings with a one-character separator: [Array.prototype.join]. *)
Fixpoint join (sep : ascii) (parts : list string) : string :=
  match parts with
  | [] => EmptyString
  | [part] => part
  | part :: more => (part ++ String sep (join sep more))%string
  end.

(** A string without the character. *)
Fixpoint lacks (c : ascii) (s : string) : Prop :=
  match s with
  | EmptyString => True
  | String x rest => x <> c /\ lacks c rest
  end.


(** ** Where an attempt can stop *)

(** The names of the frame files of an attempt, in the order written. *)
Definition frameNames (scenes : list Scene) : list string :=
  map frameFilename (seq 0 (totalFrameCount scenes)).

(** An encoder none of whose calls on the way to the video throws: loading,
    writing and running return, and after a run [output.mp4] reads back as
    bytes. *)
Definition dependable {E : Type} {enc : Encoder E} : Prop :=
  (forall e, exists e', getFFmpeg e = (Ok tt, e')) /\
  (forall name bytes e, exists e', writeFile name bytes e = (Ok tt, e')) /\
  (forall args e,
      exists e', exec args e = (Ok tt, e') /\
                 exists bytes e'',
                   readFile "output.mp4" e' = (Ok (Uint8Array bytes), e'')).

(** The exception is one that a call of the encoder threw. *)
Definition raisedByEncoder {E : Type} {enc : Encoder E} (e : Exn) : Prop :=
  (exists st st', getFFmpeg st = (Throw e, st')) \/
  (exists name bytes st st', writeFile name bytes st = (Throw e, st')) \/
  (exists st st', exec execArgs st = (Throw e, st')) \/
  (exists st st', readFile "output.mp4" st = (Throw e, st')).

(** The errors [synthesizeVideo] and what it calls construct themselves. *)
Definition ownErrors {host : Host} (scenes : list Scene) : list Exn :=
  [ Error "Add at least one scene before rendering.";
    Error "Unable to access 2D context for rendering.";
    Error "Base64 decoding is not available in this environment.";
    Error "Unexpected encoder output format." ]
  ++ map (fun scene => missingGradient (gradientId scene)) scenes.

(** The exception is the SyntaxError that [addColorStop] throws in
    [drawAccent] for one of the scenes, whose accent with the alpha digits
    appended is no colour. *)
Definition raisedByCanvas {host : Host} (scenes : list Scene) (e : Exn) : Prop :=
  exists scene,
    In scene scenes /\ ~ acceptedAccent scene /\ e = Error syntaxErrorMessage.

(** What can end the frame loop, and what can end the try block. *)
Definition frameError {host : Host} {E : Type} {enc : Encoder E}
    (scenes : list Scene) (e : Exn) : Prop :=
  (exists scene, In scene scenes /\ e = missingGradient (gradientId scene)) \/
  raisedByCanvas scenes e \/
  e = Error "Base64 decoding is not available in this environment." \/
  (exists name bytes st st', writeFile name bytes st = (Throw e, st')).

Definition muxError {E : Type} {enc : Encoder E} (e : Exn) (mux : list Event) : Prop :=
  mux = [EvExec execArgs] /\ (exists st st', exec execArgs st = (Throw e, st')) \/
  mux = [EvExec execArgs; EvStage muxing 0.9; EvRead "output.mp4"] /\
  (e = Error "Unexpected encoder output format." \/
   exists st st', readFile "output.mp4" st = (Throw e, st')).

(** Where an attempt over [scenes] can stop: its outcome and the events it
    adds to the trace. *)
Inductive stopsAt {host : Host} {E : Type} {enc : Encoder E} (scenes : list Scene)
  : Result Blob -> list Event -> Prop :=
| stop_empty :
    scenes = [] ->
    stopsAt scenes (Throw (Error "Add at least one scene before rendering.")) []
| stop_load e :
    scenes <> [] -> (exists st st', getFFmpeg st = (Throw e, st')) ->
    stopsAt scenes (Throw e) [EvStage loading 0.1; EvLoad]
| stop_context :
    scenes <> [] -> supports2d = false ->
    stopsAt scenes (Throw (Error "Unable to access 2D context for rendering."))
            loadEvents
| stop_frames e stage :
    scenes <> [] -> supports2d = true ->
    prefixOf stage (stageEvents (totalFramesOf scenes) scenes 0) ->
    frameError scenes e ->
    stopsAt scenes (Throw e) (loadEvents ++ stage)
| stop_mux e mux :
    scenes <> [] -> supports2d = true -> Forall resolves scenes ->
    Forall acceptedAccent scenes ->
    muxError e mux ->
    stopsAt scenes (Throw e)
            (loadEvents ++ stageEvents (totalFramesOf scenes) scenes 0
               ++ [EvStage muxing 0.1] ++ mux ++ cleanupEvents (frameNames scenes))
| stop_done bytes :
    scenes <> [] -> supports2d = true -> Forall resolves scenes ->
    Forall acceptedAccent scenes ->
    (exists st st', readFile "output.mp4" st = (Ok (Uint8Array bytes), st')) ->
    stopsAt scenes (Ok (mkBlob bytes "video/mp4")) (successEvents scenes).

(** The message [handleRender] shows for an exception. *)
Definition messageOf (e : Exn) : string :=
  match e with
  | Error message => message
  | Thrown _ => "Something went wrong."
  end.

(** ** Animation frames of the preview *)

(** The clock has not been started, or was started no later than now. *)
Definition clockRuns (startTimestamp : option Q) (previewTime timestamp : Q) : Prop :=
  match startTimestamp with
  | None => 0 <= previewTime
  | Some start => start <= timestamp
  end.

Fixpoint ascending (previous : Q) (timestamps : list Q) : Prop :=
  match timestamps with
  | [] => True
  | timestamp :: later => previous <= timestamp /\ ascending timestamp later
  end.


(** * Properties *)

(** ** Numbers *)

Lemma Qlt_bool_iff (a b : Q) : Qlt_bool a b = true <-> a < b.
Proof.
  unfold Qlt_bool. rewrite negb_true_iff. split; intro H.
  - apply Qnot_le_lt. intro L. apply Qle_bool_iff in L. congruence.
  - destruct (Qle_bool b a) eqn:L; [|reflexivity].
    apply Qle_bool_iff in L. exfalso. apply (Qlt_not_le _ _ H L).
Qed.

Lemma Qlt_bool_false_iff (a b : Q) : Qlt_bool a b = false <-> b <= a.
Proof.
  unfold Qlt_bool. rewrite negb_false_iff. apply Qle_bool_iff.
Qed.

Lemma Qle_bool_false_iff (a b : Q) : Qle_bool a b = false <-> b < a.
Proof.
  rewrite <- Qlt_bool_iff. unfold Qlt_bool.
  destruct (Qle_bool a b); simpl; intuition congruence.
Qed.

Lemma clamp_within (value lo hi : Q) :
  lo <= hi -> lo <= clamp value lo hi /\ clamp value lo hi <= hi.
Proof.
  intro H. unfold clamp, Math_min, Math_max. split.
  - apply Q.min_glb; [apply Q.le_max_r | exact H].
  - apply Q.le_min_r.
Qed.

Lemma clamp_inBounds (value : Q) :
  MIN_DURATION <= clamp value MIN_DURATION MAX_DURATION /\
  clamp value MIN_DURATION MAX_DURATION <= MAX_DURATION.
Proof. apply clamp_within. unfold MIN_DURATION, MAX_DURATION. lra. Qed.

(** [Math.round] of an integer-valued number is that integer. *)
Lemma Math_round_integer (x : Q) (n : Z) : x == inject_Z n -> Math_round x = n.
Proof.
  intro H. unfold Math_round.
  assert (L : inject_Z n <= x + (1 # 2)) by (rewrite H; lra).
  assert (U : x + (1 # 2) < inject_Z (n + 1)).
  { rewrite H, inject_Z_plus. change (inject_Z 1) with 1. lra. }
  apply Qfloor_resp_le in L. rewrite Qfloor_Z in L.
  assert (G : (Qfloor (x + (1 # 2)) < n + 1)%Z).
  { apply Z.lt_nge. intro C. rewrite Zle_Qle in C.
    pose proof (Qfloor_le (x + (1 # 2))) as F. lra. }
  lia.
Qed.

(** ** The scene list *)

Section SceneListFacts.

Variable GRADIENTS : list GradientSpec.

Lemma initial_inBounds id1 id2 id3 :
  Forall inBounds (buildInitialScenes id1 id2 id3).
Proof.
  unfold buildInitialScenes, inBounds, MIN_DURATION, MAX_DURATION.
  repeat constructor; simpl; lra.
Qed.

Lemma addScene_shape newId st :
  addScene GRADIENTS newId st = st \/
  exists scene,
    scenes (addScene GRADIENTS newId st) = scenes st ++ [scene] /\
    id scene = newId /\ inBounds scene /\
    (List.length (scenes st) < MAX_SCENES)%nat.
Proof.
  unfold addScene.
  destruct (MAX_SCENES <=? List.length (scenes st))%nat eqn:Full; [now left|].
  apply Nat.leb_gt in Full.
  match goal with |- context [nth_error ?l ?k] => destruct (nth_error l k) end;
    [|now left].
  right. eexists. simpl. split; [reflexivity|].
  split; [reflexivity|]. split; [|exact Full].
  unfold inBounds. simpl. apply clamp_inBounds.
Qed.

Lemma sceneEditorChange_id scene e : id (sceneEditorChange scene e) = id scene.
Proof. destruct e; reflexivity. Qed.

Lemma sceneEditorChange_inBounds scene e :
  inBounds scene -> inBounds (sceneEditorChange scene e).
Proof.
  intro H. destruct e; try exact H.
  unfold inBounds. simpl. apply clamp_inBounds.
Qed.

Lemma activeScene_In st scene : activeScene st = Some scene -> In scene (scenes st).
Proof.
  unfold activeScene.
  destruct (find _ (scenes st)) eqn:F.
  - intro H. inversion H. subst. apply find_some in F. tauto.
  - destruct (scenes st); simpl; intro H; inversion H. now left.
Qed.

Lemma perform_inBounds a st :
  Forall inBounds (scenes st) -> Forall inBounds (scenes (perform GRADIENTS a st)).
Proof.
  intro H. destruct a as [newId|target|target|e]; simpl.
  - destruct (addScene_shape newId st) as [Same|[scene [Eq [_ [B _]]]]].
    + now rewrite Same.
    + rewrite Eq. apply Forall_app. split; [exact H|]. now constructor.
  - unfold removeScene. destruct (List.length (scenes st) =? 1)%nat; [exact H|].
    simpl. rewrite Forall_forall in *. intros s I.
    apply filter_In in I. apply H. tauto.
  - exact H.
  - unfold editActiveScene. destruct (activeScene st) as [scene|] eqn:A; [|exact H].
    simpl. rewrite Forall_forall in *. intros s I.
    apply in_map_iff in I. destruct I as [s0 [Eq I0]].
    destruct (string_eqb (id s0) (id scene)); subst s.
    + apply sceneEditorChange_inBounds. apply H. now apply activeScene_In.
    + now apply H.
Qed.

Lemma performAll_inBounds acts st :
  Forall inBounds (scenes st) ->
  Forall inBounds (scenes (performAll GRADIENTS acts st)).
Proof.
  unfold performAll. revert st.
  induction acts as [|a acts IH]; intros st H; simpl; [exact H|].
  apply IH. now apply perform_inBounds.
Qed.

Lemma filter_other_length (target : string) (l : list Scene) :
  NoDup (map id l) ->
  (List.length l <=
   S (List.length (filter (fun scene => negb (string_eqb (id scene) target)) l)))%nat.
Proof.
  induction l as [|s l IH]; simpl; intro N; [lia|].
  inversion N as [|? ? NotIn N']; subst.
  destruct (string_eqb (id s) target) eqn:Eq; simpl.
  - apply String.eqb_eq in Eq.
    assert (K : filter (fun scene => negb (string_eqb (id scene) target)) l = l).
    { apply forallb_filter_id. apply forallb_forall. intros x I.
      apply negb_true_iff. unfold string_eqb. apply String.eqb_neq. intro C.
      apply NotIn. rewrite Eq, <- C. now apply in_map. }
    rewrite K. lia.
  - specialize (IH N'). lia.
Qed.

(** Dropping scenes keeps the remaining ids distinct. *)
Lemma distinct_ids_filter (keep : Scene -> bool) (l : list Scene) :
  NoDup (map id l) -> NoDup (map id (filter keep l)).
Proof.
  intro N. induction l as [|scene l IH]; [constructor|].
  inversion N as [|? ? Fresh N']; subst. simpl.
  destruct (keep scene); [|now apply IH].
  simpl. constructor; [|now apply IH].
  rewrite in_map_iff. intros [other [Eq I]].
  apply Fresh. apply filter_In in I. rewrite <- Eq. apply in_map. tauto.
Qed.

Lemma perform_wellFormed a st :
  wellFormed st -> nanoidFresh a st -> wellFormed (perform GRADIENTS a st).
Proof.
  intros [N [Lo Hi]] Fresh. destruct a as [newId|target|target|e]; simpl.
  - destruct (addScene_shape newId st) as [Same|[scene [Eq [I [_ Room]]]]].
    + rewrite Same. now split.
    + unfold wellFormed. rewrite Eq, map_app, length_app. simpl. split.
      * apply NoDup_app; [exact N | repeat constructor; tauto |].
        intros x In1 [In2|[]]. subst x. simpl in Fresh. rewrite I in In1. tauto.
      * unfold MAX_SCENES in *. lia.
  - unfold removeScene.
    destruct (List.length (scenes st) =? 1)%nat eqn:One; [now split|].
    apply Nat.eqb_neq in One. unfold wellFormed. simpl. split.
    + now apply distinct_ids_filter.
    + pose proof (filter_other_length target (scenes st) N) as F.
      pose proof (filter_length_le
                    (fun scene => negb (string_eqb (id scene) target)) (scenes st)) as G.
      lia.
  - now split.
  - unfold editActiveScene. destruct (activeScene st) as [scene|] eqn:A; [|now split].
    unfold wellFormed, updateScene. simpl. rewrite length_map.
    split; [|now split].
    rewrite map_map.
    erewrite map_ext_in; [exact N|].
    intros s _. simpl. destruct (string_eqb (id s) (id scene)) eqn:Eq; [|reflexivity].
    rewrite sceneEditorChange_id. apply String.eqb_eq in Eq. now rewrite Eq.
Qed.

Lemma reachable_wellFormed st : reachable GRADIENTS st -> wellFormed st.
Proof.
  induction 1 as [id1 id2 id3 N|st a R IH Fresh].
  - split; [exact N|]. simpl. unfold MAX_SCENES. lia.
  - now apply perform_wellFormed.
Qed.

End SceneListFacts.

(** C9. Scene durations stay within [MIN_DURATION, MAX_DURATION] = [2, 8]:
    the initial scenes are within the bounds, [addScene] appends at most one
    scene and clamps its duration, a duration edit of the scene editor clamps
    the entered number, and so every scene is within the bounds after any
    run of scene-list operations. *)
Theorem scene_durations_within_bounds :
  MIN_DURATION = 2 /\ MAX_DURATION = 8 /\
  (forall id1 id2 id3, Forall inBounds (buildInitialScenes id1 id2 id3)) /\
  (forall registry newId st,
      addScene registry newId st = st \/
      exists scene,
        scenes (addScene registry newId st) = scenes st ++ [scene] /\
        duration scene =
          clamp (duration (last (scenes st)
                                (hd (mkScene "" "" "" 0 "" "" "" zoom)
                                    (buildInitialScenes "" "" ""))))
                MIN_DURATION MAX_DURATION /\
        inBounds scene) /\
  (forall scene value,
      duration (sceneEditorChange scene (EditDuration value)) =
        clamp value MIN_DURATION MAX_DURATION /\
      inBounds (sceneEditorChange scene (EditDuration value))) /\
  (forall registry id1 id2 id3 acts,
      Forall inBounds
        (scenes (performAll registry acts (initialState id1 id2 id3)))).
Proof.
  split; [reflexivity|]. split; [reflexivity|].
  split; [apply initial_inBounds|]. split; [|split].
  - intros registry newId st. unfold addScene.
    destruct (MAX_SCENES <=? List.length (scenes st))%nat; [now left|].
    match goal with |- context [nth_error ?l ?k] => destruct (nth_error l k) end;
      [|now left].
    right. eexists. simpl. split; [reflexivity|]. split; [reflexivity|].
    unfold inBounds. simpl. apply clamp_inBounds.
  - intros scene value. split; [reflexivity|].
    unfold inBounds. simpl. apply clamp_inBounds.
  - intros registry id1 id2 id3 acts. apply performAll_inBounds.
    apply initial_inBounds.
Qed.

(** C10. The number of scenes stays between 1 and [MAX_SCENES] = 6 in every
    state the page reaches; [removeScene] on a single-scene list and
    [addScene] on a list of six scenes change nothing. *)
Theorem scene_count_within_limits (registry : list GradientSpec) (st : AppState) :
  reachable registry st ->
  MAX_SCENES = 6%nat /\
  (1 <= List.length (scenes st) <= MAX_SCENES)%nat /\
  (forall target,
      List.length (scenes st) = 1%nat -> removeScene target st = st) /\
  (forall newId,
      List.length (scenes st) = MAX_SCENES -> addScene registry newId st = st).
Proof.
  intro R. split; [reflexivity|].
  split; [apply (reachable_wellFormed registry st R)|]. split.
  - intros target One. unfold removeScene. now rewrite One.
  - intros newId Full. unfold addScene. rewrite Full. reflexivity.
Qed.

(** ** The timeline *)

Lemma accumulate_shift (l : list Scene) (e : Q) :
  accumulate e l == e + totalDurationForScenes l.
Proof.
  unfold totalDurationForScenes. fold (accumulate 0 l).
  revert e. induction l as [|s l IH]; intro e; simpl.
  - unfold accumulate. simpl. ring.
  - unfold accumulate in *. simpl. rewrite (IH (e + duration s)), (IH (0 + duration s)).
    ring.
Qed.

Lemma accumulate_ge (l : list Scene) (e : Q) :
  Forall nonNegative l -> e <= accumulate e l.
Proof.
  revert e. induction l as [|s l IH]; intros e F; unfold accumulate; simpl.
  - apply Qle_refl.
  - inversion F as [|? ? Hs Hl]; subst. unfold nonNegative in Hs.
    apply Qle_trans with (e + duration s); [lra|]. now apply IH.
Qed.

Lemma accumulate_firstn_mono (l : list Scene) (e : Q) (j i : nat) :
  Forall nonNegative l -> (j <= i)%nat ->
  accumulate e (firstn j l) <= accumulate e (firstn i l).
Proof.
  revert e j i. induction l as [|s l IH]; intros e j i F L.
  - rewrite !firstn_nil. apply Qle_refl.
  - inversion F as [|? ? Hs Hl]; subst.
    destruct j as [|j], i as [|i]; simpl; try lia.
    + apply Qle_refl.
    + unfold nonNegative in Hs. unfold accumulate at 1. simpl.
      apply Qle_trans with (e + duration s); [lra|].
      apply (IH (e + duration s) 0%nat i Hl). lia.
    + apply (IH (e + duration s)); [exact Hl | lia].
Qed.

Lemma accumulate_firstn_next (l : list Scene) (e : Q) (i : nat) (s : Scene) :
  nth_error l i = Some s ->
  accumulate e (firstn (S i) l) = accumulate e (firstn i l) + duration s.
Proof.
  revert e i. induction l as [|x l IH]; intros e i H.
  - destruct i; discriminate.
  - destruct i as [|i].
    + simpl in H. inversion H. subst. reflexivity.
    + simpl in H. change (firstn (S (S i)) (x :: l)) with (x :: firstn (S i) l).
      change (firstn (S i) (x :: l)) with (x :: firstn i l).
      unfold accumulate in *. simpl. now apply IH.
Qed.

Lemma accumulate_firstn_total (l : list Scene) (e : Q) (i : nat) :
  Forall nonNegative l -> accumulate e (firstn i l) <= accumulate e l.
Proof.
  intro F. destruct (Nat.le_gt_cases i (List.length l)) as [L|G].
  - rewrite <- (firstn_all l) at 2. now apply accumulate_firstn_mono.
  - rewrite firstn_all2 by lia. apply Qle_refl.
Qed.

(** What the walk returns: the first scene whose interval holds the time, at
    the progress the source computes, or nothing once the time has reached
    the end of the last interval. *)
Lemma resolveFrom_spec (l : list Scene) (e t : Q) :
  e <= t ->
  match resolveFrom e l t with
  | Some (s, p) =>
      exists i,
        nth_error l i = Some s /\
        p = (t - accumulate e (firstn i l)) / duration s /\
        accumulate e (firstn i l) <= t /\
        t < accumulate e (firstn i l) + duration s
  | None => accumulate e l <= t
  end.
Proof.
  revert e. induction l as [|s l IH]; intros e Le; simpl.
  - exact Le.
  - destruct (Qle_bool e t && Qlt_bool t (e + duration s)) eqn:Hit.
    + apply andb_true_iff in Hit. destruct Hit as [_ Lt].
      apply Qlt_bool_iff in Lt.
      exists 0%nat. simpl. unfold accumulate. simpl. tauto.
    + apply andb_false_iff in Hit. destruct Hit as [No|No].
      * apply Qle_bool_false_iff in No. lra.
      * apply Qlt_bool_false_iff in No.
        specialize (IH (e + duration s) No).
        destruct (resolveFrom (e + duration s) l t) as [[s' p]|].
        -- destruct IH as [i H]. exists (S i). exact H.
        -- exact IH.
Qed.

Lemma total_positive_nonempty (l : list Scene) :
  0 < totalDurationForScenes l ->
  exists s, nth_error l (List.length l - 1) = Some s.
Proof.
  destruct l as [|x l]; intro H.
  - unfold totalDurationForScenes in H. simpl in H. lra.
  - destruct (nth_error (x :: l) (List.length (x :: l) - 1)) eqn:N; [eauto|].
    apply nth_error_None in N. simpl in N. lia.
Qed.

Lemma resolve_inside (l : list Scene) (t : Q) :
  Forall nonNegative l ->
  0 <= t -> t < totalDurationForScenes l ->
  exists i s,
    nth_error l i = Some s /\
    resolve l t = Some (s, (t - sceneStart l i) / duration s) /\
    sceneStart l i <= t /\ t < sceneStart l i + duration s /\
    forall j s',
      nth_error l j = Some s' ->
      sceneStart l j <= t -> t < sceneStart l j + duration s' -> j = i.
Proof.
  intros F T0 T1. unfold resolve.
  destruct (Qeq_bool (totalDurationForScenes l) 0) eqn:Z.
  { apply Qeq_bool_iff in Z. lra. }
  pose proof (resolveFrom_spec l 0 t T0) as S.
  destruct (resolveFrom 0 l t) as [[s p]|].
  - destruct S as [i [N [P [Lo Hi]]]].
    exists i, s. change (accumulate 0 (firstn i l)) with (sceneStart l i) in *.
    repeat split; try assumption; [now rewrite P|].
    intros j s' N' Lo' Hi'.
    destruct (Nat.lt_trichotomy j i) as [Lt|[Eq|Gt]]; [|exact Eq|]; exfalso.
    + pose proof (accumulate_firstn_mono l 0 (S j) i F Lt) as M.
      rewrite (accumulate_firstn_next l 0 j s' N') in M.
      unfold sceneStart, totalDurationForScenes in *. unfold accumulate in *. lra.
    + pose proof (accumulate_firstn_mono l 0 (S i) j F Gt) as M.
      rewrite (accumulate_firstn_next l 0 i s N) in M.
      unfold sceneStart, totalDurationForScenes in *. unfold accumulate in *. lra.
  - unfold accumulate in S. unfold totalDurationForScenes in T1. lra.
Qed.

Lemma resolve_beyond (l : list Scene) (t : Q) :
  Forall nonNegative l ->
  0 < totalDurationForScenes l -> totalDurationForScenes l <= t ->
  exists s,
    nth_error l (List.length l - 1) = Some s /\ resolve l t = Some (s, 1).
Proof.
  intros F Pos Beyond. unfold resolve.
  destruct (Qeq_bool (totalDurationForScenes l) 0) eqn:Z.
  { apply Qeq_bool_iff in Z. lra. }
  assert (T0 : 0 <= t) by lra.
  pose proof (resolveFrom_spec l 0 t T0) as S.
  destruct (resolveFrom 0 l t) as [[s p]|].
  - exfalso. destruct S as [i [N [_ [_ Hi]]]].
    rewrite <- (accumulate_firstn_next l 0 i s N) in Hi.
    pose proof (accumulate_firstn_total l 0 (S i) F) as M.
    unfold totalDurationForScenes in Beyond. unfold accumulate in *. lra.
  - destruct (total_positive_nonempty l Pos) as [s N].
    exists s. now rewrite N.
Qed.

(** C2. Timeline coverage.  For a scene list with non-negative durations and
    a positive total, every time in [0, total) resolves to the one scene
    whose half-open interval [start, start + duration) holds it, at progress
    (t - start) / duration, and every time from the total on resolves to the
    last scene at progress 1.  For a single scene of duration 2: progress 0
    at time 0, progress 0.5 at time 1, progress 1 on that scene from time 2
    on. *)
Theorem timeline_coverage :
  (forall (l : list Scene) (t : Q),
      Forall nonNegative l ->
      0 < totalDurationForScenes l ->
      (0 <= t -> t < totalDurationForScenes l ->
       exists i s,
         nth_error l i = Some s /\
         resolve l t = Some (s, (t - sceneStart l i) / duration s) /\
         sceneStart l i <= t /\ t < sceneStart l i + duration s /\
         forall j s',
           nth_error l j = Some s' ->
           sceneStart l j <= t -> t < sceneStart l j + duration s' -> j = i) /\
      (totalDurationForScenes l <= t ->
       exists s,
         nth_error l (List.length l - 1) = Some s /\ resolve l t = Some (s, 1))) /\
  (forall scene : Scene,
      duration scene == 2 ->
      (exists p, resolve [scene] 0 = Some (scene, p) /\ p == 0) /\
      (exists p, resolve [scene] 1 = Some (scene, p) /\ p == 0.5) /\
      (forall t, 2 <= t -> resolve [scene] t = Some (scene, 1))).
Proof.
  split.
  - intros l t F Pos. split.
    + intros T0 T1. now apply resolve_inside.
    + intro Beyond. now apply resolve_beyond.
  - intros scene D.
    assert (F : Forall nonNegative [scene]).
    { repeat constructor. unfold nonNegative. rewrite D. lra. }
    assert (Tot : totalDurationForScenes [scene] == 2).
    { unfold totalDurationForScenes. simpl. rewrite D. ring. }
    assert (inside : forall t, 0 <= t -> t < 2 ->
              exists p, resolve [scene] t = Some (scene, p) /\ p == t / 2).
    { intros t T0 T1.
      destruct (resolve_inside [scene] t F T0) as [i [s [N [R _]]]].
      { rewrite Tot. exact T1. }
      destruct i as [|i]; [|destruct i; discriminate].
      simpl in N. inversion N. subst s.
      eexists. split; [exact R|].
      unfold sceneStart, totalDurationForScenes. simpl. rewrite D.
      field. }
    split; [|split].
    + destruct (inside 0) as [p [R P]]; try lra. exists p. split; [exact R|].
      rewrite P. reflexivity.
    + destruct (inside 1) as [p [R P]]; try lra. exists p. split; [exact R|].
      rewrite P. reflexivity.
    + intros t T.
      destruct (resolve_beyond [scene] t F) as [s [N R]].
      * rewrite Tot. lra.
      * rewrite Tot. exact T.
      * simpl in N. inversion N. subst s. exact R.
Qed.

(** ** The frame renderer *)

Ltac ctx_run :=
  cbv beta iota zeta delta
    [Ctx.withCurrent Ctx.save Ctx.restore Ctx.pushTransform Ctx.translate
     Ctx.scale Ctx.rotate Ctx.set_fillStyle Ctx.set_globalAlpha Ctx.set_font
     Ctx.set_textBaseline Ctx.paint Ctx.fillRect Ctx.fillText Ctx.fill
     Ctx.beginPath Ctx.addSegment Ctx.moveTo Ctx.lineTo Ctx.quadraticCurveTo
     Ctx.closePath current saved path drawn fillStyle globalAlpha font
     textBaseline transform roundedRect drawTextBlock wrapText].

Section RendererFacts.
Context {host : Host}.

Lemma fillLines_effect h lines : forall y c,
  fillLines h lines y c =
    (lineEnd h lines y,
     mkContext (current c) (saved c) (path c)
               (drawn c ++ lineOps (current c) h lines y)).
Proof.
  induction lines as [|l ls IH]; intros y c; simpl.
  - rewrite app_nil_r. now destruct c.
  - rewrite IH. simpl. now rewrite <- app_assoc.
Qed.

Lemma addColorStop_accepted offset css g :
  0 <= offset -> offset <= 1 -> parsesColor css = true ->
  Ctx.addColorStop offset css g = Ok (Ctx.withColorStop offset css g).
Proof.
  intros Lo Hi P. unfold Ctx.addColorStop.
  apply Qle_bool_iff in Lo, Hi. now rewrite Lo, Hi, P.
Qed.

Lemma addColorStop_refused offset css g :
  0 <= offset -> offset <= 1 -> parsesColor css = false ->
  Ctx.addColorStop offset css g = Throw (Error syntaxErrorMessage).
Proof.
  intros Lo Hi P. unfold Ctx.addColorStop.
  apply Qle_bool_iff in Lo, Hi. now rewrite Lo, Hi, P.
Qed.

Lemma mist_parses :
  parsesColor "rgba(255,255,255,0.18)" = true /\
  parsesColor "rgba(255,255,255,0)" = true.
Proof.
  split.
  - exact (parses_rgba 255 255 255 "0.18" eq_refl).
  - exact (parses_rgba 255 255 255 "0" eq_refl).
Qed.

Lemma drawGradient_effect w h g st :
  exists st' ops, forall c, current c = st ->
    drawGradient w h g c = mkContext st' (saved c) (path c) (drawn c ++ ops).
Proof.
  unfold drawGradient. destruct (gradientLine w h (angle g)) as [[[x0 y0] x1] y1].
  eexists. eexists. intros [cur sv pth dr] E. simpl in E. subst cur. ctx_run. reflexivity.
Qed.

Lemma drawMist_effect st :
  exists st' ops, forall c, current c = st ->
    drawMist c = (Ok tt, mkContext st' (saved c) (path c) (drawn c ++ ops)).
Proof.
  destruct mist_parses as [First Second].
  eexists. eexists. intros [cur sv pth dr] E. simpl in E. subst cur.
  unfold drawMist.
  rewrite addColorStop_accepted by (lra || exact First). cbv beta iota zeta.
  rewrite addColorStop_accepted by (lra || exact Second).
  ctx_run. reflexivity.
Qed.

Lemma drawAccent_effect a p anim st :
  parsesColor (a ++ "30") = true -> parsesColor (a ++ "00") = true ->
  exists pth' ops, forall c, current c = st ->
    drawAccent a p anim c = (Ok tt, mkContext st (saved c) pth' (drawn c ++ ops)).
Proof.
  intros First Second.
  eexists. eexists. intros [cur sv pth dr] E. simpl in E. subst cur.
  unfold drawAccent. cbv zeta.
  rewrite addColorStop_accepted by (lra || exact First). cbv beta iota zeta.
  rewrite addColorStop_accepted by (lra || exact Second).
  ctx_run. reflexivity.
Qed.

(** With an accent that is refused [drawAccent] throws after its [save] and
    its three transforms, before anything is painted. *)
Lemma drawAccent_refused a p anim st :
  parsesColor (a ++ "30") = false \/ parsesColor (a ++ "00") = false ->
  exists st', forall c, current c = st ->
    drawAccent a p anim c =
      (Throw (Error syntaxErrorMessage),
       mkContext st' (st :: saved c) (path c) (drawn c)).
Proof.
  intro Refused.
  eexists. intros [cur sv pth dr] E. simpl in E. subst cur.
  unfold drawAccent. cbv zeta.
  destruct (parsesColor (a ++ "30")) eqn:First.
  - destruct Refused as [Bad|Bad]; [discriminate|].
    rewrite addColorStop_accepted by (lra || exact First). cbv beta iota zeta.
    rewrite addColorStop_refused by (lra || exact Bad).
    ctx_run. reflexivity.
  - rewrite addColorStop_refused by (lra || exact First).
    ctx_run. reflexivity.
Qed.

Lemma drawTextBlock_effect scene p st :
  exists ops, forall c, current c = st ->
    drawTextBlock scene p c = mkContext st (saved c) (path c) (drawn c ++ ops).
Proof.
  eexists. intros [cur sv pth dr] E. simpl in E. subst cur.
  ctx_run. rewrite fillLines_effect. ctx_run. rewrite fillLines_effect. ctx_run.
  rewrite <- app_assoc. reflexivity.
Qed.

Lemma renderSceneFrame_effect scene p gradient st :
  find (fun entry => string_eqb (gid entry) (gradientId scene)) GRADIENTS = Some gradient ->
  acceptedAccent scene ->
  exists ops path',
    forall c, current c = st ->
      renderSceneFrame scene p c = (Ok tt, mkContext st (saved c) path' (drawn c ++ ops)).
Proof.
  intros G [First Second]. unfold renderSceneFrame. rewrite G.
  destruct (drawGradient_effect CANVAS_WIDTH CANVAS_HEIGHT gradient st) as [st1 [ops1 H1]].
  destruct (drawMist_effect st1) as [st2 [ops2 H2]].
  destruct (drawAccent_effect (accent scene) p (animation scene) st2 First Second)
    as [pth3 [ops3 H3]].
  destruct (drawTextBlock_effect scene p st2) as [ops4 H4].
  exists (ops1 ++ ops2 ++ ops3 ++ ops4), pth3.
  intros c E. cbv zeta.
  rewrite (H1 (Ctx.save c)) by (destruct c; exact E).
  rewrite H2 by reflexivity. rewrite H3 by reflexivity. rewrite H4 by reflexivity.
  destruct c as [cur sv pth dr]. simpl in *. subst cur.
  ctx_run. now rewrite <- !app_assoc.
Qed.

(** With a gradient in the registry and an accent that is refused the call
    throws the SyntaxError after the gradient and the mist were painted,
    with two saved states left on the stack. *)
Lemma renderSceneFrame_refused scene p gradient st :
  find (fun entry => string_eqb (gid entry) (gradientId scene)) GRADIENTS = Some gradient ->
  ~ acceptedAccent scene ->
  exists ops st' st'',
    forall c, current c = st ->
      renderSceneFrame scene p c =
        (Throw (Error syntaxErrorMessage),
         mkContext st' (st'' :: st :: saved c) (path c) (drawn c ++ ops)).
Proof.
  intros G Refused. unfold renderSceneFrame. rewrite G.
  assert (Bad : parsesColor (accent scene ++ "30") = false \/
                parsesColor (accent scene ++ "00") = false).
  { unfold acceptedAccent in Refused.
    destruct (parsesColor (accent scene ++ "30")); [|now left].
    destruct (parsesColor (accent scene ++ "00")); [|now right].
    exfalso. apply Refused. now split. }
  destruct (drawGradient_effect CANVAS_WIDTH CANVAS_HEIGHT gradient st) as [st1 [ops1 H1]].
  destruct (drawMist_effect st1) as [st2 [ops2 H2]].
  destruct (drawAccent_refused (accent scene) p (animation scene) st2 Bad) as [st3 H3].
  exists (ops1 ++ ops2), st3, st2.
  intros c E. cbv zeta.
  rewrite (H1 (Ctx.save c)) by (destruct c; exact E).
  rewrite H2 by reflexivity. rewrite H3 by reflexivity.
  destruct c as [cur sv pth dr]. simpl in *. subst cur.
  ctx_run. now rewrite <- !app_assoc.
Qed.

Lemma acceptedAccent_dec scene : acceptedAccent scene \/ ~ acceptedAccent scene.
Proof.
  unfold acceptedAccent.
  destruct (parsesColor (accent scene ++ "30")), (parsesColor (accent scene ++ "00"));
    (left; split; reflexivity) || (right; intros [A B]; discriminate).
Qed.
End RendererFacts.

(** ** The export attempt *)

Section OrchestratorFacts.
Context {host : Host} {E : Type} {enc : Encoder E}.

Lemma prefixOf_refl {A} (l : list A) : prefixOf l l.
Proof. exists []. now rewrite app_nil_r. Qed.

Lemma prefixOf_app_r {A} (l1 l2 l3 : list A) : prefixOf l1 l2 -> prefixOf l1 (l2 ++ l3).
Proof. intros [r H]. exists (r ++ l3). now rewrite H, app_assoc. Qed.

Lemma prefixOf_app_l {A} (l l1 l2 : list A) : prefixOf l1 l2 -> prefixOf (l ++ l1) (l ++ l2).
Proof. intros [r H]. exists r. now rewrite H, app_assoc. Qed.

Lemma renderSceneFrame_ok scene p c :
  fst (renderSceneFrame scene p c) = Ok tt -> resolves scene.
Proof.
  unfold renderSceneFrame, resolves.
  destruct (find _ GRADIENTS); simpl; congruence.
Qed.

Lemma renderFrame_spec onStage T scene n frame st w r w' :
  renderFrame onStage T scene n frame st w = (r, w') ->
  exists evs,
    trace w' = trace w ++ evs /\
    prefixOf evs (frameEvents T scene n frame (frameIndex st)) /\
    forall st', r = Ok st' ->
      evs = frameEvents T scene n frame (frameIndex st) /\
      frameIndex st' = S (frameIndex st) /\
      writtenFiles st' = writtenFiles st ++ [frameFilename (frameIndex st)] /\
      resolves scene.
Proof.
  unfold renderFrame, frameEvents.
  destruct (renderSceneFrame scene (frameProgress n frame) (context st))
    as [[[]|e] c'] eqn:R.
  - destruct (canvasToUint8 c') as [pixels|e].
    + unfold bind, call, report, ret, logged. cbn [trace encoder ui].
      destruct (writeFile (frameFilename (frameIndex st)) pixels (encoder w))
        as [[[]|e] e'] eqn:W; intro H; inversion H; subst; clear H; cbn [trace].
      * eexists. split; [rewrite <- !app_assoc; reflexivity|].
        split; [apply prefixOf_refl|].
        intros st' Eq. inversion Eq. subst. cbn [frameIndex writtenFiles].
        repeat split.
        apply (renderSceneFrame_ok scene (frameProgress n frame) (context st)).
        now rewrite R.
      * exists [EvRender scene (frameProgress n frame);
                EvWrite (frameFilename (frameIndex st))].
        split; [rewrite <- !app_assoc; reflexivity|].
        split; [|discriminate]. eexists. reflexivity.
    + intro H. inversion H. subst. unfold logged. cbn [trace].
      eexists. split; [reflexivity|].
      split; [|discriminate]. eexists. reflexivity.
  - intro H. inversion H. subst. unfold logged. cbn [trace].
    eexists. split; [reflexivity|].
    split; [|discriminate]. eexists. reflexivity.
Qed.

Lemma frameLoop_spec onStage T scene n frameNumbers : forall st w r w',
  frameLoop onStage T scene n frameNumbers st w = (r, w') ->
  exists evs,
    trace w' = trace w ++ evs /\
    prefixOf evs (framesEvents T scene n frameNumbers (frameIndex st)) /\
    forall st', r = Ok st' ->
      evs = framesEvents T scene n frameNumbers (frameIndex st) /\
      frameIndex st' = (frameIndex st + List.length frameNumbers)%nat /\
      writtenFiles st' =
        writtenFiles st ++ map frameFilename (seq (frameIndex st) (List.length frameNumbers)) /\
      (frameNumbers <> [] -> resolves scene).
Proof.
  induction frameNumbers as [|frame more IH]; intros st w r w' H.
  - simpl in H. unfold ret in H. inversion H. subst. exists []. simpl.
    split; [now rewrite app_nil_r|]. split; [apply prefixOf_refl|].
    intros st' Eq. inversion Eq. subst. rewrite app_nil_r, Nat.add_0_r. tauto.
  - simpl in H. unfold bind in H.
    destruct (renderFrame onStage T scene n frame st w) as [[st1|e] w1] eqn:F.
    + destruct (renderFrame_spec _ _ _ _ _ _ _ _ _ F) as [evs1 [T1 [_ K1]]].
      destruct (K1 st1 eq_refl) as [E1 [I1 [W1 G1]]].
      destruct (IH _ _ _ _ H) as [evs2 [T2 [P2 K2]]].
      exists (evs1 ++ evs2). split; [now rewrite T2, T1, app_assoc|].
      rewrite I1 in *. cbn [framesEvents]. split.
      * rewrite E1. now apply prefixOf_app_l.
      * intros st' Eq. destruct (K2 st' Eq) as [E2 [I2 [W2 _]]].
        rewrite E1, E2, I2, W2, W1, <- app_assoc. cbn [List.length seq map app].
        repeat split; try lia. intros _. exact G1.
    + inversion H. subst.
      destruct (renderFrame_spec _ _ _ _ _ _ _ _ _ F) as [evs1 [T1 [P1 _]]].
      exists evs1. split; [exact T1|]. split; [|discriminate].
      cbn [framesEvents]. now apply prefixOf_app_r.
Qed.

Lemma sceneFrameCount_positive scene : (1 <= sceneFrameCount scene)%nat.
Proof. unfold sceneFrameCount, framesFor, Math_maxZ. lia. Qed.

Lemma sceneLoop_spec onStage T scenes : forall st w r w',
  sceneLoop onStage T scenes st w = (r, w') ->
  exists evs,
    trace w' = trace w ++ evs /\
    prefixOf evs (stageEvents T scenes (frameIndex st)) /\
    forall st', r = Ok st' ->
      evs = stageEvents T scenes (frameIndex st) /\
      frameIndex st' = (frameIndex st + totalFrameCount scenes)%nat /\
      writtenFiles st' =
        writtenFiles st ++ map frameFilename (seq (frameIndex st) (totalFrameCount scenes)) /\
      Forall resolves scenes.
Proof.
  induction scenes as [|scene more IH]; intros st w r w' H.
  - simpl in H. unfold ret in H. inversion H. subst. exists []. simpl.
    split; [now rewrite app_nil_r|]. split; [apply prefixOf_refl|].
    intros st' Eq. inversion Eq. subst. rewrite app_nil_r, Nat.add_0_r. auto.
  - simpl in H. unfold bind in H.
    destruct (frameLoop onStage T scene (framesFor (duration scene))
                (seq 0 (Z.to_nat (framesFor (duration scene)))) st w)
      as [[st1|e] w1] eqn:F.
    + destruct (frameLoop_spec _ _ _ _ _ _ _ _ _ F) as [evs1 [T1 [_ K1]]].
      destruct (K1 st1 eq_refl) as [E1 [I1 [W1 G1]]].
      rewrite length_seq in *. fold (sceneFrameCount scene) in *.
      destruct (IH _ _ _ _ H) as [evs2 [T2 [P2 K2]]].
      exists (evs1 ++ evs2). split; [now rewrite T2, T1, app_assoc|].
      rewrite I1 in *. cbn [stageEvents].
      change (totalFrameCount (scene :: more))
        with (sceneFrameCount scene + totalFrameCount more)%nat.
      split.
      * rewrite E1. now apply prefixOf_app_l.
      * intros st' Eq. destruct (K2 st' Eq) as [E2 [I2 [W2 G2]]].
        split; [now rewrite E1, E2|]. split; [lia|]. split.
        -- now rewrite W2, W1, <- app_assoc, seq_app, map_app.
        -- constructor; [|exact G2].
           apply G1. pose proof (sceneFrameCount_positive scene).
           destruct (sceneFrameCount scene); simpl; [lia|discriminate].
    + inversion H. subst.
      destruct (frameLoop_spec _ _ _ _ _ _ _ _ _ F) as [evs1 [T1 [P1 _]]].
      exists evs1. split; [exact T1|]. split; [|discriminate].
      cbn [stageEvents]. now apply prefixOf_app_r.
Qed.

Lemma cleanupFiles_trace files : forall w,
  exists w', cleanupFiles files w = (Ok tt, w') /\
             trace w' = trace w ++ map EvDelete files /\ ui w' = ui w.
Proof.
  induction files as [|file more IH]; intro w; cbn [cleanupFiles].
  - exists w. unfold ret. cbn [map]. now rewrite app_nil_r.
  - unfold bind, ignoring, call.
    destruct (deleteFile file (encoder w)) as [r e'].
    destruct (IH (mkWorld e' (trace w ++ [EvDelete file]) (ui w))) as [w' [R [T U]]].
    exists w'. split; [exact R|]. split; [|exact U].
    rewrite T. cbn [trace map]. now rewrite <- app_assoc.
Qed.

Lemma cleanupFfmpeg_trace files w :
  exists w', cleanupFfmpeg files w = (Ok tt, w') /\
             trace w' = trace w ++ cleanupEvents files /\ ui w' = ui w.
Proof.
  unfold cleanupFfmpeg, bind.
  destruct (cleanupFiles_trace files w) as [w1 [R [T U]]]. rewrite R.
  unfold ignoring, call. destruct (deleteFile "output.mp4" (encoder w1)) as [r e'].
  eexists. split; [reflexivity|]. cbn [trace ui]. split; [|exact U].
  unfold cleanupEvents. now rewrite T, app_assoc.
Qed.

Lemma muxAndRead_trace onStage w r w' :
  muxAndRead onStage w = (r, w') ->
  exists evs,
    trace w' = trace w ++ evs /\ prefixOf evs muxEvents /\
    (forall data, r = Ok data -> evs = muxEvents /\ data <> None).
Proof.
  unfold muxAndRead, muxEvents, bind, call, report, throw, ret. cbn [trace encoder ui].
  destruct (exec execArgs (encoder w)) as [[[]|e] e1]; cbn [trace encoder ui].
  - destruct (readFile "output.mp4" e1) as [[[bytes|text]|e] e2];
      intro H; inversion H; subst; clear H; cbn [trace].
    + eexists. split; [rewrite <- !app_assoc; reflexivity|].
      split; [apply prefixOf_refl|].
      intros data Eq. inversion Eq. split; [reflexivity|discriminate].
    + exists [EvExec execArgs; EvStage muxing 0.9; EvRead "output.mp4"].
      split; [rewrite <- !app_assoc; reflexivity|].
      split; [eexists; reflexivity|discriminate].
    + exists [EvExec execArgs; EvStage muxing 0.9; EvRead "output.mp4"].
      split; [rewrite <- !app_assoc; reflexivity|].
      split; [eexists; reflexivity|discriminate].
  - intro H; inversion H; subst; clear H; cbn [trace].
    exists [EvExec execArgs]. split; [reflexivity|].
    split; [eexists; reflexivity|discriminate].
Qed.

Lemma synthesizeVideo_trace scenes options w r w' :
  synthesizeVideo scenes options w = (r, w') ->
  exists before stage after,
    trace w' = trace w ++ before ++ stage ++ after /\
    prefixOf before loadEvents /\
    prefixOf stage (stageEvents (totalFramesOf scenes) scenes 0) /\
    (after = [] \/
     stage = stageEvents (totalFramesOf scenes) scenes 0 /\
     Forall resolves scenes /\
     exists mux,
       prefixOf mux muxEvents /\
       (mux = muxEvents \/ exists e, r = Throw e) /\
       after = [EvStage muxing 0.1] ++ mux
                 ++ cleanupEvents (map frameFilename (seq 0 (totalFrameCount scenes))) /\
       exists wm,
         cleanupFfmpeg (map frameFilename (seq 0 (totalFrameCount scenes))) wm
           = (Ok tt, w')) /\
    (forall blob, r = Ok blob ->
       stage = stageEvents (totalFramesOf scenes) scenes 0 /\
       after = [EvStage muxing 0.1] ++ muxEvents
                 ++ cleanupEvents (map frameFilename (seq 0 (totalFrameCount scenes))) /\
       Forall resolves scenes).
Proof.
  unfold synthesizeVideo.
  destruct (List.length scenes =? 0)%nat eqn:Empty.
  { unfold throw. intro H. inversion H. subst.
    exists [], [], []. rewrite !app_nil_r.
    split; [reflexivity|]. split; [now eexists|]. split; [now eexists|].
    split; [now left|discriminate]. }
  set (onStage := match options with Some f => f | None => fun _ _ u => u end).
  fold (totalFramesOf scenes).
  unfold loadEncoder, bind at 1 2 3, report at 1 2, call. cbn [trace encoder ui].
  destruct (getFFmpeg (encoder w)) as [[[]|e] e0].
  2:{ intro H. inversion H. subst. cbn [trace].
      exists [EvStage loading 0.1; EvLoad], [], []. rewrite !app_nil_r.
      split; [now rewrite <- app_assoc|]. split; [now eexists|]. split; [now eexists|].
      split; [now left|discriminate]. }
  cbn [trace encoder ui].
  destruct supports2d; cbn [negb].
  2:{ unfold throw. intro H. inversion H. subst. cbn [trace].
      exists loadEvents, [], []. rewrite !app_nil_r.
      split; [unfold loadEvents; now rewrite <- !app_assoc|].
      split; [apply prefixOf_refl|]. split; [now eexists|].
      split; [now left|discriminate]. }
  unfold bind at 1.
  match goal with
  | |- context [sceneLoop ?o ?t ?s ?st ?w0] =>
      destruct (sceneLoop o t s st w0) as [[st1|e] w1] eqn:Loop
  end.
  2:{ intro H. inversion H. subst.
      destruct (sceneLoop_spec _ _ _ _ _ _ _ Loop) as [evs [T [P _]]].
      cbn [trace frameIndex] in *.
      exists loadEvents, evs, []. rewrite !app_nil_r.
      split; [rewrite T; unfold loadEvents; now rewrite <- !app_assoc|].
      split; [apply prefixOf_refl|]. split; [exact P|].
      split; [now left|discriminate]. }
  destruct (sceneLoop_spec _ _ _ _ _ _ _ Loop) as [evs [T [_ K]]].
  destruct (K st1 eq_refl) as [Ev [_ [Wr Res]]].
  cbn [trace frameIndex writtenFiles app] in *.
  unfold bind, report, tryFinally. cbn [trace encoder ui].
  match goal with
  | |- context [muxAndRead ?o ?w0] =>
      destruct (muxAndRead o w0) as [rm wm] eqn:Mux
  end.
  destruct (muxAndRead_trace _ _ _ _ Mux) as [mux [Tm [Pm Km]]].
  destruct (cleanupFfmpeg_trace (writtenFiles st1) wm) as [wc [Rc [Tc _]]].
  rewrite Rc. cbn [trace] in Tm.
  assert (Full : trace wc =
            trace w ++ loadEvents ++ evs ++
              ([EvStage muxing 0.1] ++ mux
                 ++ cleanupEvents (map frameFilename (seq 0 (totalFrameCount scenes))))).
  { rewrite Tc, Tm, T, Wr. unfold loadEvents. now rewrite <- !app_assoc. }
  intro H.
  assert (W' : w' = wc /\ (forall blob, r = Ok blob -> exists d, rm = Ok (Some d))).
  { destruct rm as [[d|]|e]; unfold ret, throw in H; inversion H; subst;
      (split; [reflexivity|]); intros blob Eq; try discriminate. eauto. }
  destruct W' as [-> Okay].
  exists loadEvents, evs,
    ([EvStage muxing 0.1] ++ mux
       ++ cleanupEvents (map frameFilename (seq 0 (totalFrameCount scenes)))).
  split; [exact Full|]. split; [apply prefixOf_refl|].
  split; [rewrite Ev; apply prefixOf_refl|]. split.
  - right. split; [exact Ev|]. split; [exact Res|]. exists mux.
    split; [exact Pm|]. split; [|split; [reflexivity|]].
    + destruct r as [blob|e]; [|right; eauto].
      left. destruct (Okay blob eq_refl) as [d Rm]. now destruct (Km _ Rm).
    + exists wm. rewrite Wr in Rc. exact Rc.
  - intros blob Eq. destruct (Okay blob Eq) as [d Rm].
    destruct (Km _ Rm) as [-> _]. now repeat split.
Qed.
End OrchestratorFacts.

(** ** Frame file names *)

Lemma string_length_app (a b : string) :
  String.length (a ++ b) = (String.length a + String.length b)%nat.
Proof. induction a as [|c a IH]; simpl; [reflexivity|now rewrite IH]. Qed.

Lemma length_repeat_char c n : String.length (repeat_char c n) = n.
Proof. induction n as [|n IH]; simpl; [reflexivity|now rewrite IH]. Qed.

Lemma length_padStart width c s :
  String.length (padStart width c s) = Nat.max width (String.length s).
Proof. unfold padStart. rewrite string_length_app, length_repeat_char. lia. Qed.

Lemma length_string_of_uint d :
  String.length (NilEmpty.string_of_uint d) = nb_digits d.
Proof. induction d; simpl; congruence. Qed.

Lemma to_lu_next_digit q r :
  q <> 0%nat -> (r < 10)%nat ->
  nb_digits (DecimalNat.Unsigned.to_lu (r + 10 * q)) = S (nb_digits (DecimalNat.Unsigned.to_lu q)).
Proof.
  intros Q R.
  pose proof (DecimalNat.Unsigned.to_lu_tenfold q Q) as T.
  remember (10 * q)%nat as t eqn:Et.
  do 10 (destruct r as [|r]; [cbn [Nat.add DecimalNat.Unsigned.to_lu]; rewrite T; reflexivity|]).
  lia.
Qed.

Lemma to_lu_one_digit r : (r < 10)%nat -> nb_digits (DecimalNat.Unsigned.to_lu r) = 1%nat.
Proof.
  intro R. do 10 (destruct r as [|r]; [reflexivity|]). lia.
Qed.

Lemma nb_digits_to_lu_bound m : forall n,
  (n < 10 ^ S m)%nat -> (nb_digits (DecimalNat.Unsigned.to_lu n) <= S m)%nat.
Proof.
  induction m as [|m IH]; intros n B.
  - rewrite to_lu_one_digit; [lia|]. simpl in B. lia.
  - pose proof (Nat.div_mod_eq n 10) as D.
    pose proof (Nat.mod_upper_bound n 10) as U.
    destruct (Nat.eq_dec (n / 10) 0) as [Z|NZ].
    + rewrite to_lu_one_digit; lia.
    + replace n with (n mod 10 + 10 * (n / 10))%nat by lia.
      rewrite to_lu_next_digit by lia.
      apply le_n_S. apply IH.
      apply Nat.Div0.div_lt_upper_bound. rewrite Nat.pow_succ_r' in B. lia.
Qed.

Lemma String_of_nat_length k :
  (k < 10 ^ 5)%nat -> (String.length (String_of_nat k) <= 5)%nat.
Proof.
  intro B. unfold String_of_nat.
  rewrite length_string_of_uint, DecimalNat.Unsigned.to_uint_alt, DecimalFacts.nb_digits_rev.
  apply (nb_digits_to_lu_bound 4). exact B.
Qed.

Lemma parse_leading_zero s : parseDigits (String "0" s) = parseDigits s.
Proof.
  unfold parseDigits. cbn [NilEmpty.uint_of_string].
  destruct (NilEmpty.uint_of_string s) as [d|]; [|reflexivity].
  reflexivity.
Qed.

Lemma parse_zeros n s :
  parseDigits (repeat_char "0" n ++ s) = parseDigits s.
Proof.
  induction n as [|n IH]; [reflexivity|].
  cbn [repeat_char String.append]. now rewrite parse_leading_zero.
Qed.

Lemma parse_padded k : parseDigits (padStart 5 "0" (String_of_nat k)) = Some k.
Proof.
  unfold padStart. rewrite parse_zeros. unfold parseDigits, String_of_nat.
  rewrite NilEmpty.usu. simpl. now rewrite DecimalNat.Unsigned.of_to.
Qed.

Lemma string_app_inv_tail (a b t : string) : (a ++ t = b ++ t)%string -> a = b.
Proof.
  intro H.
  assert (L : String.length a = String.length b).
  { apply (f_equal String.length) in H. rewrite !string_length_app in H. lia. }
  revert b H L. induction a as [|c a IH]; intros [|c' b] H L; simpl in *;
    try discriminate; [reflexivity|].
  inversion H. f_equal. apply IH; [assumption|lia].
Qed.

Lemma frameFilename_injective i j : frameFilename i = frameFilename j -> i = j.
Proof.
  unfold frameFilename. intro H.
  cbn [String.append] in H. repeat (injection H as H).
  apply string_app_inv_tail in H.
  apply (f_equal parseDigits) in H. rewrite !parse_padded in H. congruence.
Qed.

Lemma frameFilename_first : frameFilename 0 = "frame_00000.png"%string.
Proof. reflexivity. Qed.

Lemma nameOfDigits_to_lu n : nameOfDigits (DecimalNat.Unsigned.to_lu n) = frameFilename n.
Proof.
  unfold nameOfDigits, frameFilename, String_of_nat.
  now rewrite DecimalNat.Unsigned.to_uint_alt.
Qed.

Lemma namesAscend_sound count : forall n,
  namesAscend count (DecimalNat.Unsigned.to_lu n) = true ->
  forall k, (k < count)%nat ->
    String.ltb (frameFilename (n + k)) (frameFilename (S (n + k))) = true.
Proof.
  induction count as [|count IH]; intros n H k K; [lia|].
  cbn [namesAscend] in H.
  destruct (String.ltb (nameOfDigits (DecimalNat.Unsigned.to_lu n))
                       (nameOfDigits (Little.succ (DecimalNat.Unsigned.to_lu n)))) eqn:L;
    [|discriminate].
  change (Little.succ (DecimalNat.Unsigned.to_lu n))
    with (DecimalNat.Unsigned.to_lu (S n)) in *.
  destruct k as [|k].
  - rewrite Nat.add_0_r. now rewrite !nameOfDigits_to_lu in L.
  - replace (n + S k)%nat with (S n + k)%nat by lia. apply IH; [exact H|lia].
Qed.

Lemma ascii_compare_lt_trans a b c :
  Ascii.compare a b = Lt -> Ascii.compare b c = Lt -> Ascii.compare a c = Lt.
Proof.
  unfold Ascii.compare. rewrite !N.compare_lt_iff. lia.
Qed.

Lemma string_compare_lt_trans : forall s1 s2 s3,
  String.compare s1 s2 = Lt -> String.compare s2 s3 = Lt -> String.compare s1 s3 = Lt.
Proof.
  induction s1 as [|a s1 IH]; intros [|b s2] [|c s3]; simpl; try discriminate; auto.
  destruct (Ascii.compare a b) eqn:AB; try discriminate;
    destruct (Ascii.compare b c) eqn:BC; try discriminate; intros H1 H2.
  - apply Ascii.compare_eq_iff in AB, BC. subst.
    unfold Ascii.compare. rewrite N.compare_refl. eauto.
  - apply Ascii.compare_eq_iff in AB. subst. now rewrite BC.
  - apply Ascii.compare_eq_iff in BC. subst. now rewrite AB.
  - now rewrite (ascii_compare_lt_trans a b c AB BC).
Qed.

Lemma string_ltb_trans s1 s2 s3 :
  String.ltb s1 s2 = true -> String.ltb s2 s3 = true -> String.ltb s1 s3 = true.
Proof.
  unfold String.ltb.
  destruct (String.compare s1 s2) eqn:A; try discriminate.
  destruct (String.compare s2 s3) eqn:B; try discriminate.
  now rewrite (string_compare_lt_trans _ _ _ A B).
Qed.

Lemma names_ascend_five_digits :
  namesAscend (10 ^ 5 - 1) (DecimalNat.Unsigned.to_lu 0) = true.
Proof. vm_compute. reflexivity. Qed.

Lemma frameFilename_next i :
  (S i < 10 ^ 5)%nat -> String.ltb (frameFilename i) (frameFilename (S i)) = true.
Proof.
  intro B.
  apply (namesAscend_sound (10 ^ 5 - 1) 0 names_ascend_five_digits i). lia.
Qed.

Lemma frameFilename_increasing i j :
  (i < j)%nat -> (j < 10 ^ 5)%nat ->
  String.ltb (frameFilename i) (frameFilename j) = true.
Proof.
  intros L B. induction j as [|j IH]; [lia|].
  destruct (Nat.eq_dec i j) as [->|N].
  - now apply frameFilename_next.
  - apply string_ltb_trans with (frameFilename j).
    + apply IH; lia.
    + now apply frameFilename_next.
Qed.

(** ** Observations of the frame stage *)

Lemma prefixOf_nil {A} (l : list A) : prefixOf l [] -> l = [].
Proof. intros [rest H]. symmetry in H. now apply app_eq_nil in H. Qed.

Lemma prefixOf_flat_map {A B} (f : A -> list B) (l full : list A) :
  prefixOf l full -> prefixOf (flat_map f l) (flat_map f full).
Proof. intros [rest H]. exists (flat_map f rest). now rewrite H, flat_map_app. Qed.

Lemma prefixOf_map_seq {A} (f : nat -> A) (n : nat) : forall (a : nat) (l : list A),
  prefixOf l (map f (seq a n)) ->
  exists m, (m <= n)%nat /\ l = map f (seq a m).
Proof.
  induction n as [|n IH]; intros a l [rest H].
  - exists 0%nat. split; [lia|]. simpl in H. symmetry in H.
    now apply app_eq_nil in H.
  - destruct l as [|x l].
    + exists 0%nat. split; [lia|reflexivity].
    + simpl in H. inversion H as [[Hx Hl]].
      destruct (IH (S a) l) as [m [Le Eq]]; [now exists rest|].
      exists (S m). split; [lia|]. simpl. now rewrite <- Eq.
Qed.

Lemma writtenNames_framesEvents T scene n frameNumbers : forall index,
  writtenNames (framesEvents T scene n frameNumbers index) =
  map frameFilename (seq index (List.length frameNumbers)).
Proof.
  induction frameNumbers as [|frame more IH]; intro index; [reflexivity|].
  cbn [framesEvents]. unfold writtenNames in *. rewrite flat_map_app, IH. reflexivity.
Qed.

Lemma writtenNames_stageEvents T scenes : forall index,
  writtenNames (stageEvents T scenes index) =
  map frameFilename (seq index (totalFrameCount scenes)).
Proof.
  induction scenes as [|scene more IH]; intro index; [reflexivity|].
  cbn [stageEvents].
  change (totalFrameCount (scene :: more))
    with (sceneFrameCount scene + totalFrameCount more)%nat.
  unfold writtenNames in *. rewrite flat_map_app, IH.
  fold (writtenNames (framesEvents T scene (framesFor (duration scene))
                        (seq 0 (sceneFrameCount scene)) index)).
  now rewrite writtenNames_framesEvents, length_seq, seq_app, map_app.
Qed.

Lemma frameReports_framesEvents T scene n frameNumbers : forall index,
  stageReports frames (framesEvents T scene n frameNumbers index) =
  map (frameFraction T) (seq (S index) (List.length frameNumbers)).
Proof.
  induction frameNumbers as [|frame more IH]; intro index; [reflexivity|].
  cbn [framesEvents]. unfold stageReports in *. rewrite flat_map_app, IH. reflexivity.
Qed.

Lemma frameReports_stageEvents T scenes : forall index,
  stageReports frames (stageEvents T scenes index) =
  map (frameFraction T) (seq (S index) (totalFrameCount scenes)).
Proof.
  induction scenes as [|scene more IH]; intro index; [reflexivity|].
  cbn [stageEvents].
  change (totalFrameCount (scene :: more))
    with (sceneFrameCount scene + totalFrameCount more)%nat.
  unfold stageReports in *. rewrite flat_map_app, IH.
  fold (stageReports frames (framesEvents T scene (framesFor (duration scene))
                               (seq 0 (sceneFrameCount scene)) index)).
  rewrite frameReports_framesEvents, length_seq, seq_app, map_app.
  reflexivity.
Qed.

Lemma renderedFrames_framesEvents T scene n frameNumbers : forall index,
  renderedFrames (framesEvents T scene n frameNumbers index) =
  map (fun frame => (scene, frameProgress n frame)) frameNumbers.
Proof.
  induction frameNumbers as [|frame more IH]; intro index; [reflexivity|].
  cbn [framesEvents]. unfold renderedFrames in *. rewrite flat_map_app, IH. reflexivity.
Qed.

Lemma renderedFrames_stageEvents T scenes : forall index,
  renderedFrames (stageEvents T scenes index) = flat_map sceneFrames scenes.
Proof.
  induction scenes as [|scene more IH]; intro index; [reflexivity|].
  cbn [stageEvents flat_map]. unfold renderedFrames in *. rewrite flat_map_app, IH.
  fold (renderedFrames (framesEvents T scene (framesFor (duration scene))
                          (seq 0 (sceneFrameCount scene)) index)).
  now rewrite renderedFrames_framesEvents.
Qed.

Lemma muxReports_stageEvents T scenes : forall index,
  stageReports muxing (stageEvents T scenes index) = [].
Proof.
  assert (inner : forall scene n frameNumbers index,
            stageReports muxing (framesEvents T scene n frameNumbers index) = []).
  { intros scene n frameNumbers.
    induction frameNumbers as [|frame more IH]; intro index; [reflexivity|].
    cbn [framesEvents]. unfold stageReports in *. now rewrite flat_map_app, IH. }
  induction scenes as [|scene more IH]; intro index; [reflexivity|].
  cbn [stageEvents]. unfold stageReports in *.
  rewrite flat_map_app, IH, app_nil_r. apply inner.
Qed.

Lemma outside_frame_stage (before after : list Event) scenes :
  prefixOf before loadEvents ->
  (after = [] \/
   exists mux, prefixOf mux muxEvents /\
               after = [EvStage muxing 0.1] ++ mux
                         ++ cleanupEvents (map frameFilename (seq 0 (totalFrameCount scenes)))) ->
  (writtenNames before = [] /\ renderedFrames before = [] /\
   stageReports frames before = []) /\
  (writtenNames after = [] /\ renderedFrames after = [] /\
   stageReports frames after = []).
Proof.
  intros B A. split.
  - repeat split; apply prefixOf_nil;
      [ change [] with (writtenNames loadEvents)
      | change [] with (renderedFrames loadEvents)
      | change [] with (stageReports frames loadEvents) ];
      now apply prefixOf_flat_map.
  - destruct A as [->|[mux [P ->]]]; [now repeat split|].
    assert (D : forall {B} (f : Event -> list B) files,
              (forall name, f (EvDelete name) = []) ->
              flat_map f (cleanupEvents files) = []).
    { intros B0 f files Z. unfold cleanupEvents. rewrite flat_map_app. simpl.
      rewrite Z, app_nil_r. induction files as [|x xs IH]; simpl; [reflexivity|].
      now rewrite Z. }
    assert (Mw : writtenNames mux = []).
    { apply prefixOf_nil. change [] with (writtenNames muxEvents).
      now apply prefixOf_flat_map. }
    assert (Mr : renderedFrames mux = []).
    { apply prefixOf_nil. change [] with (renderedFrames muxEvents).
      now apply prefixOf_flat_map. }
    assert (Ms : stageReports frames mux = []).
    { apply prefixOf_nil. change [] with (stageReports frames muxEvents).
      now apply prefixOf_flat_map. }
    unfold writtenNames, renderedFrames, stageReports in *.
    rewrite !flat_map_app, Mw, Mr, Ms, !D by reflexivity. now repeat split.
Qed.

Section Runs.
Context {host : Host} {E : Type} {enc : Encoder E}.

(** What every run of [synthesizeVideo] shows of its frame stage: the frames
    rendered, the names written and the fractions reported are those of the
    first [n] frames of the timeline, all of them when the run returns. *)
Lemma synthesizeVideo_frame_stage scenes options w r w' :
  synthesizeVideo scenes options w = (r, w') ->
  exists written reported,
    (written <= totalFrameCount scenes)%nat /\
    (reported <= totalFrameCount scenes)%nat /\
    writtenNames (trace w') =
      writtenNames (trace w) ++ map frameFilename (seq 0 written) /\
    stageReports frames (trace w') =
      stageReports frames (trace w)
        ++ map (frameFraction (totalFramesOf scenes)) (seq 1 reported) /\
    prefixOf (renderedFrames (trace w'))
             (renderedFrames (trace w) ++ flat_map sceneFrames scenes) /\
    (forall blob, r = Ok blob ->
       written = totalFrameCount scenes /\
       reported = totalFrameCount scenes /\
       renderedFrames (trace w') =
         renderedFrames (trace w) ++ flat_map sceneFrames scenes).
Proof.
  intro H.
  destruct (synthesizeVideo_trace _ _ _ _ _ H)
    as [before [stage [after [T [Pb [Ps [Pa K]]]]]]].
  assert (Pa' : after = [] \/
                exists mux, prefixOf mux muxEvents /\
                  after = [EvStage muxing 0.1] ++ mux
                    ++ cleanupEvents (map frameFilename (seq 0 (totalFrameCount scenes)))).
  { destruct Pa as [->|[_ [_ [mux [P [_ [-> _]]]]]]]; [now left|right; eauto]. }
  destruct (outside_frame_stage before after scenes Pb Pa')
    as [[Bw [Br Bs]] [Aw [Ar As]]].
  pose proof (prefixOf_flat_map
                (fun ev => match ev with EvWrite name => [name] | _ => [] end)
                _ _ Ps) as Pw.
  change (prefixOf (writtenNames stage)
            (writtenNames (stageEvents (totalFramesOf scenes) scenes 0))) in Pw.
  rewrite writtenNames_stageEvents in Pw.
  destruct (prefixOf_map_seq _ _ _ _ Pw) as [nw [Lw Wn]].
  pose proof (prefixOf_flat_map
                (fun ev => match ev with EvStage frames p => [p] | _ => [] end)
                _ _ Ps) as Pf.
  change (prefixOf (stageReports frames stage)
            (stageReports frames (stageEvents (totalFramesOf scenes) scenes 0))) in Pf.
  rewrite frameReports_stageEvents in Pf.
  destruct (prefixOf_map_seq _ _ _ _ Pf) as [ns [Ls Sn]].
  exists nw, ns. split; [exact Lw|]. split; [exact Ls|].
  unfold writtenNames, stageReports, renderedFrames in *.
  rewrite T, !flat_map_app, Bw, Br, Bs, Aw, Ar, As, Wn, Sn, !app_nil_r.
  cbn [app]. split; [reflexivity|]. split; [reflexivity|]. split.
  - apply prefixOf_app_l.
    pose proof (prefixOf_flat_map
                (fun ev => match ev with EvRender s p => [(s, p)] | _ => [] end)
                _ _ Ps) as Pr.
    fold (renderedFrames (stageEvents (totalFramesOf scenes) scenes 0)) in Pr.
    now rewrite renderedFrames_stageEvents in Pr.
  - intros blob Eq. destruct (K blob Eq) as [-> _].
    fold (renderedFrames (stageEvents (totalFramesOf scenes) scenes 0)).
    rewrite renderedFrames_stageEvents.
    fold (writtenNames (stageEvents (totalFramesOf scenes) scenes 0)) in Wn.
    rewrite writtenNames_stageEvents in Wn.
    apply (f_equal (@List.length string)) in Wn.
    rewrite !length_map, !length_seq in Wn.
    fold (stageReports frames (stageEvents (totalFramesOf scenes) scenes 0)) in Sn.
    rewrite frameReports_stageEvents in Sn.
    apply (f_equal (@List.length Q)) in Sn.
    rewrite !length_map, !length_seq in Sn.
    repeat split; lia.
Qed.
End Runs.

(** ** Frame counts and progress *)

Lemma framesFor_integer (d : Q) (k : Z) :
  d * inject_Z FPS == inject_Z k -> (1 <= k)%Z -> framesFor d = k.
Proof.
  intros H K. unfold framesFor, Math_maxZ. rewrite (Math_round_integer _ k H). lia.
Qed.

Lemma frameFraction_nondecreasing T a n :
  (1 <= T)%Z -> nondecreasing (map (frameFraction T) (seq a n)).
Proof.
  intro Pos. revert a. induction n as [|n IH]; intro a; [exact I|].
  cbn [seq map nondecreasing]. destruct n as [|n]; [exact I|].
  split; [|apply (IH (S a))].
  cbn [seq map]. unfold frameFraction.
  assert (P : 0 < inject_Z T) by (change 0 with (inject_Z 0); rewrite <- Zlt_Qlt; lia).
  apply Qmult_le_compat_r.
  - rewrite <- Zle_Qle. lia.
  - apply Qlt_le_weak. now apply Qinv_lt_0_compat.
Qed.

Lemma totalFramesOf_positive scenes : (1 <= totalFramesOf scenes)%Z.
Proof. unfold totalFramesOf, Math_maxZ. lia. Qed.

Lemma totalFrameCount_snoc l s :
  totalFrameCount (l ++ [s]) = (totalFrameCount l + sceneFrameCount s)%nat.
Proof.
  unfold totalFrameCount. induction l as [|x l IH]; simpl; [lia|].
  rewrite IH. lia.
Qed.

Lemma whole_frames_total scenes :
  scenes <> [] -> Forall wholeFrames scenes ->
  totalFramesOf scenes = Z.of_nat (totalFrameCount scenes).
Proof.
  intros NE F.
  assert (G : forall l, Forall wholeFrames l ->
            totalDurationForScenes l * inject_Z FPS
              == inject_Z (Z.of_nat (totalFrameCount l)) /\
            (l <> [] -> (1 <= Z.of_nat (totalFrameCount l))%Z)).
  { induction l as [|s l IH] using rev_ind; intro Fl.
    - split; [reflexivity|congruence].
    - apply Forall_app in Fl. destruct Fl as [Fl Fs].
      inversion Fs as [|? ? [k [K1 K2]] _]; subst.
      destruct (IH Fl) as [IH1 _].
      assert (C : totalFrameCount (l ++ [s]) = (totalFrameCount l + Z.to_nat k)%nat).
      { rewrite totalFrameCount_snoc. unfold sceneFrameCount.
        now rewrite (framesFor_integer _ k K2 K1). }
      split.
      + unfold totalDurationForScenes in *. rewrite fold_left_app. simpl.
        rewrite C, Nat2Z.inj_add, inject_Z_plus, Z2Nat.id by lia.
        rewrite <- IH1, <- K2. ring.
      + intros _. rewrite C. lia. }
  destruct (G scenes F) as [G1 G2].
  unfold totalFramesOf, Math_maxZ.
  rewrite (Math_round_integer _ _ G1). specialize (G2 NE). lia.
Qed.

Section Attempt.
Context {host : Host} {E : Type} {enc : Encoder E}.

(** Supporting C1: what holds of the frames-stage reports in every run. *)
Lemma frames_progress_nondecreasing scenes options w r w' :
  synthesizeVideo scenes options w = (r, w') ->
  exists reported,
    (reported <= totalFrameCount scenes)%nat /\
    stageReports frames (trace w') =
      stageReports frames (trace w)
        ++ map (frameFraction (totalFramesOf scenes)) (seq 1 reported) /\
    nondecreasing (map (frameFraction (totalFramesOf scenes)) (seq 1 reported)) /\
    (forall blob, r = Ok blob -> reported = totalFrameCount scenes) /\
    (Forall wholeFrames scenes -> scenes <> [] ->
     frameFraction (totalFramesOf scenes) (totalFrameCount scenes) == 1).
Proof.
  intro H.
  destruct (synthesizeVideo_frame_stage _ _ _ _ _ H)
    as [nw [ns [_ [Ls [_ [Sn [_ K]]]]]]].
  exists ns. split; [exact Ls|]. split; [exact Sn|]. split.
  - apply frameFraction_nondecreasing. apply totalFramesOf_positive.
  - split.
    + intros blob Eq. now destruct (K blob Eq) as [_ [-> _]].
    + intros F NE. unfold frameFraction. rewrite (whole_frames_total scenes NE F).
      field. change 0 with (inject_Z 0). rewrite inject_Z_injective.
      pose proof (totalFramesOf_positive scenes) as P.
      rewrite (whole_frames_total scenes NE F) in P. lia.
Qed.


(** C8. An empty scene list is rejected before any work: [synthesizeVideo]
    throws the validation error and leaves the world as it was, so the
    encoder is not loaded, nothing is written and no stage is reported. *)
Theorem empty_scene_list_rejected (options : option OnStage) (w : World E) :
  synthesizeVideo [] options w =
    (Throw (Error "Add at least one scene before rendering."), w) /\
  trace (snd (synthesizeVideo [] options w)) = trace w /\
  encoder (snd (synthesizeVideo [] options w)) = encoder w /\
  ui (snd (synthesizeVideo [] options w)) = ui w.
Proof. repeat split. Qed.

(** C7. The names handed to [writeFile] during an attempt are, in order,
    [frameFilename 0], [frameFilename 1], ... with no gap: one global index
    across all scenes.  A run that returns has written one name per frame of
    every scene.  The name of index [k] is [frame_], the decimal digits of
    [k] padded with zeros to five characters, and [.png]; the first one is
    [frame_00000.png], distinct indices give distinct names, and below
    100000 a later index gives a greater name in the order of strings. *)
Theorem frame_files_named_in_sequence (scenes : list Scene)
    (options : option OnStage) (w : World E) :
  (exists written,
      (written <= totalFrameCount scenes)%nat /\
      writtenNames (trace (snd (synthesizeVideo scenes options w))) =
        writtenNames (trace w) ++ map frameFilename (seq 0 written) /\
      (forall blob,
          fst (synthesizeVideo scenes options w) = Ok blob ->
          written = totalFrameCount scenes)) /\
  totalFrameCount scenes =
    list_sum (map (fun scene => Z.to_nat (framesFor (duration scene))) scenes) /\
  frameFilename 0 = "frame_00000.png"%string /\
  (forall k,
      exists digits,
        frameFilename k = ("frame_" ++ digits ++ ".png")%string /\
        parseDigits digits = Some k /\
        ((k < 10 ^ 5)%nat -> String.length digits = 5%nat)) /\
  (forall i j, frameFilename i = frameFilename j -> i = j) /\
  (forall i j,
      (i < j)%nat -> (j < 10 ^ 5)%nat ->
      String.ltb (frameFilename i) (frameFilename j) = true).
Proof.
  split; [|split; [|split; [|split; [|split]]]].
  - destruct (synthesizeVideo scenes options w) as [r w'] eqn:H.
    destruct (synthesizeVideo_frame_stage _ _ _ _ _ H)
      as [nw [ns [Lw [_ [Wn [_ [_ K]]]]]]].
    exists nw. cbn [fst snd]. split; [exact Lw|]. split; [exact Wn|].
    intros blob Eq. now destruct (K blob Eq).
  - unfold totalFrameCount. induction scenes as [|s l IH]; [reflexivity|].
    cbn [fold_right map list_sum]. now rewrite IH.
  - reflexivity.
  - intro k. exists (padStart 5 "0" (String_of_nat k)).
    split; [reflexivity|]. split; [apply parse_padded|].
    intro B. rewrite length_padStart.
    pose proof (String_of_nat_length k B). lia.
  - apply frameFilename_injective.
  - apply frameFilename_increasing.
Qed.

(** C3. The frames rendered in a run that returns are, scene after scene,
    the frames of each scene, and a scene has max(1, round(duration * 24))
    of them.  Duration 2 gives 48 frames and duration 8 gives 192; durations
    4, 3.5 and 3 give 96, 84 and 72 frames, a total duration of 10.5 and 252
    frames in total. *)
Theorem frames_per_scene :
  (forall scenes options (w : World E) blob,
      fst (synthesizeVideo scenes options w) = Ok blob ->
      renderedFrames (trace (snd (synthesizeVideo scenes options w))) =
        renderedFrames (trace w) ++ flat_map sceneFrames scenes) /\
  (forall scene,
      List.length (sceneFrames scene) =
        Z.to_nat (Z.max 1 (Math_round (duration scene * 24))) /\
      Forall (fun rendered => fst rendered = scene) (sceneFrames scene)) /\
  (forall d, d == 2 -> framesFor d = 48%Z) /\
  (forall d, d == 8 -> framesFor d = 192%Z) /\
  (forall s1 s2 s3,
      duration s1 == 4 -> duration s2 == 3.5 -> duration s3 == 3 ->
      map (fun scene => framesFor (duration scene)) [s1; s2; s3]
        = [96; 84; 72]%Z /\
      totalDurationForScenes [s1; s2; s3] == 10.5 /\
      totalFrameCount [s1; s2; s3] = 252%nat /\
      totalFramesOf [s1; s2; s3] = 252%Z).
Proof.
  split; [|split; [|split; [|split]]].
  - intros scenes options w blob Eq.
    destruct (synthesizeVideo scenes options w) as [r w'] eqn:H.
    cbn [fst snd] in *.
    destruct (synthesizeVideo_frame_stage _ _ _ _ _ H)
      as [nw [ns [_ [_ [_ [_ [_ K]]]]]]].
    now destruct (K blob Eq) as [_ [_ R]].
  - intro scene. unfold sceneFrames. split.
    + rewrite length_map, length_seq. reflexivity.
    + apply Forall_forall. intros x I. apply in_map_iff in I.
      destruct I as [frame [<- _]]. reflexivity.
  - intros d D. apply framesFor_integer; [rewrite D; reflexivity|lia].
  - intros d D. apply framesFor_integer; [rewrite D; reflexivity|lia].
  - intros s1 s2 s3 D1 D2 D3.
    assert (F1 : framesFor (duration s1) = 96%Z)
      by (apply framesFor_integer; [rewrite D1; reflexivity|lia]).
    assert (F2 : framesFor (duration s2) = 84%Z)
      by (apply framesFor_integer; [rewrite D2; reflexivity|lia]).
    assert (F3 : framesFor (duration s3) = 72%Z)
      by (apply framesFor_integer; [rewrite D3; reflexivity|lia]).
    assert (Tot : totalDurationForScenes [s1; s2; s3] == 10.5).
    { unfold totalDurationForScenes. simpl. rewrite D1, D2, D3. reflexivity. }
    split; [cbn [map]; now rewrite F1, F2, F3|]. split; [exact Tot|]. split.
    + unfold totalFrameCount, sceneFrameCount. cbn [fold_right].
      now rewrite F1, F2, F3.
    + unfold totalFramesOf, Math_maxZ.
      rewrite (Math_round_integer _ 252); [reflexivity|].
      rewrite Tot. reflexivity.
Qed.

(** C6. A scene whose gradient id has no entry in the registry makes
    [renderSceneFrame] throw the missing-gradient error at every progress,
    with the context exactly as it was: no drawing command is issued and no
    other gradient is used.  An export attempt over a scene list that holds
    such a scene never returns a video and never reaches the mux stage, and
    [handleRender] ends in the error state; when the scene comes first and
    the encoder loads, the attempt throws that very error before any file is
    written. *)
Theorem missing_gradient_aborts (scene : Scene) :
  find (fun entry => string_eqb (gid entry) (gradientId scene)) GRADIENTS = None ->
  (forall progress c,
      renderSceneFrame scene progress c =
        (Throw (Error ("Missing gradient " ++ dquote ++ gradientId scene
                         ++ dquote ++ ".")), c)) /\
  (forall scenes options (w : World E),
      In scene scenes ->
      (exists e, fst (synthesizeVideo scenes options w) = Throw e) /\
      stageReports muxing (trace (snd (synthesizeVideo scenes options w))) =
        stageReports muxing (trace w) /\
      status (renderState (ui (handleRender scenes w))) = error) /\
  (forall rest options (w : World E) e',
      getFFmpeg (encoder w) = (Ok tt, e') -> supports2d = true ->
      fst (synthesizeVideo (scene :: rest) options w) =
        Throw (missingGradient (gradientId scene)) /\
      writtenNames (trace (snd (synthesizeVideo (scene :: rest) options w))) =
        writtenNames (trace w)).
Proof.
  intro Missing.
  assert (NotOk : forall scenes options (w : World E) r w',
            In scene scenes -> synthesizeVideo scenes options w = (r, w') ->
            (exists e, r = Throw e) /\
            stageReports muxing (trace w') = stageReports muxing (trace w)).
  { intros scenes options w r w' I H.
    destruct (synthesizeVideo_trace _ _ _ _ _ H)
      as [before [stage [after [T [Pb [Ps [Pa K]]]]]]].
    assert (Bad : ~ Forall resolves scenes).
    { intro F. exact (proj1 (Forall_forall _ _) F scene I Missing). }
    split.
    - destruct r as [blob|e]; [|eauto]. destruct (K blob eq_refl) as [_ [_ F]].
      contradiction.
    - destruct Pa as [->|[_ [F _]]]; [|contradiction].
      rewrite T, app_nil_r. unfold stageReports. rewrite !flat_map_app.
      assert (B0 : stageReports muxing before = []).
      { apply prefixOf_nil. change [] with (stageReports muxing loadEvents).
        now apply prefixOf_flat_map. }
      assert (S0 : stageReports muxing stage = []).
      { apply prefixOf_nil.
        rewrite <- (muxReports_stageEvents (totalFramesOf scenes) scenes 0).
        now apply prefixOf_flat_map. }
      unfold stageReports in B0, S0. now rewrite B0, S0, !app_nil_r. }
  split; [|split].
  - intros progress c. unfold renderSceneFrame. now rewrite Missing.
  - intros scenes options w I.
    destruct (synthesizeVideo scenes options w) as [r w'] eqn:H.
    destruct (NotOk _ _ _ _ _ I H) as [[e ->] M].
    split; [exists e; reflexivity|]. split; [exact M|].
    unfold handleRender.
    match goal with
    | |- context [synthesizeVideo scenes ?o ?w0] =>
        destruct (synthesizeVideo scenes o w0) as [r1 w1] eqn:H1
    end.
    destruct (NotOk _ _ _ _ _ I H1) as [[e1 ->] _]. reflexivity.
  - intros rest options w e' Load Canvas.
    unfold synthesizeVideo. cbn [List.length Nat.eqb].
    unfold loadEncoder, bind, report, call. cbn [trace encoder ui].
    rewrite Load, Canvas. cbn [negb sceneLoop].
    pose proof (sceneFrameCount_positive scene) as Pos.
    unfold sceneFrameCount in Pos.
    destruct (Z.to_nat (framesFor (duration scene))) as [|n]; [lia|].
    cbn [seq frameLoop]. unfold bind, renderFrame.
    cbn [context]. unfold renderSceneFrame. rewrite Missing.
    cbn [fst snd]. split; [reflexivity|].
    unfold logged. cbn [trace]. unfold writtenNames.
    rewrite !flat_map_app. cbn [flat_map app]. now rewrite !app_nil_r.
Qed.

End Attempt.

(** ** Cleanup *)

Section Cleanup.
Context {host : Host} {E : Type} {enc : Encoder E} {storage : EncoderStorage E}.

Lemma delete_attempt_clears name (w : World E) :
  reliableDelete ->
  forall w', ignoring (call (EvDelete name) (deleteFile name)) w = (Ok tt, w') ->
  stored name (encoder w') = false /\
  (forall other, stored other (encoder w) = false -> stored other (encoder w') = false).
Proof.
  intros Rel w'. unfold ignoring, call.
  destruct (deleteFile name (encoder w)) as [r e'] eqn:D.
  intro H. inversion H. subst. cbn [encoder]. split.
  - destruct (stored name (encoder w)) eqn:S.
    + destruct (Rel _ _ S) as [e1 D1]. rewrite D1 in D. inversion D. subst.
      eapply deleteFile_removes. exact D1.
    + eapply deleteFile_shrinks; eauto.
  - intros other S. eapply deleteFile_shrinks; eauto.
Qed.

Lemma cleanupFiles_clears files : reliableDelete -> forall (w w' : World E),
  cleanupFiles files w = (Ok tt, w') ->
  (forall name, In name files -> stored name (encoder w') = false) /\
  (forall other, stored other (encoder w) = false -> stored other (encoder w') = false).
Proof.
  intro Rel. induction files as [|file more IH]; intros w w' H.
  - cbn [cleanupFiles] in H. unfold ret in H. inversion H. subst.
    split; [intros name []|auto].
  - cbn [cleanupFiles] in H. unfold bind in H.
    destruct (ignoring (call (EvDelete file) (deleteFile file)) w) as [r w1] eqn:D.
    assert (r = Ok tt) as ->.
    { unfold ignoring in D. destruct (call _ _ w). now inversion D. }
    destruct (delete_attempt_clears file w Rel w1 D) as [Gone Keep].
    destruct (IH w1 w' H) as [Gone' Keep'].
    split.
    + intros name [<-|I]; [now apply Keep'|now apply Gone'].
    + intros other S. apply Keep'. now apply Keep.
Qed.

Lemma cleanupFfmpeg_clears files (w w' : World E) :
  reliableDelete ->
  cleanupFfmpeg files w = (Ok tt, w') ->
  forall name, In name (files ++ ["output.mp4"%string]) ->
               stored name (encoder w') = false.
Proof.
  intros Rel H. unfold cleanupFfmpeg, bind in H.
  destruct (cleanupFiles files w) as [r w1] eqn:C.
  assert (r = Ok tt) as ->.
  { destruct (cleanupFiles_trace files w) as [w2 [R _]]. rewrite R in C. now inversion C. }
  destruct (cleanupFiles_clears files Rel w w1 C) as [Gone _].
  destruct (delete_attempt_clears "output.mp4" w1 Rel w' H) as [GoneOut Keep].
  intros name I. apply in_app_or in I. destruct I as [I|[<-|[]]].
  - apply Keep. now apply Gone.
  - exact GoneOut.
Qed.

Lemma deletedNames_stageEvents T scenes : forall index,
  deletedNames (stageEvents T scenes index) = [].
Proof.
  assert (inner : forall scene n frameNumbers index,
            deletedNames (framesEvents T scene n frameNumbers index) = []).
  { intros scene n frameNumbers.
    induction frameNumbers as [|frame more IH]; intro index; [reflexivity|].
    cbn [framesEvents]. unfold deletedNames in *. now rewrite flat_map_app, IH. }
  induction scenes as [|scene more IH]; intro index; [reflexivity|].
  cbn [stageEvents]. unfold deletedNames in *.
  rewrite flat_map_app, IH, app_nil_r. apply inner.
Qed.

Lemma deletedNames_cleanupEvents files :
  deletedNames (cleanupEvents files) = files ++ ["output.mp4"%string].
Proof.
  unfold cleanupEvents, deletedNames. rewrite flat_map_app. cbn [flat_map app].
  f_equal. induction files as [|x l IH]; [reflexivity|].
  cbn [map flat_map app]. now rewrite IH.
Qed.

Lemma writtenNames_cleanupEvents files : writtenNames (cleanupEvents files) = [].
Proof.
  unfold cleanupEvents, writtenNames. rewrite flat_map_app. cbn [flat_map app].
  rewrite app_nil_r. induction files as [|x l IH]; [reflexivity|exact IH].
Qed.

(** Supporting C5 (scenario D): an attempt that reaches the mux step deletes
    every frame file it wrote and [output.mp4], whatever the mux step does;
    with a conforming storage and a reliable delete none of those names is
    left. *)
Lemma cleanup_after_mux scenes options (w : World E) r w' :
  synthesizeVideo scenes options w = (r, w') ->
  stageReports muxing (trace w') <> stageReports muxing (trace w) ->
  writtenNames (trace w') =
    writtenNames (trace w) ++ map frameFilename (seq 0 (totalFrameCount scenes)) /\
  deletedNames (trace w') =
    deletedNames (trace w)
      ++ map frameFilename (seq 0 (totalFrameCount scenes)) ++ ["output.mp4"%string] /\
  (reliableDelete ->
   forall name,
     In name (map frameFilename (seq 0 (totalFrameCount scenes))
                ++ ["output.mp4"%string]) ->
     stored name (encoder w') = false).
Proof.
  intros H Reached.
  destruct (synthesizeVideo_trace _ _ _ _ _ H)
    as [before [stage [after [T [Pb [Ps [Pa K]]]]]]].
  assert (Bm : stageReports muxing before = []).
  { apply prefixOf_nil. change [] with (stageReports muxing loadEvents).
    now apply prefixOf_flat_map. }
  assert (Bw : writtenNames before = []).
  { apply prefixOf_nil. change [] with (writtenNames loadEvents).
    now apply prefixOf_flat_map. }
  assert (Bd : deletedNames before = []).
  { apply prefixOf_nil. change [] with (deletedNames loadEvents).
    now apply prefixOf_flat_map. }
  destruct Pa as [->|[St [_ [mux [Pm [_ [-> [wm Cl]]]]]]]].
  - exfalso. apply Reached. rewrite T, app_nil_r. unfold stageReports in *.
    rewrite !flat_map_app, Bm.
    assert (S0 : stageReports muxing stage = []).
    { apply prefixOf_nil.
      rewrite <- (muxReports_stageEvents (totalFramesOf scenes) scenes 0).
      now apply prefixOf_flat_map. }
    unfold stageReports in S0. rewrite S0. now rewrite !app_nil_r.
  - assert (Mw : writtenNames mux = []).
    { apply prefixOf_nil. change [] with (writtenNames muxEvents).
      now apply prefixOf_flat_map. }
    assert (Md : deletedNames mux = []).
    { apply prefixOf_nil. change [] with (deletedNames muxEvents).
      now apply prefixOf_flat_map. }
    pose proof (writtenNames_stageEvents (totalFramesOf scenes) scenes 0) as Sw.
    pose proof (deletedNames_stageEvents (totalFramesOf scenes) scenes 0) as Sd.
    pose proof (writtenNames_cleanupEvents
                  (map frameFilename (seq 0 (totalFrameCount scenes)))) as Cw.
    pose proof (deletedNames_cleanupEvents
                  (map frameFilename (seq 0 (totalFrameCount scenes)))) as Cd.
    split; [|split].
    + rewrite T, St. unfold writtenNames in *.
      rewrite !flat_map_app, Bw, Sw, Mw, Cw. cbn [flat_map app].
      now rewrite !app_nil_r.
    + rewrite T, St. unfold deletedNames in *.
      rewrite !flat_map_app, Bd, Sd, Md, Cd. reflexivity.
    + intros Rel name I. eapply cleanupFfmpeg_clears; eauto.
Qed.

End Cleanup.

(** ** Determinism of the renderer *)

Lemma renderSceneFrame_returned {host : Host} (scene : Scene) (progress : Q)
    (c c' : Context) :
  renderSceneFrame scene progress c = (Ok tt, c') ->
  acceptedAccent scene /\ current c' = current c /\ saved c' = saved c.
Proof.
  intro Run.
  destruct (find (fun entry => string_eqb (gid entry) (gradientId scene)) GRADIENTS)
    as [gradient|] eqn:G.
  - destruct (acceptedAccent_dec scene) as [A|R].
    + destruct (renderSceneFrame_effect scene progress gradient (current c) G A)
        as [ops [path' Eff]].
      rewrite (Eff c eq_refl) in Run. inversion Run. subst c'. now split.
    + destruct (renderSceneFrame_refused scene progress gradient (current c) G R)
        as [ops [st' [st'' Eff]]].
      rewrite (Eff c eq_refl) in Run. discriminate.
  - unfold renderSceneFrame in Run. rewrite G in Run. discriminate.
Qed.






(** ** The attempt on the in-memory encoder *)

(** The in-memory encoder conforms, and its delete is reliable when the plan
    has no failing delete. *)
Lemma holds_without name other fs :
  Double.holds other fs = false -> Double.holds other (Double.without name fs) = false.
Proof.
  unfold Double.holds, Double.without. induction fs as [|x fs IH]; [reflexivity|].
  simpl. intro H. apply orb_false_iff in H. destruct H as [H1 H2].
  destruct (negb (string_eqb (fst x) name)); simpl; [rewrite H1|]; now apply IH.
Qed.

Lemma holds_without_same name fs : Double.holds name (Double.without name fs) = false.
Proof.
  unfold Double.holds, Double.without. induction fs as [|x fs IH]; [reflexivity|].
  simpl. destruct (string_eqb (fst x) name) eqn:Eq; simpl; [exact IH|].
  now rewrite Eq.
Qed.

Lemma memEncoder_storage plan : @EncoderStorage Double.MemFs (Double.memEncoder plan).
Proof.
  split.
  - intros name e e'. simpl.
    destruct (existsb (string_eqb name) (Double.failDelete plan)); [discriminate|].
    destruct (Double.holds name e); [|discriminate].
    intro H. inversion H. apply holds_without_same.
  - intros name other e r e'. simpl.
    destruct (existsb (string_eqb name) (Double.failDelete plan));
      [intro H; inversion H; now subst|].
    destruct (Double.holds name e); intro H; inversion H; subst; [|trivial].
    apply holds_without.
Qed.

Lemma memEncoder_reliable plan :
  Double.failDelete plan = [] -> @reliableDelete Double.MemFs (Double.memEncoder plan).
Proof.
  intros NoFault name e S. simpl in *. rewrite NoFault. simpl. rewrite S. eauto.
Qed.

(** Scenario D on the in-memory encoder: the mux throws, [handleRender] ends
    in the error state and none of the 48 frame files is left. *)
Example failing_mux_cleans_up :
  status (renderState (ui (@handleRender Double.browser _
                             (Double.memEncoder Double.failingExec)
                             Double.oneScene Double.start))) = error /\
  errorMessage (renderState (ui (@handleRender Double.browser _
                                   (Double.memEncoder Double.failingExec)
                                   Double.oneScene Double.start)))
    = Some "encoder exited with an error"%string /\
  List.length (writtenNames (trace (@handleRender Double.browser _
                                      (Double.memEncoder Double.failingExec)
                                      Double.oneScene Double.start))) = 48%nat /\
  encoder (@handleRender Double.browser _ (Double.memEncoder Double.failingExec)
             Double.oneScene Double.start) = [].
Proof. vm_compute. repeat split. Qed.

(** The general cleanup lemma applies to that run. *)
Example failing_mux_leaves_no_frame :
  forall name,
    In name (map frameFilename (seq 0 (totalFrameCount Double.oneScene))
               ++ ["output.mp4"%string]) ->
    @stored _ (Double.memEncoder Double.failingExec) name
      (encoder (snd (@synthesizeVideo Double.browser _
                       (Double.memEncoder Double.failingExec)
                       Double.oneScene None Double.start))) = false.
Proof.
  destruct (@synthesizeVideo Double.browser _ (Double.memEncoder Double.failingExec)
              Double.oneScene None Double.start) as [r w'] eqn:Run.
  assert (Reached : stageReports muxing (trace w')
                    <> stageReports muxing (trace Double.start)).
  { apply (f_equal snd) in Run. cbn [snd] in Run. rewrite <- Run.
    vm_compute. discriminate. }
  apply (@cleanup_after_mux Double.browser _ (Double.memEncoder Double.failingExec)
           (memEncoder_storage Double.failingExec) _ _ _ _ _ Run Reached).
  now apply memEncoder_reliable.
Qed.

(** C5. On a one-scene storyboard with an encoder whose second [writeFile]
    throws, [synthesizeVideo] throws after the frame loop began, no
    [deleteFile] is attempted and the first frame file stays in working
    storage; [handleRender] ends in the error state with the file still
    there. *)
Theorem write_failure_skips_cleanup :
  fst (@synthesizeVideo Double.browser _ (Double.memEncoder Double.failingWrite)
         Double.oneScene None Double.start)
    = Throw (Error "write failed") /\
  writtenNames
    (trace (snd (@synthesizeVideo Double.browser _ (Double.memEncoder Double.failingWrite)
                   Double.oneScene None Double.start)))
    = ["frame_00000.png"; "frame_00001.png"]%string /\
  deletedNames
    (trace (snd (@synthesizeVideo Double.browser _ (Double.memEncoder Double.failingWrite)
                   Double.oneScene None Double.start)))
    = [] /\
  @stored _ (Double.memEncoder Double.failingWrite) "frame_00000.png"
    (encoder (snd (@synthesizeVideo Double.browser _
                     (Double.memEncoder Double.failingWrite)
                     Double.oneScene None Double.start)))
    = true /\
  status (renderState (ui (@handleRender Double.browser _
                             (Double.memEncoder Double.failingWrite)
                             Double.oneScene Double.start))) = error /\
  @stored _ (Double.memEncoder Double.failingWrite) "frame_00000.png"
    (encoder (@handleRender Double.browser _ (Double.memEncoder Double.failingWrite)
                Double.oneScene Double.start))
    = true.
Proof. vm_compute. repeat split. Qed.

(** C1. On three scenes of 2.03 seconds, each within the duration bounds,
    the export returns after 147 frames while [totalFrames] is 146: the last
    frames-stage fraction reported is 147/146, not 1. *)
Theorem frames_progress_overshoots :
  Forall inBounds Double.offGridScenes /\
  (exists blob,
      fst (@synthesizeVideo Double.browser _ (Double.memEncoder Double.noFaults)
             Double.offGridScenes None Double.start) = Ok blob) /\
  totalFrameCount Double.offGridScenes = 147%nat /\
  totalFramesOf Double.offGridScenes = 146%Z /\
  last (stageReports frames
          (trace (snd (@synthesizeVideo Double.browser _
                         (Double.memEncoder Double.noFaults)
                         Double.offGridScenes None Double.start)))) 0
    = 147 # 146 /\
  ~ (147 # 146 == 1) /\
  1 < 147 # 146.
Proof.
  split.
  { repeat constructor; unfold inBounds, MIN_DURATION, MAX_DURATION, Qle; simpl; lia. }
  split; [eexists; vm_compute; reflexivity|].
  split; [vm_compute; reflexivity|]. split; [vm_compute; reflexivity|].
  split; [vm_compute; reflexivity|].
  split; [intro H; vm_compute in H; discriminate|reflexivity].
Qed.

(** ** The statements at concrete inputs *)

Lemma timeline_coverage_witness :
  Forall nonNegative Double.storyboard /\
  0 < totalDurationForScenes Double.storyboard /\
  exists i s,
    nth_error Double.storyboard i = Some s /\
    resolve Double.storyboard 5 =
      Some (s, (5 - sceneStart Double.storyboard i) / duration s) /\
    sceneStart Double.storyboard i <= 5 /\
    5 < sceneStart Double.storyboard i + duration s /\
    forall j s',
      nth_error Double.storyboard j = Some s' ->
      sceneStart Double.storyboard j <= 5 ->
      5 < sceneStart Double.storyboard j + duration s' -> j = i.
Proof.
  assert (F : Forall nonNegative Double.storyboard).
  { repeat constructor; unfold nonNegative, Qle; simpl; lia. }
  assert (P : 0 < totalDurationForScenes Double.storyboard) by reflexivity.
  split; [exact F|]. split; [exact P|].
  apply (proj1 (proj1 timeline_coverage Double.storyboard 5 F P)).
  - unfold Qle. simpl. lia.
  - reflexivity.
Defined.

Lemma scene_count_within_limits_witness :
  reachable Double.registry Double.fourScenes /\
  (1 <= List.length (scenes Double.fourScenes) <= MAX_SCENES)%nat.
Proof.
  assert (R : reachable Double.registry Double.fourScenes).
  { apply reach_perform.
    - apply reach_initial. repeat constructor; simpl; intuition discriminate.
    - simpl. intuition discriminate. }
  split; [exact R|].
  exact (proj1 (proj2 (scene_count_within_limits Double.registry Double.fourScenes R))).
Defined.

Lemma frames_per_scene_witness :
  exists blob,
    fst (@synthesizeVideo Double.browser _ (Double.memEncoder Double.noFaults)
           Double.oneScene None Double.start) = Ok blob /\
    renderedFrames
      (trace (snd (@synthesizeVideo Double.browser _
                     (Double.memEncoder Double.noFaults)
                     Double.oneScene None Double.start)))
      = flat_map sceneFrames Double.oneScene.
Proof.
  eexists. split; [vm_compute; reflexivity|].
  eapply (proj1 (@frames_per_scene Double.browser _ (Double.memEncoder Double.noFaults))
                Double.oneScene None Double.start).
  vm_compute. reflexivity.
Defined.

Lemma frame_files_named_in_sequence_witness :
  exists written,
    written = 48%nat /\
    writtenNames
      (trace (snd (@synthesizeVideo Double.browser _
                     (Double.memEncoder Double.noFaults)
                     Double.oneScene None Double.start)))
      = map frameFilename (seq 0 written).
Proof.
  destruct (proj1 (@frame_files_named_in_sequence Double.browser _
                     (Double.memEncoder Double.noFaults)
                     Double.oneScene None Double.start))
    as [written [_ [Names Full]]].
  exists written. split; [|exact Names].
  eapply Full. vm_compute. reflexivity.
Defined.

Lemma missing_gradient_aborts_witness :
  find (fun entry => string_eqb (gid entry) (gradientId Double.danglingScene))
       (@GRADIENTS Double.browser) = None /\
  status (renderState (ui (@handleRender Double.browser _
                             (Double.memEncoder Double.noFaults)
                             (Double.oneScene ++ [Double.danglingScene])
                             Double.start))) = error.
Proof.
  split; [reflexivity|].
  apply (proj1 (proj2 (@missing_gradient_aborts Double.browser _
                         (Double.memEncoder Double.noFaults)
                         Double.danglingScene eq_refl))
               (Double.oneScene ++ [Double.danglingScene]) None Double.start).
  simpl. tauto.
Defined.



(** * Further properties *)

(** ** Durations and curves *)

Lemma total_duration_app (first second : list Scene) :
  totalDurationForScenes (first ++ second)
    == totalDurationForScenes first + totalDurationForScenes second.
Proof.
  unfold totalDurationForScenes. rewrite fold_left_app.
  fold (accumulate 0 first).
  fold (accumulate (accumulate 0 first) second).
  rewrite (accumulate_shift second). reflexivity.
Qed.

Lemma total_duration_sum (l : list Scene) :
  totalDurationForScenes l == sumOfDurations l.
Proof.
  induction l as [|scene l IH].
  - reflexivity.
  - unfold totalDurationForScenes. simpl.
    fold (accumulate (0 + duration scene) l).
    rewrite accumulate_shift, IH. ring.
Qed.

Lemma total_duration_between (l : list Scene) :
  Forall inBounds l ->
  inject_Z (Z.of_nat (List.length l)) * MIN_DURATION <= totalDurationForScenes l /\
  totalDurationForScenes l <= inject_Z (Z.of_nat (List.length l)) * MAX_DURATION.
Proof.
  intro F. rewrite (total_duration_sum l).
  induction F as [|scene l [Lo Hi] F IH].
  - simpl. split; apply Qle_refl.
  - cbn [sumOfDurations fold_right List.length]. fold (sumOfDurations l).
    rewrite Nat2Z.inj_succ, <- Z.add_1_r, inject_Z_plus.
    change (inject_Z 1) with 1. destruct IH as [IH1 IH2].
    unfold MIN_DURATION, MAX_DURATION in *. split; lra.
Qed.

Lemma easeIn_mono x y : 0 <= x -> x <= y -> easeIn x <= easeIn y.
Proof. unfold easeIn. intros. nra. Qed.

Lemma cube_mono a b : a <= b -> a * a * a <= b * b * b.
Proof.
  intro H.
  assert (E : b * b * b - a * a * a == (b - a) * (a * a + a * b + b * b)) by ring.
  assert (P : 0 <= a * a + a * b + b * b).
  { assert (Q1 : a * a + a * b + b * b == (a + b / 2) * (a + b / 2) + (3 # 4) * (b * b))
      by field.
    rewrite Q1. nra. }
  nra.
Qed.

Lemma easeOut_mono x y : x <= y -> easeOut x <= easeOut y.
Proof.
  unfold easeOut, Math_pow3. intro H.
  pose proof (cube_mono (1 - y) (1 - x)). lra.
Qed.

Lemma easeInOut_low x : x < 0.5 -> easeInOut x = 4 * x * x * x.
Proof.
  intro H. unfold easeInOut. now rewrite (proj2 (Qlt_bool_iff x 0.5) H).
Qed.

Lemma easeInOut_high x :
  0.5 <= x -> easeInOut x = 1 - Math_pow3 (-2 * x + 2) / 2.
Proof.
  intro H. unfold easeInOut. now rewrite (proj2 (Qlt_bool_false_iff x 0.5) H).
Qed.

Lemma easeInOut_mono x y : 0 <= x -> x <= y -> y <= 1 -> easeInOut x <= easeInOut y.
Proof.
  intros X0 XY Y1.
  destruct (Qlt_le_dec x 0.5) as [Lx|Hx], (Qlt_le_dec y 0.5) as [Ly|Hy].
  - rewrite !easeInOut_low by assumption.
    pose proof (cube_mono x y XY). lra.
  - rewrite easeInOut_low, easeInOut_high by assumption. unfold Math_pow3.
    pose proof (cube_mono x 0.5 (Qlt_le_weak _ _ Lx)) as A.
    pose proof (cube_mono (-2 * y + 2) 1) as B.
    assert (B' : -2 * y + 2 <= 1) by lra. specialize (B B').
    unfold Qdiv. change (/ 2) with (1 # 2). lra.
  - lra.
  - rewrite !easeInOut_high by assumption. unfold Math_pow3.
    pose proof (cube_mono (-2 * y + 2) (-2 * x + 2)).
    unfold Qdiv. change (/ 2) with (1 # 2). lra.
Qed.

Lemma cube_difference (a b m : Q) :
  0 <= a -> a <= b -> b <= m ->
  b * b * b - a * a * a <= 3 * m * m * (b - a).
Proof.
  intros A AB BM.
  assert (S1 : b * b <= m * m) by nra.
  assert (S2 : a * b <= m * m) by nra.
  assert (S3 : a * a <= m * m) by nra.
  assert (P : 0 <= (b - a) * (3 * m * m - (b * b + a * b + a * a))).
  { apply Qmult_le_0_compat; lra. }
  lra.
Qed.

Lemma easeInOut_gentle (x y : Q) :
  0 <= x -> x <= y -> y <= 1 -> easeInOut y - easeInOut x <= 3 * (y - x).
Proof.
  intros X0 XY Y1.
  assert (Low : forall a b, 0 <= a -> a <= b -> b <= 0.5 ->
                  4 * b * b * b - 4 * a * a * a <= 3 * (b - a)).
  { intros a b A AB B. pose proof (cube_difference a b 0.5 A AB B). lra. }
  assert (High : forall a b, 0.5 <= a -> a <= b -> b <= 1 ->
                   (1 - Math_pow3 (-2 * b + 2) / 2) - (1 - Math_pow3 (-2 * a + 2) / 2)
                   <= 3 * (b - a)).
  { intros a b A AB B. unfold Math_pow3.
    pose proof (cube_difference (-2 * b + 2) (-2 * a + 2) 1) as C.
    unfold Qdiv. change (/ 2) with (1 # 2).
    assert (C' : (-2 * a + 2) * (-2 * a + 2) * (-2 * a + 2)
                 - (-2 * b + 2) * (-2 * b + 2) * (-2 * b + 2)
                 <= 3 * 1 * 1 * (-2 * a + 2 - (-2 * b + 2))) by (apply C; lra).
    lra. }
  destruct (Qlt_le_dec x 0.5) as [Lx|Hx], (Qlt_le_dec y 0.5) as [Ly|Hy].
  - rewrite (easeInOut_low x Lx), (easeInOut_low y Ly). apply Low; lra.
  - rewrite (easeInOut_low x Lx), (easeInOut_high y Hy).
    pose proof (Low x 0.5 X0 (Qlt_le_weak _ _ Lx) (Qle_refl _)) as A.
    pose proof (High 0.5 y (Qle_refl _) Hy Y1) as B.
    assert (Half : 1 - Math_pow3 (-2 * 0.5 + 2) / 2 == 4 * 0.5 * 0.5 * 0.5) by reflexivity.
    lra.
  - lra.
  - rewrite (easeInOut_high x Hx), (easeInOut_high y Hy). apply High; lra.
Qed.

Lemma frameProgress_last n :
  (2 <= n)%Z -> frameProgress n (Z.to_nat (n - 1)) == 1.
Proof.
  intro H. unfold frameProgress.
  destruct (n <=? 1)%Z eqn:L; [apply Z.leb_le in L; lia|].
  rewrite Z2Nat.id by lia. field.
  change 0 with (inject_Z 0). rewrite inject_Z_injective. lia.
Qed.

Lemma frameProgress_step n frame :
  (2 <= n)%Z -> frameProgress n frame < frameProgress n (S frame).
Proof.
  intro H. unfold frameProgress.
  destruct (n <=? 1)%Z eqn:L; [apply Z.leb_le in L; lia|].
  assert (P : 0 < inject_Z (n - 1)) by (change 0 with (inject_Z 0); rewrite <- Zlt_Qlt; lia).
  apply Qmult_lt_compat_r; [now apply Qinv_lt_0_compat|].
  rewrite <- Zlt_Qlt. lia.
Qed.

(** ** Splitting and wrapping text *)

Lemma split_nonempty sep s : split sep s <> [].
Proof.
  destruct s as [|c s]; simpl; [discriminate|].
  destruct (Ascii.eqb c sep); [discriminate|].
  destruct (split sep s); discriminate.
Qed.

Lemma split_app_sep sep a b :
  split sep (a ++ String sep b) = split sep a ++ split sep b.
Proof.
  induction a as [|c a IH]; simpl.
  - now rewrite Ascii.eqb_refl.
  - destruct (Ascii.eqb c sep); [now rewrite IH|].
    rewrite IH. pose proof (split_nonempty sep a) as N.
    destruct (split sep a) as [|w ws]; [congruence|reflexivity].
Qed.

Lemma split_lacks sep s : Forall (lacks sep) (split sep s).
Proof.
  induction s as [|c s IH]; simpl.
  - repeat constructor.
  - destruct (Ascii.eqb c sep) eqn:Eq.
    + constructor; [exact I|exact IH].
    + apply Ascii.eqb_neq in Eq.
      destruct (split sep s) as [|w ws]; [repeat constructor; assumption|].
      inversion IH; subst. constructor; [split; assumption|assumption].
Qed.

Lemma split_word sep w : lacks sep w -> split sep w = [w].
Proof.
  induction w as [|c w IH]; simpl; [reflexivity|].
  intros [Ne L]. apply Ascii.eqb_neq in Ne. rewrite Ne, (IH L). reflexivity.
Qed.

Lemma join_split sep s : join sep (split sep s) = s.
Proof.
  induction s as [|c s IH]; [reflexivity|]. simpl.
  pose proof (split_nonempty sep s) as N.
  destruct (Ascii.eqb c sep) eqn:Eq.
  - apply Ascii.eqb_eq in Eq. subst c.
    destruct (split sep s) as [|w ws]; [congruence|].
    cbn [join String.append]. cbn [join] in IH. now rewrite IH.
  - destruct (split sep s) as [|w ws]; [congruence|].
    destruct ws as [|w2 ws]; cbn [join String.append] in *; now rewrite IH.
Qed.

Section WrapFacts.
Context {host : Host}.

Lemma wrapWords_lines fontNow maxWidth (good : string -> Prop) words :
  forall lines currentLine,
    Forall good lines ->
    (truthy currentLine = true -> good currentLine) ->
    (forall word, In word words -> truthy word = true -> good word) ->
    (forall line word,
        good line -> truthy line = true -> In word words ->
        measureText fontNow (line ++ " " ++ word) <= maxWidth ->
        good (line ++ " " ++ word)%string) ->
    Forall good (fst (wrapWords fontNow maxWidth words lines currentLine)) /\
    (truthy (snd (wrapWords fontNow maxWidth words lines currentLine)) = true ->
     good (snd (wrapWords fontNow maxWidth words lines currentLine))).
Proof.
  induction words as [|word more IH]; intros lines cl Fl Gc Gw Gj; [now split|].
  cbn [wrapWords].
  destruct (truthy cl) eqn:T.
  - destruct (Qlt_bool maxWidth (measureText fontNow (cl ++ " " ++ word))) eqn:Wide;
      cbn [andb].
    + apply IH.
      * apply Forall_app. split; [exact Fl|]. constructor; [now apply Gc|constructor].
      * intros Tw. apply Gw; [now left|exact Tw].
      * intros w I. apply Gw. now right.
      * intros line w G Tl I. apply Gj; [assumption|assumption|now right].
    + apply IH.
      * exact Fl.
      * intros _. apply Gj; [now apply Gc|exact T|now left|].
        now apply Qlt_bool_false_iff.
      * intros w I. apply Gw. now right.
      * intros line w G Tl I. apply Gj; [assumption|assumption|now right].
  - rewrite andb_false_r. apply IH.
    + exact Fl.
    + intros Tw. destruct cl; [|discriminate]. apply Gw; [now left|exact Tw].
    + intros w I. apply Gw. now right.
    + intros line w G Tl I. apply Gj; [assumption|assumption|now right].
Qed.

Lemma wrapWords_words fontNow maxWidth words :
  forall lines currentLine,
    Forall (lacks " ") words ->
    filter truthy
      (flat_map (split " ") (fst (wrapWords fontNow maxWidth words lines currentLine))
         ++ split " " (snd (wrapWords fontNow maxWidth words lines currentLine)))
    = filter truthy (flat_map (split " ") lines ++ split " " currentLine)
        ++ filter truthy words.
Proof.
  induction words as [|word more IH]; intros lines cl L.
  - cbn [wrapWords fst snd filter]. now rewrite app_nil_r.
  - inversion L as [|? ? Lw Lm]; subst. cbn [wrapWords].
    assert (Step : forall lines1 cl1,
              filter truthy (flat_map (split " ") lines1 ++ split " " cl1)
              = filter truthy (flat_map (split " ") lines ++ split " " cl)
                  ++ filter truthy [word] ->
              filter truthy
                (flat_map (split " ") (fst (wrapWords fontNow maxWidth more lines1 cl1))
                   ++ split " " (snd (wrapWords fontNow maxWidth more lines1 cl1)))
              = filter truthy (flat_map (split " ") lines ++ split " " cl)
                  ++ filter truthy (word :: more)).
    { intros lines1 cl1 E. rewrite (IH lines1 cl1 Lm), E, <- app_assoc.
      change (word :: more) with ([word] ++ more). now rewrite (filter_app truthy [word] more). }
    destruct (truthy cl) eqn:T.
    + destruct (Qlt_bool maxWidth (measureText fontNow (cl ++ " " ++ word)));
        cbn [andb]; apply Step.
      * rewrite flat_map_app. cbn [flat_map]. rewrite app_nil_r, <- app_assoc.
        rewrite !filter_app. rewrite (split_word " " word Lw). now rewrite app_assoc.
      * cbn [String.append]. rewrite split_app_sep, (split_word " " word Lw).
        rewrite !filter_app. now rewrite app_assoc.
    + rewrite andb_false_r. apply Step.
      destruct cl; [|discriminate].
      rewrite (split_word " " word Lw). cbn [split]. rewrite !filter_app.
      cbn [filter truthy]. now rewrite app_nil_r.
Qed.

End WrapFacts.

(** ** Operations on the scene list *)

Lemma findIndex_range {A} (p : A -> bool) (l : list A) :
  (-1 <= findIndex p l < Z.of_nat (List.length l))%Z.
Proof.
  induction l as [|x l IH]; simpl; [lia|].
  destruct (p x); [lia|]. destruct (findIndex p l <? 0)%Z eqn:N; lia.
Qed.

Lemma findIndex_absent {A} (p : A -> bool) (l : list A) :
  (forall x, In x l -> p x = false) -> findIndex p l = (-1)%Z.
Proof.
  induction l as [|x l IH]; intro H; simpl; [reflexivity|].
  rewrite (H x (or_introl eq_refl)), IH by (intros y I; apply H; now right).
  reflexivity.
Qed.

Lemma findIndex_first {A} (p : A -> bool) (l : list A) (i : nat) (x : A) :
  nth_error l i = Some x -> p x = true ->
  (forall j y, (j < i)%nat -> nth_error l j = Some y -> p y = false) ->
  findIndex p l = Z.of_nat i.
Proof.
  revert i. induction l as [|y l IH]; intros i N P Before.
  - destruct i; discriminate.
  - destruct i as [|i]; simpl in *.
    + inversion N. subst. now rewrite P.
    + rewrite (Before 0%nat y ltac:(lia) eq_refl).
      rewrite (IH i N P).
      * destruct (Z.of_nat i <? 0)%Z eqn:Neg; [apply Z.ltb_lt in Neg; lia|lia].
      * intros j z L Nj. apply (Before (S j) z); [lia|exact Nj].
Qed.

Section SceneOperations.
Variable registry : list GradientSpec.

Lemma addScene_result newId st :
  (List.length (scenes st) < MAX_SCENES)%nat -> registry <> [] ->
  exists gradient,
    nth_error registry
      (Z.to_nat ((findIndex (fun g => string_eqb (gid g) (gradientId (templateOf st)))
                            registry + 1)
                 mod Z.of_nat (List.length registry))) = Some gradient /\
    addScene registry newId st =
      mkApp (scenes st ++
               [mkScene newId "New Narrative Moment"
                  "Swap in your copy and colors, then keep sculpting the flow."
                  (clamp (duration (templateOf st)) MIN_DURATION MAX_DURATION)
                  (gid gradient) (textColor (templateOf st)) (accent (templateOf st))
                  (animation (templateOf st))])
            newId.
Proof.
  intros Room NE. unfold addScene. fold (templateOf st).
  destruct (MAX_SCENES <=? List.length (scenes st))%nat eqn:Full;
    [apply Nat.leb_le in Full; lia|].
  set (k := Z.to_nat _).
  destruct (nth_error registry k) as [gradient|] eqn:N.
  - exists gradient. split; reflexivity.
  - exfalso. apply nth_error_None in N. subst k.
    pose proof (findIndex_range
                  (fun g => string_eqb (gid g) (gradientId (templateOf st))) registry).
    assert (0 < Z.of_nat (List.length registry))%Z by (destruct registry; simpl; [congruence|lia]).
    pose proof (Z.mod_pos_bound
                  (findIndex (fun g => string_eqb (gid g) (gradientId (templateOf st)))
                             registry + 1)
                  (Z.of_nat (List.length registry)) ltac:(lia)).
    lia.
Qed.

Lemma remove_keeps_one (target : string) (l : list Scene) :
  NoDup (map id l) -> In target (map id l) ->
  S (List.length (filter (fun scene => negb (string_eqb (id scene) target)) l))
    = List.length l.
Proof.
  induction l as [|s l IH]; simpl; intros N I; [contradiction|].
  inversion N as [|? ? NotIn N']; subst.
  destruct (string_eqb (id s) target) eqn:Eq; simpl.
  - apply String.eqb_eq in Eq. f_equal.
    f_equal. apply forallb_filter_id. apply forallb_forall. intros x Ix.
    apply negb_true_iff. apply String.eqb_neq. intro C.
    apply NotIn. rewrite Eq, <- C. now apply in_map.
  - f_equal. apply IH; [exact N'|].
    destruct I as [I|I]; [|exact I].
    apply String.eqb_neq in Eq. congruence.
Qed.

End SceneOperations.

Lemma find_present {A} (p : A -> bool) (l : list A) (x : A) :
  In x l -> p x = true -> exists y, find p l = Some y.
Proof.
  intros I P. destruct (find p l) as [y|] eqn:F; [eauto|].
  pose proof (find_none p l F x I). congruence.
Qed.

Lemma editActive_ids e st :
  map id (scenes (editActiveScene e st)) = map id (scenes st).
Proof.
  unfold editActiveScene. destruct (activeScene st) as [a|]; [|reflexivity].
  unfold updateScene. cbn [scenes]. rewrite map_map. apply map_ext.
  intro s. destruct (string_eqb (id s) (id a)) eqn:Eq; [|reflexivity].
  rewrite sceneEditorChange_id. apply String.eqb_eq in Eq. congruence.
Qed.

Lemma same_id_same_scene (l : list Scene) (a b : Scene) :
  NoDup (map id l) -> In a l -> In b l -> id a = id b -> a = b.
Proof.
  induction l as [|s l IH]; simpl; intros N Ia Ib E; [contradiction|].
  inversion N as [|? ? NotIn N']; subst.
  destruct Ia as [<-|Ia], Ib as [<-|Ib]; try reflexivity.
  - exfalso. apply NotIn. rewrite E. now apply in_map.
  - exfalso. apply NotIn. rewrite <- E. now apply in_map.
  - now apply IH.
Qed.

Lemma editActive_scenes e st a :
  NoDup (map id (scenes st)) -> activeScene st = Some a ->
  scenes (editActiveScene e st) =
    map (fun s => if string_eqb (id s) (id a) then sceneEditorChange s e else s)
        (scenes st).
Proof.
  intros N A. unfold editActiveScene. rewrite A. unfold updateScene. cbn [scenes].
  apply map_ext_in. intros s I.
  destruct (string_eqb (id s) (id a)) eqn:Eq; [|reflexivity].
  apply String.eqb_eq in Eq.
  now rewrite (same_id_same_scene (scenes st) s a N I (activeScene_In st a A) Eq).
Qed.

Section PageStates.
Variable registry : list GradientSpec.

Lemma pageState_reachable st : pageState registry st -> reachable registry st.
Proof.
  induction 1 as [id1 id2 id3 N|st a P IH O].
  - now apply reach_initial.
  - apply reach_perform; [exact IH|].
    destruct a; simpl in *; auto.
Qed.

Lemma remove_selection target st :
  wellFormed st -> In (selectedSceneId st) (map id (scenes st)) ->
  In (selectedSceneId (removeScene target st))
     (map id (scenes (removeScene target st))).
Proof.
  intros [N [Lo Hi]] Sel. unfold removeScene.
  destruct (List.length (scenes st) =? 1)%nat eqn:One; [exact Sel|].
  apply Nat.eqb_neq in One. cbn [scenes selectedSceneId].
  assert (Keep : forall s, In s (scenes st) -> id s <> target ->
            In (id s) (map id (filter (fun scene => negb (string_eqb (id scene) target))
                                      (scenes st)))).
  { intros s I Ne. apply in_map. apply filter_In. split; [exact I|].
    apply negb_true_iff. now apply String.eqb_neq. }
  destruct (string_eqb (selectedSceneId st) target) eqn:Eq.
  - destruct (find (fun scene => negb (string_eqb (id scene) target)) (scenes st))
      as [next|] eqn:F.
    + apply find_some in F. destruct F as [I P]. apply Keep; [exact I|].
      apply negb_true_iff in P. now apply String.eqb_neq.
    + exfalso.
      destruct (scenes st) as [|a [|b rest]] eqn:S;
        [cbn in Lo; lia|cbn in One; lia|].
      pose proof (find_none _ _ F a (or_introl eq_refl)) as Pa.
      pose proof (find_none _ _ F b (or_intror (or_introl eq_refl))) as Pb.
      apply negb_false_iff in Pa, Pb. apply String.eqb_eq in Pa, Pb.
      cbn [map] in N. inversion N as [|? ? NotIn _]; subst. apply NotIn. left.
      congruence.
  - apply String.eqb_neq in Eq. apply in_map_iff in Sel.
    destruct Sel as [s [E I]]. rewrite <- E. apply Keep; [exact I|congruence].
Qed.

Lemma perform_gradients a st :
  offered registry a st ->
  Forall (gradientKnown registry) (scenes st) ->
  Forall (gradientKnown registry) (scenes (perform registry a st)).
Proof.
  intros O F. destruct a as [newId|target|target|e]; cbn [perform].
  - unfold addScene.
    destruct (MAX_SCENES <=? List.length (scenes st))%nat; [exact F|].
    match goal with |- context [nth_error ?l ?k] => destruct (nth_error l k) as [g|] eqn:N end;
      [|exact F].
    cbn [scenes]. apply Forall_app. split; [exact F|].
    constructor; [|constructor]. unfold gradientKnown. cbn [gradientId].
    apply in_map. eapply nth_error_In; eauto.
  - unfold removeScene. destruct (List.length (scenes st) =? 1)%nat; [exact F|].
    cbn [scenes]. rewrite Forall_forall in *. intros s I.
    apply filter_In in I. apply F. tauto.
  - exact F.
  - unfold editActiveScene. destruct (activeScene st) as [a|] eqn:A; [|exact F].
    unfold updateScene. cbn [scenes]. rewrite Forall_forall in *. intros s I.
    apply in_map_iff in I. destruct I as [s0 [E I0]].
    destruct (string_eqb (id s0) (id a)); subst s; [|now apply F].
    pose proof (F a (activeScene_In st a A)) as Ka.
    destruct e; try exact Ka.
    unfold gradientKnown. cbn [sceneEditorChange gradientId].
    cbn [offered] in O. now apply in_map.
Qed.

Lemma last_keeps (holds : Scene -> Prop) (l : list Scene) (d : Scene) :
  Forall holds l -> holds d -> holds (last l d).
Proof.
  intros F D. induction F as [|x l Hx F IH]; [exact D|].
  destruct l as [|y l]; [exact Hx|exact IH].
Qed.

Lemma perform_accents a st :
  offered registry a st ->
  Forall (fun scene => colorInputValue (accent scene) = true) (scenes st) ->
  Forall (fun scene => colorInputValue (accent scene) = true)
         (scenes (perform registry a st)).
Proof.
  intros O F. destruct a as [newId|target|target|e]; cbn [perform].
  - unfold addScene.
    destruct (MAX_SCENES <=? List.length (scenes st))%nat; [exact F|].
    match goal with |- context [nth_error ?l ?k] => destruct (nth_error l k) as [g|] eqn:N end;
      [|exact F].
    cbn [scenes]. apply Forall_app. split; [exact F|].
    constructor; [|constructor]. cbn [accent].
    apply (last_keeps (fun scene => colorInputValue (accent scene) = true));
      [exact F|reflexivity].
  - unfold removeScene. destruct (List.length (scenes st) =? 1)%nat; [exact F|].
    cbn [scenes]. rewrite Forall_forall in *. intros s I.
    apply filter_In in I. apply F. tauto.
  - exact F.
  - unfold editActiveScene. destruct (activeScene st) as [a|] eqn:A; [|exact F].
    unfold updateScene. cbn [scenes]. rewrite Forall_forall in *. intros s I.
    apply in_map_iff in I. destruct I as [s0 [E I0]].
    destruct (string_eqb (id s0) (id a)); subst s; [|now apply F].
    pose proof (F a (activeScene_In st a A)) as Ka.
    destruct e; try exact Ka.
    cbn [sceneEditorChange accent]. cbn [offered] in O. exact O.
Qed.

Lemma addScene_selects newId st :
  addScene registry newId st = st \/
  exists scene,
    scenes (addScene registry newId st) = scenes st ++ [scene] /\
    id scene = newId /\
    selectedSceneId (addScene registry newId st) = newId.
Proof.
  unfold addScene.
  destruct (MAX_SCENES <=? List.length (scenes st))%nat; [now left|].
  match goal with |- context [nth_error ?l ?k] => destruct (nth_error l k) end;
    [|now left].
  right. eexists. cbn [scenes selectedSceneId]. split; [reflexivity|]. now split.
Qed.

Lemma pageState_invariant st :
  hasInitialGradients registry -> pageState registry st -> pageInvariant registry st.
Proof.
  intros Init P.
  assert (R := pageState_reachable st P).
  induction P as [id1 id2 id3 N|st a P IH O].
  - split; [exact (reachable_wellFormed registry _ R)|].
    split; [now left|]. split.
    + repeat constructor; unfold gradientKnown; cbn [gradientId]; apply Init;
        simpl; tauto.
    + split; [apply initial_inBounds|repeat constructor].
  - assert (R0 := pageState_reachable st P).
    destruct (IH R0) as [W [Sel [G [B A]]]].
    split; [exact (reachable_wellFormed registry _ R)|].
    split; [|split; [now apply perform_gradients|
                    split; [now apply perform_inBounds|now apply perform_accents]]].
    destruct a as [newId|target|target|e]; cbn [perform].
    + destruct (addScene_selects newId st) as [Same|[scene [Eq [I Snew]]]].
      * now rewrite Same.
      * rewrite Eq, Snew, map_app. apply in_or_app. right. left. exact I.
    + now apply remove_selection.
    + exact O.
    + rewrite editActive_ids. unfold editActiveScene.
      destruct (activeScene st); exact Sel.
Qed.

End PageStates.

(** ** What the page guarantees *)

Lemma reachable_inBounds registry st :
  reachable registry st -> Forall inBounds (scenes st).
Proof.
  induction 1 as [id1 id2 id3 N|st a R IH Fresh].
  - apply initial_inBounds.
  - now apply perform_inBounds.
Qed.

Lemma resolveFrom_In (l : list Scene) : forall e t s p,
  resolveFrom e l t = Some (s, p) -> In s l.
Proof.
  induction l as [|x l IH]; intros e t s p H; simpl in H; [discriminate|].
  destruct (Qle_bool e t && Qlt_bool t (e + duration x)).
  - inversion H. now left.
  - right. eapply IH; eauto.
Qed.

Lemma resolve_In (l : list Scene) t s p : resolve l t = Some (s, p) -> In s l.
Proof.
  unfold resolve. destruct (Qeq_bool (totalDurationForScenes l) 0); [discriminate|].
  destruct (resolveFrom 0 l t) as [[s' p']|] eqn:R.
  - intro H. inversion H. subst. eapply resolveFrom_In; eauto.
  - destruct (nth_error l (List.length l - 1)) as [x|] eqn:N; [|discriminate].
    intro H. inversion H. subst. eapply nth_error_In; eauto.
Qed.

Lemma resolve_some (l : list Scene) t :
  0 < totalDurationForScenes l -> exists s p, resolve l t = Some (s, p).
Proof.
  intro P. unfold resolve.
  destruct (Qeq_bool (totalDurationForScenes l) 0) eqn:Z.
  { apply Qeq_bool_iff in Z. lra. }
  destruct (resolveFrom 0 l t) as [[s p]|]; [eauto|].
  destruct (total_positive_nonempty l P) as [s N]. rewrite N. eauto.
Qed.

Lemma framesFor_between d :
  MIN_DURATION <= d -> d <= MAX_DURATION -> (48 <= framesFor d <= 192)%Z.
Proof.
  unfold MIN_DURATION, MAX_DURATION, framesFor, Math_maxZ, Math_round. intros Lo Hi.
  assert (L : inject_Z 48 <= d * inject_Z FPS + (1 # 2)).
  { change (inject_Z 48) with 48. change (inject_Z FPS) with 24. lra. }
  assert (U : d * inject_Z FPS + (1 # 2) <= 192 + (1 # 2)).
  { change (inject_Z FPS) with 24. lra. }
  apply Qfloor_resp_le in L, U. rewrite Qfloor_Z in L.
  change (Qfloor (192 + (1 # 2))) with 192%Z in U. lia.
Qed.

Lemma totalFrameCount_between (l : list Scene) :
  Forall inBounds l ->
  (48 * List.length l <= totalFrameCount l <= 192 * List.length l)%nat.
Proof.
  induction 1 as [|scene l [Lo Hi] F IH]; [simpl; lia|].
  change (totalFrameCount (scene :: l))
    with (sceneFrameCount scene + totalFrameCount l)%nat.
  pose proof (framesFor_between (duration scene) Lo Hi) as B.
  unfold sceneFrameCount. cbn [List.length]. lia.
Qed.

(** X1. The total duration is the sum of the scene durations, and the total
    of one list followed by another is the sum of the two totals. *)
Theorem total_duration_additive (first second : list Scene) :
  totalDurationForScenes (first ++ second)
    == totalDurationForScenes first + totalDurationForScenes second /\
  totalDurationForScenes first == sumOfDurations first.
Proof. split; [apply total_duration_app|apply total_duration_sum]. Qed.

(** X2. In every state the scene list reaches the total runtime is between
    2 and 48 seconds, so it is never zero and the preview resolves every
    time, whatever its value, to a scene of the list. *)
Theorem storyboard_always_has_runtime (registry : list GradientSpec) (st : AppState) :
  reachable registry st ->
  2 <= totalDurationForScenes (scenes st) /\
  totalDurationForScenes (scenes st) <= 48 /\
  forall time,
    exists scene p,
      resolve (scenes st) time = Some (scene, p) /\ In scene (scenes st).
Proof.
  intro R.
  pose proof (reachable_inBounds registry st R) as B.
  destruct (reachable_wellFormed registry st R) as [_ [Lo Hi]].
  destruct (total_duration_between (scenes st) B) as [T1 T2].
  unfold MIN_DURATION, MAX_DURATION, MAX_SCENES in *.
  assert (N1 : 1 <= inject_Z (Z.of_nat (List.length (scenes st)))).
  { change 1 with (inject_Z 1). rewrite <- Zle_Qle. lia. }
  assert (N6 : inject_Z (Z.of_nat (List.length (scenes st))) <= 6).
  { change 6 with (inject_Z 6). rewrite <- Zle_Qle. lia. }
  split; [lra|]. split; [lra|].
  intro time. destruct (resolve_some (scenes st) time) as [s [p E]]; [lra|].
  exists s, p. split; [exact E|]. eapply resolve_In; eauto.
Qed.

(** X3. A duration edit keeps an entered value that lies within the bounds
    and replaces a value below them by [MIN_DURATION] and one above them by
    [MAX_DURATION]; entering the stored value again changes nothing. *)
Theorem duration_edit_snaps (scene : Scene) (value : Q) :
  (MIN_DURATION <= value -> value <= MAX_DURATION ->
   duration (sceneEditorChange scene (EditDuration value)) == value) /\
  (value <= MIN_DURATION ->
   duration (sceneEditorChange scene (EditDuration value)) == MIN_DURATION) /\
  (MAX_DURATION <= value ->
   duration (sceneEditorChange scene (EditDuration value)) == MAX_DURATION) /\
  duration (sceneEditorChange scene
              (EditDuration (duration (sceneEditorChange scene (EditDuration value)))))
    == duration (sceneEditorChange scene (EditDuration value)).
Proof.
  assert (Keep : forall v, MIN_DURATION <= v -> v <= MAX_DURATION ->
            clamp v MIN_DURATION MAX_DURATION == v).
  { intros v Lo Hi. unfold clamp, Math_min, Math_max.
    rewrite (Q.max_l v MIN_DURATION Lo). now apply Q.min_l. }
  cbn [sceneEditorChange duration].
  split; [exact (Keep value)|]. split; [|split].
  - intro Lo. unfold clamp, Math_min, Math_max.
    rewrite (Q.max_r value MIN_DURATION Lo). apply Q.min_l.
    unfold MIN_DURATION, MAX_DURATION. lra.
  - intro Hi. unfold clamp, Math_min, Math_max.
    assert (M : Qmax value MIN_DURATION == value).
    { apply Q.max_l. unfold MIN_DURATION, MAX_DURATION in *. lra. }
    rewrite M. now apply Q.min_r.
  - destruct (clamp_inBounds value). now apply Keep.
Qed.

Lemma duration_edit_snaps_witness :
  duration (sceneEditorChange Double.danglingScene (EditDuration 9.5)) == MAX_DURATION.
Proof.
  apply (proj1 (proj2 (proj2 (duration_edit_snaps Double.danglingScene 9.5)))).
  unfold MAX_DURATION, Qle. simpl. lia.
Defined.

(** X4. The three easing curves fix 0 and 1, rise with their argument on
    [0, 1] and so stay within [0, 1] there.  The two branches of
    [easeInOut] meet at one half: below one half the curve is [4x^3], from
    one half on it is [1 - (-2x + 2)^3 / 2], the two expressions agree at
    one half, and over [0, 1] the curve climbs at most three times as fast
    as its argument, so it has no jump there or anywhere. *)
Theorem easing_curves_rise (x y : Q) :
  0 <= x -> x <= y -> y <= 1 ->
  (easeIn 0 == 0 /\ easeIn 1 == 1 /\ easeOut 0 == 0 /\ easeOut 1 == 1 /\
   easeInOut 0 == 0 /\ easeInOut 1 == 1 /\ easeInOut 0.5 == 0.5) /\
  (easeIn x <= easeIn y /\ easeOut x <= easeOut y /\ easeInOut x <= easeInOut y) /\
  (0 <= easeIn x <= 1 /\ 0 <= easeOut x <= 1 /\ 0 <= easeInOut x <= 1) /\
  ((forall t, t < 0.5 -> easeInOut t == 4 * t * t * t) /\
   (forall t, 0.5 <= t -> easeInOut t == 1 - Math_pow3 (-2 * t + 2) / 2) /\
   4 * 0.5 * 0.5 * 0.5 == 1 - Math_pow3 (-2 * 0.5 + 2) / 2 /\
   (forall t, 0 <= t -> t < 0.5 -> easeInOut 0.5 - easeInOut t <= 3 * (0.5 - t)) /\
   easeInOut y - easeInOut x <= 3 * (y - x)).
Proof.
  intros X0 XY Y1.
  assert (Ends : easeIn 0 == 0 /\ easeIn 1 == 1 /\ easeOut 0 == 0 /\ easeOut 1 == 1 /\
                 easeInOut 0 == 0 /\ easeInOut 1 == 1 /\ easeInOut 0.5 == 0.5)
    by (repeat split; reflexivity).
  split; [exact Ends|].
  destruct Ends as [I0 [I1 [O0 [O1 [E0 [E1 _]]]]]].
  split; [|split].
  - split; [now apply easeIn_mono|]. split; [now apply easeOut_mono|].
    now apply easeInOut_mono.
  - assert (X1 : x <= 1) by lra.
    pose proof (easeIn_mono 0 x (Qle_refl 0) X0) as A1.
    pose proof (easeIn_mono x 1 X0 X1) as A2.
    pose proof (easeOut_mono 0 x X0) as B1.
    pose proof (easeOut_mono x 1 X1) as B2.
    pose proof (easeInOut_mono 0 x (Qle_refl 0) X0 X1) as C1.
    pose proof (easeInOut_mono x 1 X0 X1 (Qle_refl 1)) as C2.
    rewrite I0 in A1. rewrite I1 in A2. rewrite O0 in B1. rewrite O1 in B2.
    rewrite E0 in C1. rewrite E1 in C2. repeat split; assumption.
  - split; [intros t Lt; now rewrite (easeInOut_low t Lt)|].
    split; [intros t Ge; now rewrite (easeInOut_high t Ge)|].
    split; [reflexivity|].
    split; [|now apply easeInOut_gentle].
    intros t T0 Lt. apply easeInOut_gentle; lra.
Qed.

Lemma easing_curves_rise_witness :
  easeInOut 0.25 <= easeInOut 0.75 /\ 0 <= easeOut 0.25 <= 1 /\
  easeInOut 0.75 - easeInOut 0.25 <= 3 * (0.75 - 0.25).
Proof.
  assert (H0 : 0 <= 0.25) by (unfold Qle; simpl; lia).
  assert (H1 : 0.25 <= 0.75) by (unfold Qle; simpl; lia).
  assert (H2 : 0.75 <= 1) by (unfold Qle; simpl; lia).
  destruct (easing_curves_rise 0.25 0.75 H0 H1 H2)
    as [_ [[_ [_ M]] [[_ [R _]] [_ [_ [_ [_ G]]]]]]].
  split; [exact M|]. split; [exact R|exact G].
Defined.

Lemma storyboard_always_has_runtime_witness :
  reachable Double.registry Double.fourScenes /\
  2 <= totalDurationForScenes (scenes Double.fourScenes) /\
  totalDurationForScenes (scenes Double.fourScenes) <= 48.
Proof.
  assert (R : reachable Double.registry Double.fourScenes).
  { apply reach_perform.
    - apply reach_initial. repeat constructor; simpl; intuition discriminate.
    - simpl. intuition discriminate. }
  split; [exact R|].
  destruct (storyboard_always_has_runtime Double.registry Double.fourScenes R)
    as [Lo [Hi _]].
  split; assumption.
Defined.

(** X5. Within a scene of at least two frames the progress handed to the
    renderer starts at 0, grows strictly from frame to frame, stays within
    [0, 1] and is 1 at the last frame; a scene of one frame is rendered at
    progress 1. *)
Theorem frame_progress_sweeps (framesForScene : Z) :
  ((framesForScene <= 1)%Z ->
   forall frame, frameProgress framesForScene frame = 1) /\
  ((2 <= framesForScene)%Z ->
   frameProgress framesForScene 0 == 0 /\
   frameProgress framesForScene (Z.to_nat (framesForScene - 1)) == 1 /\
   (forall frame,
       frameProgress framesForScene frame < frameProgress framesForScene (S frame)) /\
   (forall frame,
       (Z.of_nat frame <= framesForScene - 1)%Z ->
       0 <= frameProgress framesForScene frame /\
       frameProgress framesForScene frame <= 1)).
Proof.
  split.
  - intros One frame. unfold frameProgress.
    now rewrite (proj2 (Z.leb_le framesForScene 1) One).
  - intro Two.
    assert (P : 0 < inject_Z (framesForScene - 1)).
    { change 0 with (inject_Z 0). rewrite <- Zlt_Qlt. lia. }
    assert (Shape : forall frame,
              frameProgress framesForScene frame
                = inject_Z (Z.of_nat frame) / inject_Z (framesForScene - 1)).
    { intro frame. unfold frameProgress.
      destruct (framesForScene <=? 1)%Z eqn:L; [apply Z.leb_le in L; lia|reflexivity]. }
    split; [rewrite Shape; unfold Qdiv; simpl; ring|].
    split; [now apply frameProgress_last|].
    split; [intro frame; now apply frameProgress_step|].
    intros frame B. rewrite Shape. split.
    + apply Qle_shift_div_l; [exact P|]. rewrite Qmult_0_l.
      change 0 with (inject_Z 0). rewrite <- Zle_Qle. lia.
    + apply Qle_shift_div_r; [exact P|]. rewrite Qmult_1_l.
      rewrite <- Zle_Qle. exact B.
Qed.

Lemma frame_progress_sweeps_witness :
  frameProgress 48 0 == 0 /\ frameProgress 48 47 == 1.
Proof.
  destruct (proj2 (frame_progress_sweeps 48) ltac:(lia)) as [First [Last _]].
  split; [exact First|exact Last].
Defined.

(** X6. In every state the scene list reaches each scene has between 48 and
    192 frames and the export writes at most 1152 frames, so every frame
    file name has exactly five digits: fifteen characters in all. *)
Theorem frame_budget (registry : list GradientSpec) (st : AppState) :
  reachable registry st ->
  Forall (fun scene => (48 <= framesFor (duration scene) <= 192)%Z) (scenes st) /\
  (48 <= totalFrameCount (scenes st) <= 1152)%nat /\
  forall index,
    (index < totalFrameCount (scenes st))%nat ->
    String.length (frameFilename index) = 15%nat.
Proof.
  intro R.
  pose proof (reachable_inBounds registry st R) as B.
  destruct (reachable_wellFormed registry st R) as [_ [Lo Hi]].
  pose proof (totalFrameCount_between (scenes st) B) as T.
  unfold MAX_SCENES in Hi.
  split; [|split; [lia|]].
  - apply Forall_forall. intros scene I. rewrite Forall_forall in B.
    destruct (B scene I). now apply framesFor_between.
  - intros index L. unfold frameFilename.
    rewrite !string_length_app, length_padStart.
    assert (K : (index < 10 ^ 5)%nat).
    { apply Nat.lt_le_trans with 1152%nat; [lia|].
      change (10 ^ 5)%nat with (1152 + (10 ^ 5 - 1152))%nat. lia. }
    pose proof (String_of_nat_length index K). simpl String.length. lia.
Qed.

Lemma frame_budget_witness :
  reachable Double.registry Double.fourScenes /\
  (48 <= totalFrameCount (scenes Double.fourScenes) <= 1152)%nat.
Proof.
  assert (R : reachable Double.registry Double.fourScenes).
  { apply reach_perform.
    - apply reach_initial. repeat constructor; simpl; intuition discriminate.
    - simpl. intuition discriminate. }
  split; [exact R|].
  exact (proj1 (proj2 (frame_budget Double.registry Double.fourScenes R))).
Defined.

Section TextFacts.
Context {host : Host}.

(** X7. No line that [wrapText] returns is empty, and each line either fits
    the width or is a single word of the text: a line is only wider than the
    width when one word alone is. *)
Theorem wrapText_lines_fit (c : Context) (text : string) (maxWidth : Q) :
  Forall (fun line =>
            truthy line = true /\
            (measureText (font (current c)) line <= maxWidth \/
             In line (split " " text)))
         (wrapText c text maxWidth).
Proof.
  unfold wrapText.
  pose proof (wrapWords_lines (font (current c)) maxWidth
                (fun line =>
                   truthy line = true /\
                   (measureText (font (current c)) line <= maxWidth \/
                    In line (split " " text)))
                (split " " text) [] "") as H.
  destruct (wrapWords (font (current c)) maxWidth (split " " text) [] "")
    as [lines currentLine].
  cbn [fst snd] in H.
  destruct H as [Fl Gc].
  - constructor.
  - discriminate.
  - intros word I T. split; [exact T|now right].
  - intros line word [T _] _ I Fit. split; [|now left].
    destruct line; [discriminate|reflexivity].
  - case_eq (truthy currentLine); intro T; [|exact Fl].
    apply Forall_app. split; [exact Fl|]. constructor; [now apply Gc|constructor].
Qed.

(** X8. [wrapText] keeps the words: the non-empty words of the lines, read
    line after line, are the non-empty words of the text in the same order;
    no word is dropped, repeated, reordered or broken. *)
Theorem wrapText_keeps_words (c : Context) (text : string) (maxWidth : Q) :
  filter truthy (flat_map (split " ") (wrapText c text maxWidth))
    = filter truthy (split " " text).
Proof.
  unfold wrapText.
  pose proof (wrapWords_words (font (current c)) maxWidth (split " " text) [] ""
                (split_lacks " " text)) as H.
  destruct (wrapWords (font (current c)) maxWidth (split " " text) [] "")
    as [lines currentLine].
  cbn [fst snd flat_map split app filter truthy] in H.
  destruct (truthy currentLine) eqn:T.
  - rewrite flat_map_app. cbn [flat_map]. now rewrite app_nil_r.
  - destruct currentLine; [|discriminate].
    rewrite (filter_app truthy (flat_map (split " ") lines)) in H.
    change (filter truthy (split " " "")) with (@nil string) in H.
    change (filter truthy ([] ++ [""%string])) with (@nil string) in H.
    rewrite app_nil_r in H. exact H.
Qed.

End TextFacts.

(** X9. With room left and a non-empty registry [addScene] appends exactly
    one scene, selects it, and gives it the clamped duration, the colours
    and the motion of the last scene; its gradient is the registry entry
    after the first entry with the template's gradient id, wrapping round
    to the first entry at the end, and the first entry when the template's
    gradient is not in the registry. *)
Theorem addScene_cycles_registry (registry : list GradientSpec) (newId : string)
    (st : AppState) :
  (List.length (scenes st) < MAX_SCENES)%nat -> registry <> [] ->
  exists gradient,
    In gradient registry /\
    addScene registry newId st =
      mkApp (scenes st ++
               [mkScene newId "New Narrative Moment"
                  "Swap in your copy and colors, then keep sculpting the flow."
                  (clamp (duration (templateOf st)) MIN_DURATION MAX_DURATION)
                  (gid gradient) (textColor (templateOf st)) (accent (templateOf st))
                  (animation (templateOf st))])
            newId /\
    (forall i g,
        nth_error registry i = Some g ->
        gid g = gradientId (templateOf st) ->
        (forall j h, (j < i)%nat -> nth_error registry j = Some h ->
                     gid h <> gradientId (templateOf st)) ->
        nth_error registry (S i mod List.length registry) = Some gradient) /\
    ((forall g, In g registry -> gid g <> gradientId (templateOf st)) ->
     hd_error registry = Some gradient).
Proof.
  intros Room NE.
  destruct (addScene_result registry newId st Room NE) as [gradient [N Eq]].
  exists gradient. split; [eapply nth_error_In; eauto|]. split; [exact Eq|].
  assert (Len : (0 < List.length registry)%nat)
    by (destruct registry; simpl; [congruence|lia]).
  split.
  - intros i g Ni Gi First.
    rewrite (findIndex_first _ registry i g Ni) in N.
    + replace (Z.of_nat i + 1)%Z with (Z.of_nat (S i)) in N by lia.
      rewrite <- Nat2Z.inj_mod, Nat2Z.id in N. exact N.
    + unfold string_eqb. now apply String.eqb_eq.
    + intros j h L Nj. unfold string_eqb. apply String.eqb_neq. eauto.
  - intro Absent. rewrite findIndex_absent in N.
    + rewrite Z.mod_0_l in N by lia. destruct registry; [congruence|exact N].
    + intros g I. unfold string_eqb. apply String.eqb_neq. now apply Absent.
Qed.

Lemma addScene_cycles_registry_witness :
  exists gradient,
    In gradient Double.registry /\
    gid gradient = "aurora"%string /\
    scenes (addScene Double.registry "d" (initialState "a" "b" "c"))
      = scenes (initialState "a" "b" "c")
          ++ [mkScene "d" "New Narrative Moment"
                "Swap in your copy and colors, then keep sculpting the flow."
                (clamp 3 MIN_DURATION MAX_DURATION)
                (gid gradient) "#fff7ed" "#fb7185" drift].
Proof.
  destruct (addScene_cycles_registry Double.registry "d" (initialState "a" "b" "c"))
    as [gradient [I [Eq [Next _]]]].
  - simpl. unfold MAX_SCENES. lia.
  - discriminate.
  - exists gradient. split; [exact I|]. split.
    + specialize (Next 2%nat (mkGradient "sunset" "Sunset" 120
                                [mkStop 0 "#f97316"; mkStop 1 "#db2777"])
                       eq_refl eq_refl).
      assert (N : nth_error Double.registry (3 mod List.length Double.registry)
                  = Some gradient).
      { apply Next. intros j h L Nj.
        destruct j as [|[|j]]; [| |lia]; simpl in Nj; inversion Nj; subst;
          simpl; discriminate. }
      simpl in N. inversion N. reflexivity.
    + rewrite Eq. reflexivity.
Defined.

(** X10. On a list of at least two scenes with distinct ids [removeScene]
    of a scene that is shown removes that scene and nothing else: the list
    is one shorter, the id is gone, every other scene stays, none is
    added, and a selection that pointed elsewhere stays where it was. *)
Theorem removeScene_removes_target (target : string) (st : AppState) :
  NoDup (map id (scenes st)) ->
  In target (map id (scenes st)) ->
  (2 <= List.length (scenes st))%nat ->
  S (List.length (scenes (removeScene target st))) = List.length (scenes st) /\
  ~ In target (map id (scenes (removeScene target st))) /\
  (forall scene,
      In scene (scenes (removeScene target st)) <->
      In scene (scenes st) /\ id scene <> target) /\
  (selectedSceneId st <> target ->
   selectedSceneId (removeScene target st) = selectedSceneId st).
Proof.
  intros N I Two. unfold removeScene.
  destruct (List.length (scenes st) =? 1)%nat eqn:One;
    [apply Nat.eqb_eq in One; lia|].
  cbn [scenes selectedSceneId].
  assert (Mem : forall scene,
            In scene (filter (fun s => negb (string_eqb (id s) target)) (scenes st)) <->
            In scene (scenes st) /\ id scene <> target).
  { intro scene. rewrite filter_In, negb_true_iff. unfold string_eqb.
    now rewrite String.eqb_neq. }
  split; [now apply remove_keeps_one|]. split; [|split; [exact Mem|]].
  - intro C. apply in_map_iff in C. destruct C as [s [E Is]].
    apply Mem in Is. tauto.
  - intro Ne. apply String.eqb_neq in Ne. unfold string_eqb. now rewrite Ne.
Qed.

Lemma removeScene_removes_target_witness :
  map id (scenes (removeScene "b" (initialState "a" "b" "c"))) = ["a"; "c"]%string /\
  S (List.length (scenes (removeScene "b" (initialState "a" "b" "c")))) = 3%nat.
Proof.
  split; [reflexivity|].
  apply (removeScene_removes_target "b" (initialState "a" "b" "c")).
  - repeat constructor; simpl; intuition discriminate.
  - simpl. tauto.
  - simpl. lia.
Defined.

(** X11. In every state the controls of the page reach, the selected id is
    the id of a scene of the list, and the active scene the editor is
    mounted on is that scene. *)
Theorem selection_is_live (registry : list GradientSpec) (st : AppState) :
  hasInitialGradients registry ->
  pageState registry st ->
  In (selectedSceneId st) (map id (scenes st)) /\
  exists scene,
    activeScene st = Some scene /\
    In scene (scenes st) /\
    id scene = selectedSceneId st.
Proof.
  intros Init P.
  destruct (pageState_invariant registry st Init P) as [_ [Sel _]].
  split; [exact Sel|].
  apply in_map_iff in Sel. destruct Sel as [s [E I]].
  destruct (find_present
              (fun scene => string_eqb (id scene) (selectedSceneId st))
              (scenes st) s I) as [a F].
  { unfold string_eqb. now apply String.eqb_eq. }
  exists a. unfold activeScene. rewrite F. split; [reflexivity|].
  apply find_some in F. destruct F as [Ia Pa].
  split; [exact Ia|]. now apply String.eqb_eq.
Qed.

(** X13. With distinct ids an edit of the scene editor changes the active
    scene and no other: every scene keeps its place and its id, the scene
    with the active id takes the edit, and an edit other than a duration
    edit leaves every duration, and so the total runtime, as it was. *)
Theorem edit_touches_active_only (e : Edit) (st : AppState) (active : Scene) :
  NoDup (map id (scenes st)) ->
  activeScene st = Some active ->
  scenes (editActiveScene e st) =
    map (fun scene =>
           if string_eqb (id scene) (id active)
           then sceneEditorChange scene e else scene)
        (scenes st) /\
  map id (scenes (editActiveScene e st)) = map id (scenes st) /\
  selectedSceneId (editActiveScene e st) = selectedSceneId st /\
  ((forall value, e <> EditDuration value) ->
   map duration (scenes (editActiveScene e st)) = map duration (scenes st) /\
   totalDurationForScenes (scenes (editActiveScene e st))
     == totalDurationForScenes (scenes st)).
Proof.
  intros N A.
  pose proof (editActive_scenes e st active N A) as Eq.
  split; [exact Eq|]. split; [apply editActive_ids|]. split.
  - unfold editActiveScene. now rewrite A.
  - intro NotDuration.
    assert (D : map duration (scenes (editActiveScene e st)) = map duration (scenes st)).
    { rewrite Eq, map_map. apply map_ext. intro s.
      destruct (string_eqb (id s) (id active)); [|reflexivity].
      destruct e; try reflexivity. exfalso. now apply (NotDuration value). }
    split; [exact D|].
    rewrite !total_duration_sum.
    assert (S : forall l, sumOfDurations l = fold_right Qplus 0 (map duration l)).
    { induction l as [|x l IH]; [reflexivity|]. cbn [sumOfDurations fold_right map].
      fold (sumOfDurations l). now rewrite IH. }
    now rewrite !S, D.
Qed.

Lemma edit_touches_active_only_witness :
  map title (scenes (editActiveScene (EditTitle "Opening")
                       (initialState "a" "b" "c")))
    = ["Opening"; "Scene-aware pacing"; "Render to share in one click"]%string.
Proof.
  assert (N : NoDup (map id (scenes (initialState "a" "b" "c")))).
  { repeat constructor; simpl; intuition discriminate. }
  destruct (edit_touches_active_only (EditTitle "Opening") (initialState "a" "b" "c")
              (mkScene "a" "Showcase your ideas in motion"
                 "Craft cinematic storyboards that turn into silky, production-ready clips with zero hassle."
                 4 "aurora" "#f8fafc" "#facc15" zoom) N eq_refl) as [Eq _].
  rewrite Eq. reflexivity.
Defined.

Lemma fourScenes_pageState : pageState Double.registry Double.fourScenes.
Proof.
  apply page_perform.
  - apply page_initial. repeat constructor; simpl; intuition discriminate.
  - simpl. intuition discriminate.
Qed.

Lemma registry_hasInitialGradients : hasInitialGradients Double.registry.
Proof. intros name I. simpl in *. tauto. Qed.

Lemma selection_is_live_witness :
  hasInitialGradients Double.registry /\
  pageState Double.registry Double.fourScenes /\
  In (selectedSceneId Double.fourScenes) (map id (scenes Double.fourScenes)).
Proof.
  split; [exact registry_hasInitialGradients|].
  split; [exact fourScenes_pageState|].
  exact (proj1 (selection_is_live Double.registry Double.fourScenes
                  registry_hasInitialGradients fourScenes_pageState)).
Defined.

Lemma gradientKnown_resolves {host : Host} (scene : Scene) :
  gradientKnown GRADIENTS scene -> resolves scene.
Proof.
  unfold gradientKnown, resolves. intro K. apply in_map_iff in K.
  destruct K as [g [E I]].
  destruct (find_present (fun entry => string_eqb (gid entry) (gradientId scene))
              GRADIENTS g I) as [y F].
  - unfold string_eqb. now apply String.eqb_eq.
  - rewrite F. discriminate.
Qed.

Lemma hexDigits_app (a b : string) :
  hexDigits a = true -> hexDigits b = true -> hexDigits (a ++ b) = true.
Proof.
  intros A B. induction a as [|c a IH]; [exact B|].
  cbn [hexDigits String.append] in *. apply andb_true_iff in A. destruct A as [C A].
  now rewrite C, IH.
Qed.

(** A value of the colour input with two more hexadecimal digits is a
    colour in the notation [#rrggbbaa]. *)
Lemma colorInput_with_alpha (value alpha : string) :
  colorInputValue value = true -> hexDigits alpha = true ->
  String.length alpha = 2%nat -> hexColor (value ++ alpha) = true.
Proof.
  intros V A L. destruct value as [|c digits]; [discriminate|].
  cbn [colorInputValue hexColor String.append] in *.
  apply andb_true_iff in V. destruct V as [V Six].
  apply andb_true_iff in V. destruct V as [Hash Digits].
  apply Nat.eqb_eq in Six.
  rewrite Hash, (hexDigits_app digits alpha Digits A), string_length_app, Six, L.
  reflexivity.
Qed.

Lemma colorInput_accepted {host : Host} (scene : Scene) :
  colorInputValue (accent scene) = true -> acceptedAccent scene.
Proof.
  intro V. split; apply parses_hex; now apply colorInput_with_alpha.
Qed.

(** X12. In every state the controls of the page reach, each scene names a
    gradient of the registry, so the preview never throws: at every time
    [renderPreviewFrame] returns normally, having only added drawing
    commands to the surface, with the drawing state and the saved states as
    they were. *)
Theorem preview_never_throws {host : Host} (st : AppState) :
  hasInitialGradients GRADIENTS ->
  pageState GRADIENTS st ->
  Forall (gradientKnown GRADIENTS) (scenes st) /\
  forall (c : Context) (time : Q),
    exists c' ops,
      renderPreviewFrame c (scenes st) time = (Ok tt, c') /\
      current c' = current c /\ saved c' = saved c /\
      drawn c' = drawn c ++ ops.
Proof.
  intros Init P.
  destruct (pageState_invariant GRADIENTS st Init P) as [_ [_ [G [_ A]]]].
  split; [exact G|]. intros c time. unfold renderPreviewFrame.
  destruct (resolve (scenes st) time) as [[scene p]|] eqn:R.
  - pose proof (resolve_In _ _ _ _ R) as I.
    rewrite Forall_forall in G, A.
    pose proof (gradientKnown_resolves scene (G scene I)) as Res.
    pose proof (colorInput_accepted scene (A scene I)) as Acc.
    unfold resolves in Res.
    destruct (find (fun entry => string_eqb (gid entry) (gradientId scene)) GRADIENTS)
      as [gradient|] eqn:F; [|congruence].
    destruct (renderSceneFrame_effect scene p gradient (current c) F Acc)
      as [ops [path' Eff]].
    rewrite (Eff c eq_refl). do 2 eexists. split; [reflexivity|].
    cbn [current saved drawn]. repeat split.
  - exists c, []. rewrite app_nil_r. repeat split.
Qed.

Lemma preview_never_throws_witness :
  exists c' ops,
    @renderPreviewFrame Double.browser freshContext (scenes Double.fourScenes) 5
      = (Ok tt, c') /\
    drawn c' = ops.
Proof.
  destruct (proj2 (@preview_never_throws Double.browser Double.fourScenes
                     registry_hasInitialGradients fourScenes_pageState)
                  freshContext 5) as [c' [ops [E [_ [_ D]]]]].
  exists c', ops. split; [exact E|exact D].
Defined.

(** ** The export attempt, wherever it stops *)

Section ShapeFacts.
Context {host : Host} {E : Type} {enc : Encoder E}.

Lemma muxAndRead_outcome onStage (w : World E) r w' :
  muxAndRead onStage w = (r, w') ->
  (exists bytes e1 e2,
      r = Ok (Some bytes) /\
      readFile "output.mp4" e1 = (Ok (Uint8Array bytes), e2) /\
      trace w' = trace w ++ muxEvents) \/
  (exists e mux,
      r = Throw e /\ trace w' = trace w ++ mux /\
      (mux = [EvExec execArgs] /\ (exists e1 e2, exec execArgs e1 = (Throw e, e2)) \/
       mux = [EvExec execArgs; EvStage muxing 0.9; EvRead "output.mp4"] /\
       (e = Error "Unexpected encoder output format." \/
        exists e1 e2, readFile "output.mp4" e1 = (Throw e, e2)))).
Proof.
  unfold muxAndRead, muxEvents, bind, call, report, throw, ret. cbn [trace encoder ui].
  destruct (exec execArgs (encoder w)) as [[[]|e] e1] eqn:X; cbn [trace encoder ui].
  - destruct (readFile "output.mp4" e1) as [[[bytes|text]|e] e2] eqn:R;
      intro H; inversion H; subst; clear H; cbn [trace].
    + left. exists bytes, e1, e2. split; [reflexivity|]. split; [exact R|].
      now rewrite <- !app_assoc.
    + right. do 2 eexists. split; [reflexivity|].
      split; [rewrite <- !app_assoc; reflexivity|]. right. split; [reflexivity|now left].
    + right. do 2 eexists. split; [reflexivity|].
      split; [rewrite <- !app_assoc; reflexivity|]. right. split; [reflexivity|].
      right. eauto.
  - intro H; inversion H; subst; clear H; cbn [trace].
    right. do 2 eexists. split; [reflexivity|]. split; [reflexivity|].
    left. split; [reflexivity|]. eauto.
Qed.

Lemma renderSceneFrame_throw (scene : Scene) (p : Q) (c c' : Context) (e : Exn) :
  renderSceneFrame scene p c = (Throw e, c') ->
  e = missingGradient (gradientId scene) \/
  ~ acceptedAccent scene /\ e = Error syntaxErrorMessage.
Proof.
  intro Run.
  destruct (find (fun entry => string_eqb (gid entry) (gradientId scene)) GRADIENTS)
    as [gradient|] eqn:G.
  - destruct (acceptedAccent_dec scene) as [A|R].
    + destruct (renderSceneFrame_effect scene p gradient (current c) G A)
        as [ops [path' Eff]].
      rewrite (Eff c eq_refl) in Run. discriminate.
    + destruct (renderSceneFrame_refused scene p gradient (current c) G R)
        as [ops [st' [st'' Eff]]].
      rewrite (Eff c eq_refl) in Run. inversion Run. now right.
  - unfold renderSceneFrame in Run. rewrite G in Run. inversion Run. now left.
Qed.

Lemma renderFrame_throw onStage T scene n frame st (w : World E) e w' :
  renderFrame onStage T scene n frame st w = (Throw e, w') ->
  frameError [scene] e.
Proof.
  unfold renderFrame, frameError.
  destruct (renderSceneFrame scene (frameProgress n frame) (context st))
    as [[[]|e0] c1] eqn:R.
  - unfold canvasToUint8. destruct atob.
    + unfold bind, call, report, ret, logged. cbn [trace encoder ui].
      match goal with
      | |- context [writeFile ?name ?bytes ?e1] =>
          destruct (writeFile name bytes e1) as [[[]|e2] e'] eqn:W
      end; intro H; inversion H; subst.
      do 3 right. eauto.
    + intro H. inversion H. right. right. now left.
  - intro H. inversion H. subst.
    destruct (renderSceneFrame_throw _ _ _ _ _ R) as [->|[Refused ->]].
    + left. exists scene. split; [now left|reflexivity].
    + right. left. exists scene. split; [now left|]. now split.
Qed.

Lemma frameLoop_throw onStage T scene n frameNumbers : forall st (w : World E) e w',
  frameLoop onStage T scene n frameNumbers st w = (Throw e, w') ->
  frameError [scene] e.
Proof.
  induction frameNumbers as [|frame more IH]; intros st w e w' H.
  - discriminate.
  - simpl in H. unfold bind in H.
    destruct (renderFrame onStage T scene n frame st w) as [[st1|e1] w1] eqn:F.
    + eapply IH. exact H.
    + inversion H. subst. eapply renderFrame_throw. exact F.
Qed.

Lemma frameError_weaken scenes more e :
  frameError scenes e -> (forall s, In s scenes -> In s more) -> frameError more e.
Proof.
  intros [[s [I Eq]]|[[s [I Rest]]|[B|W]]] Sub.
  - left. exists s. split; [now apply Sub|exact Eq].
  - right. left. exists s. split; [now apply Sub|exact Rest].
  - right. right. now left.
  - right. right. now right.
Qed.

Lemma sceneLoop_throw onStage T scenes : forall st (w : World E) e w',
  sceneLoop onStage T scenes st w = (Throw e, w') ->
  frameError scenes e.
Proof.
  induction scenes as [|scene more IH]; intros st w e w' H.
  - discriminate.
  - simpl in H. unfold bind in H.
    destruct (frameLoop onStage T scene (framesFor (duration scene))
                (seq 0 (Z.to_nat (framesFor (duration scene)))) st w)
      as [[st1|e1] w1] eqn:F.
    + apply (frameError_weaken more); [eapply IH; exact H|]. intros s I. now right.
    + inversion H. subst. apply (frameError_weaken [scene]).
      * eapply frameLoop_throw. exact F.
      * intros s [<-|[]]. now left.
Qed.

Lemma renderFrame_accepted onStage T scene n frame st (w : World E) st' w' :
  renderFrame onStage T scene n frame st w = (Ok st', w') -> acceptedAccent scene.
Proof.
  unfold renderFrame.
  destruct (renderSceneFrame scene (frameProgress n frame) (context st))
    as [[[]|e0] c1] eqn:R; [|discriminate].
  intros _. now destruct (renderSceneFrame_returned _ _ _ _ R).
Qed.

Lemma frameLoop_accepted onStage T scene n frameNumbers : forall st (w : World E) st' w',
  frameNumbers <> [] ->
  frameLoop onStage T scene n frameNumbers st w = (Ok st', w') -> acceptedAccent scene.
Proof.
  destruct frameNumbers as [|frame more]; intros st w st' w' NE H; [congruence|].
  simpl in H. unfold bind in H.
  destruct (renderFrame onStage T scene n frame st w) as [[st1|e] w1] eqn:F;
    [|discriminate].
  eapply renderFrame_accepted. exact F.
Qed.

Lemma sceneLoop_accepted onStage T scenes : forall st (w : World E) st' w',
  sceneLoop onStage T scenes st w = (Ok st', w') -> Forall acceptedAccent scenes.
Proof.
  induction scenes as [|scene more IH]; intros st w st' w' H; [constructor|].
  simpl in H. unfold bind in H.
  destruct (frameLoop onStage T scene (framesFor (duration scene))
              (seq 0 (Z.to_nat (framesFor (duration scene)))) st w)
    as [[st1|e] w1] eqn:F; [|discriminate].
  constructor; [|eapply IH; exact H].
  eapply frameLoop_accepted; [|exact F].
  pose proof (sceneFrameCount_positive scene) as Pos. unfold sceneFrameCount in Pos.
  destruct (Z.to_nat (framesFor (duration scene))); [lia|discriminate].
Qed.

Lemma length_zero_iff {A} (l : list A) : (List.length l =? 0)%nat = true <-> l = [].
Proof. destruct l; simpl; split; intro H; congruence. Qed.

Lemma synthesizeVideo_stops scenes options (w : World E) r w' :
  synthesizeVideo scenes options w = (r, w') ->
  exists evs, trace w' = trace w ++ evs /\ stopsAt scenes r evs.
Proof.
  unfold synthesizeVideo.
  destruct (List.length scenes =? 0)%nat eqn:Empty.
  { unfold throw. intro H. inversion H. subst.
    exists []. rewrite app_nil_r. split; [reflexivity|].
    apply stop_empty. now apply length_zero_iff. }
  assert (NE : scenes <> []).
  { intro N. apply length_zero_iff in N. congruence. }
  set (onStage := match options with Some f => f | None => fun _ _ u => u end).
  fold (totalFramesOf scenes).
  unfold loadEncoder, bind at 1 2 3, report at 1 2, call. cbn [trace encoder ui].
  destruct (getFFmpeg (encoder w)) as [[[]|e] e0] eqn:Load.
  2:{ intro H. inversion H. subst. cbn [trace].
      exists [EvStage loading 0.1; EvLoad].
      split; [now rewrite <- app_assoc|]. apply stop_load; eauto. }
  cbn [trace encoder ui].
  destruct supports2d eqn:Two; cbn [negb].
  2:{ unfold throw. intro H. inversion H. subst. cbn [trace].
      exists loadEvents.
      split; [unfold loadEvents; now rewrite <- !app_assoc|].
      now apply stop_context. }
  unfold bind at 1.
  match goal with
  | |- context [sceneLoop ?o ?t ?s ?st ?w0] =>
      destruct (sceneLoop o t s st w0) as [[st1|e] w1] eqn:Loop
  end.
  2:{ intro H. inversion H. subst.
      destruct (sceneLoop_spec _ _ _ _ _ _ _ Loop) as [evs [T [P _]]].
      cbn [trace frameIndex] in *.
      exists (loadEvents ++ evs).
      split; [rewrite T; unfold loadEvents; now rewrite <- !app_assoc|].
      apply stop_frames; auto. eapply sceneLoop_throw. exact Loop. }
  destruct (sceneLoop_spec _ _ _ _ _ _ _ Loop) as [evs [T [_ K]]].
  destruct (K st1 eq_refl) as [Ev [_ [Wr Res]]].
  pose proof (sceneLoop_accepted _ _ _ _ _ _ _ Loop) as Acc.
  cbn [trace frameIndex writtenFiles List.app] in *.
  unfold bind, report, tryFinally. cbn [trace encoder ui].
  match goal with
  | |- context [muxAndRead ?o ?w0] =>
      destruct (muxAndRead o w0) as [rm wm] eqn:Mux
  end.
  destruct (cleanupFfmpeg_trace (writtenFiles st1) wm) as [wc [Rc [Tc _]]].
  rewrite Rc. rewrite Wr in Tc. fold (frameNames scenes) in Tc.
  destruct (muxAndRead_outcome _ _ _ _ Mux)
    as [[bytes [e1 [e2 [-> [Rd Tm]]]]]|[e [mux [-> [Tm Why]]]]];
    cbn [trace] in Tm; unfold ret; intro H; inversion H; subst.
  - exists (successEvents scenes). split.
    + rewrite Tc, Tm, T. unfold successEvents, loadEvents, frameNames.
      now rewrite <- !app_assoc.
    + apply stop_done; eauto.
  - exists (loadEvents ++ stageEvents (totalFramesOf scenes) scenes 0
              ++ [EvStage muxing 0.1] ++ mux ++ cleanupEvents (frameNames scenes)).
    split.
    + rewrite Tc, Tm, T. unfold loadEvents. now rewrite <- !app_assoc.
    + apply stop_mux; auto.
Qed.

End ShapeFacts.

Lemma flat_map_framesEvents_nil {B} (f : Event -> list B) :
  (forall scene p, f (EvRender scene p) = []) ->
  (forall name, f (EvWrite name) = []) ->
  (forall stage p, f (EvStage stage p) = []) ->
  forall T scene n frameNumbers index,
    flat_map f (framesEvents T scene n frameNumbers index) = [].
Proof.
  intros R W S T scene n frameNumbers.
  induction frameNumbers as [|frame more IH]; intro index; [reflexivity|].
  cbn [framesEvents frameEvents List.app flat_map]. now rewrite R, W, S, IH.
Qed.

Lemma flat_map_stageEvents_nil {B} (f : Event -> list B) :
  (forall scene p, f (EvRender scene p) = []) ->
  (forall name, f (EvWrite name) = []) ->
  (forall stage p, f (EvStage stage p) = []) ->
  forall T scenes index, flat_map f (stageEvents T scenes index) = [].
Proof.
  intros R W S T scenes.
  induction scenes as [|scene more IH]; intro index; [reflexivity|].
  cbn [stageEvents]. rewrite flat_map_app, IH, app_nil_r.
  now apply flat_map_framesEvents_nil.
Qed.

Lemma flat_map_cleanupEvents_nil {B} (f : Event -> list B) :
  (forall name, f (EvDelete name) = []) ->
  forall files, flat_map f (cleanupEvents files) = [].
Proof.
  intros D files. unfold cleanupEvents. rewrite flat_map_app. cbn [flat_map].
  rewrite D, app_nil_r.
  induction files as [|file more IH]; [reflexivity|].
  cbn [map flat_map]. now rewrite D, IH.
Qed.

Lemma flat_map_stage_prefix_nil {B} (f : Event -> list B) :
  (forall scene p, f (EvRender scene p) = []) ->
  (forall name, f (EvWrite name) = []) ->
  (forall stage p, f (EvStage stage p) = []) ->
  forall T scenes index stage,
    prefixOf stage (stageEvents T scenes index) -> flat_map f stage = [].
Proof.
  intros R W S T scenes index stage P. apply prefixOf_nil.
  rewrite <- (flat_map_stageEvents_nil f R W S T scenes index).
  now apply prefixOf_flat_map.
Qed.

Section AttemptFacts.
Context {host : Host} {E : Type} {enc : Encoder E}.

(** X14. An attempt that returns has loaded the encoder, rendered and
    written every frame, run the encoder once, read [output.mp4] and deleted
    every frame file and the output, in that order and with nothing else in
    between; the blob it returns is of type video/mp4 and holds the bytes
    [readFile] gave.  It returns only for a non-empty list all of whose
    gradients are in the registry. *)
Theorem export_returns_video (scenes : list Scene) (options : option OnStage)
    (w w' : World E) (blob : Blob) :
  synthesizeVideo scenes options w = (Ok blob, w') ->
  trace w' = trace w ++ successEvents scenes /\
  mimeType blob = "video/mp4"%string /\
  (exists st st', readFile "output.mp4" st = (Ok (Uint8Array (blobBytes blob)), st')) /\
  scenes <> [] /\ Forall resolves scenes /\ supports2d = true /\
  writtenNames (successEvents scenes) = frameNames scenes /\
  execCalls (successEvents scenes) = [execArgs] /\
  readNames (successEvents scenes) = ["output.mp4"%string] /\
  deletedNames (successEvents scenes) = frameNames scenes ++ ["output.mp4"%string].
Proof.
  intro Run. destruct (synthesizeVideo_stops _ _ _ _ _ Run) as [evs [T Stop]].
  inversion Stop; subst. cbn [mimeType blobBytes].
  repeat (split; [assumption || reflexivity|]).
  unfold successEvents, writtenNames, execCalls, readNames, deletedNames, frameNames.
  rewrite !flat_map_app.
  rewrite !(flat_map_stageEvents_nil _ (fun _ _ => eq_refl) (fun _ => eq_refl)
              (fun _ _ => eq_refl)).
  rewrite !(flat_map_cleanupEvents_nil _ (fun _ => eq_refl)).
  fold (writtenNames (stageEvents (totalFramesOf scenes) scenes 0)).
  fold (deletedNames (cleanupEvents (map frameFilename (seq 0 (totalFrameCount scenes))))).
  rewrite writtenNames_stageEvents, deletedNames_cleanupEvents.
  cbn [loadEvents muxEvents flat_map List.app]. rewrite !app_nil_r.
  repeat split.
Qed.

(** X15. Whatever happens, an attempt calls the encoder's [exec] at most
    once and only after the last frame was rendered and written; it reads no
    file but [output.mp4], and it deletes nothing before that run.  Once
    the run is started the rest of the attempt is fixed in its order: the
    report muxing 0.1, the call of [exec], then as far as the try block
    gets the report 0.9, the read of [output.mp4] and the report 1, and
    only then the deletions, of every frame file in the order written and
    of [output.mp4] last, with nothing in between and nothing after. *)
Theorem encoder_runs_after_frames (scenes : list Scene) (options : option OnStage)
    (w w' : World E) (r : Result Blob) :
  synthesizeVideo scenes options w = (r, w') ->
  exists before after,
    trace w' = trace w ++ before ++ after /\
    (execCalls before = [] /\ readNames before = [] /\ deletedNames before = []) /\
    (writtenNames after = [] /\ renderedFrames after = []) /\
    (after = [] \/
     writtenNames before = frameNames scenes /\
     exists reading,
       prefixOf reading [EvStage muxing 0.9; EvRead "output.mp4"; EvStage muxing 1] /\
       after = [EvStage muxing 0.1; EvExec execArgs] ++ reading
                 ++ map EvDelete (frameNames scenes ++ ["output.mp4"%string])).
Proof.
  intro Run. destruct (synthesizeVideo_stops _ _ _ _ _ Run) as [evs [T Stop]].
  assert (Frames : forall stage,
             prefixOf stage (stageEvents (totalFramesOf scenes) scenes 0) ->
             execCalls (loadEvents ++ stage) = [] /\
             readNames (loadEvents ++ stage) = [] /\
             deletedNames (loadEvents ++ stage) = []).
  { intros stage P. unfold execCalls, readNames, deletedNames.
    rewrite !flat_map_app. cbn [loadEvents flat_map List.app].
    repeat split;
      exact (flat_map_stage_prefix_nil _ (fun _ _ => eq_refl) (fun _ => eq_refl)
               (fun _ _ => eq_refl) _ _ _ _ P). }
  assert (Tail : forall reading,
             prefixOf reading [EvStage muxing 0.9; EvRead "output.mp4"; EvStage muxing 1] ->
             exists before after,
               loadEvents ++ stageEvents (totalFramesOf scenes) scenes 0
                 ++ [EvStage muxing 0.1] ++ (EvExec execArgs :: reading)
                 ++ cleanupEvents (frameNames scenes)
               = before ++ after /\
               (execCalls before = [] /\ readNames before = [] /\
                deletedNames before = []) /\
               (writtenNames after = [] /\ renderedFrames after = []) /\
               (after = [] \/
                writtenNames before = frameNames scenes /\
                exists reading',
                  prefixOf reading'
                    [EvStage muxing 0.9; EvRead "output.mp4"; EvStage muxing 1] /\
                  after = [EvStage muxing 0.1; EvExec execArgs] ++ reading'
                            ++ map EvDelete (frameNames scenes ++ ["output.mp4"%string]))).
  { intros reading P.
    exists (loadEvents ++ stageEvents (totalFramesOf scenes) scenes 0),
           ([EvStage muxing 0.1; EvExec execArgs] ++ reading
              ++ map EvDelete (frameNames scenes ++ ["output.mp4"%string])).
    split.
    { unfold cleanupEvents. rewrite map_app. cbn [map List.app].
      now rewrite <- !app_assoc. }
    split; [apply Frames, prefixOf_refl|].
    assert (Quiet : writtenNames reading = [] /\ renderedFrames reading = []).
    { assert (Full : writtenNames
                       [EvStage muxing 0.9; EvRead "output.mp4"; EvStage muxing 1] = [] /\
                     renderedFrames
                       [EvStage muxing 0.9; EvRead "output.mp4"; EvStage muxing 1] = [])
        by (split; reflexivity).
      destruct Full as [FW FR].
      split; apply prefixOf_nil.
      - rewrite <- FW. now apply prefixOf_flat_map.
      - rewrite <- FR. now apply prefixOf_flat_map. }
    destruct Quiet as [QW QR].
    assert (Deletes : forall files,
               writtenNames (map EvDelete files) = [] /\
               renderedFrames (map EvDelete files) = []).
    { induction files as [|file more [IW IR]]; [now split|]. now split. }
    destruct (Deletes (frameNames scenes ++ ["output.mp4"%string])) as [DW DR].
    split.
    { unfold writtenNames, renderedFrames in *. rewrite !flat_map_app.
      cbn [flat_map List.app]. now rewrite QW, QR, DW, DR. }
    right. split.
    { unfold writtenNames. rewrite flat_map_app.
      fold (writtenNames (stageEvents (totalFramesOf scenes) scenes 0)).
      now rewrite writtenNames_stageEvents. }
    exists reading. now split. }
  inversion Stop; subst.
  - exists [], []. rewrite T. repeat split. now left.
  - exists [EvStage loading 0.1; EvLoad], []. rewrite T, app_nil_r. repeat split. now left.
  - exists loadEvents, []. rewrite T, app_nil_r. repeat split. now left.
  - exists (loadEvents ++ stage), []. rewrite T, app_nil_r.
    split; [reflexivity|]. split; [now apply Frames|]. split; [now split|now left].
  - match goal with M : muxError _ _ |- _ => destruct M as [[-> _] | [-> _]] end.
    + destruct (Tail []) as [before [after [Eq Rest]]]; [now eexists|].
      exists before, after. rewrite T. cbn [List.app] in *. rewrite Eq.
      split; [reflexivity|exact Rest].
    + destruct (Tail [EvStage muxing 0.9; EvRead "output.mp4"])
        as [before [after [Eq Rest]]]; [now eexists|].
      exists before, after. rewrite T. cbn [List.app] in *. rewrite Eq.
      split; [reflexivity|exact Rest].
  - destruct (Tail [EvStage muxing 0.9; EvRead "output.mp4"; EvStage muxing 1])
      as [before [after [Eq Rest]]]; [apply prefixOf_refl|].
    exists before, after. rewrite T. unfold successEvents, muxEvents.
    fold (frameNames scenes). cbn [List.app] in *. rewrite Eq.
    split; [reflexivity|exact Rest].
Qed.

(** X16. Every exception of an attempt is one of its own four errors, the
    missing-gradient error of one of the scenes, the SyntaxError that
    [addColorStop] throws in [drawAccent] for a scene whose accent with the
    alpha digits appended is no colour, or an exception that [getFFmpeg],
    [writeFile], [exec] or [readFile] threw: the attempt never ends in an
    exception of a [deleteFile], and the check of the data after the try
    block never fires. *)
Theorem errors_have_a_source (scenes : list Scene) (options : option OnStage)
    (w w' : World E) (e : Exn) :
  synthesizeVideo scenes options w = (Throw e, w') ->
  In e (ownErrors scenes) \/ raisedByCanvas scenes e \/ raisedByEncoder e.
Proof.
  intro Run. destruct (synthesizeVideo_stops _ _ _ _ _ Run) as [evs [T Stop]].
  unfold ownErrors, raisedByEncoder.
  inversion Stop; subst.
  - left. now left.
  - do 2 right. now left.
  - left. right. now left.
  - match goal with F : frameError _ _ |- _ =>
      destruct F as [[scene [I ->]] | [Canvas | [-> | Wr]]] end.
    + left. apply in_or_app. right. apply in_map_iff. now exists scene.
    + right. left. exact Canvas.
    + left. do 2 right. now left.
    + do 2 right. right. now left.
  - match goal with M : muxError _ _ |- _ =>
      destruct M as [[_ X] | [_ [-> | R]]] end.
    + do 2 right. do 2 right. now left.
    + left. do 3 right. now left.
    + do 2 right. do 3 right. exact R.
Qed.

(** X17. [cleanupFfmpeg] never throws, whatever the deletions do: it
    attempts the deletion of each file in order, then of [output.mp4], calls
    nothing else and leaves the React state alone; a name that working
    storage did not hold before is not held after. *)
Theorem cleanupFfmpeg_never_throws {storage : EncoderStorage E}
    (files : list string) (w : World E) :
  exists w',
    cleanupFfmpeg files w = (Ok tt, w') /\
    trace w' = trace w ++ map EvDelete (files ++ ["output.mp4"%string]) /\
    ui w' = ui w /\
    forall name, stored name (encoder w) = false -> stored name (encoder w') = false.
Proof.
  destruct (cleanupFfmpeg_trace files w) as [w' [R [T U]]].
  exists w'. split; [exact R|]. split; [|split; [exact U|]].
  - rewrite T. unfold cleanupEvents. now rewrite map_app.
  - clear T U. revert R. unfold cleanupFfmpeg, bind.
    destruct (cleanupFiles files w) as [[[]|e] w1] eqn:C.
    + intros R name S.
      assert (S1 : stored name (encoder w1) = false).
      { clear R. revert w w1 C S.
        induction files as [|file more IH]; intros w w1 C S.
        - cbn in C. unfold ret in C. now inversion C; subst.
        - cbn [cleanupFiles] in C. unfold bind, ignoring, call in C.
          destruct (deleteFile file (encoder w)) as [r e'] eqn:D.
          apply (IH _ _ C). cbn [encoder].
          exact (deleteFile_shrinks _ _ _ _ _ D S). }
      unfold ignoring, call in R.
      destruct (deleteFile "output.mp4" (encoder w1)) as [r e'] eqn:D.
      inversion R; subst. cbn [encoder].
      exact (deleteFile_shrinks _ _ _ _ _ D S1).
    + destruct (cleanupFiles_trace files w) as [w2 [R2 _]]. congruence.
Qed.

End AttemptFacts.

Section UiFacts.
Context {host : Host} {E : Type} {enc : Encoder E}.
Variable keeps : Ui -> Prop.
Variable onStage : OnStage.
Hypothesis onStage_keeps : forall stage fraction u, keeps u -> keeps (onStage stage fraction u).

Lemma renderFrame_ui T scene n frame st (w : World E) r w' :
  renderFrame onStage T scene n frame st w = (r, w') -> keeps (ui w) -> keeps (ui w').
Proof.
  unfold renderFrame.
  destruct (renderSceneFrame scene (frameProgress n frame) (context st)) as [[[]|e] c'].
  - destruct (canvasToUint8 c') as [pixels|e].
    + unfold bind, call, report, ret, logged. cbn [trace encoder ui].
      destruct (writeFile (frameFilename (frameIndex st)) pixels (encoder w))
        as [[[]|e] e']; intro H; inversion H; subst; cbn [ui]; auto.
    + intro H. inversion H. subst. auto.
  - intro H. inversion H. subst. auto.
Qed.

Lemma frameLoop_ui T scene n frameNumbers : forall st (w : World E) r w',
  frameLoop onStage T scene n frameNumbers st w = (r, w') ->
  keeps (ui w) -> keeps (ui w').
Proof.
  induction frameNumbers as [|frame more IH]; intros st w r w' H K.
  - inversion H. now subst.
  - simpl in H. unfold bind in H.
    destruct (renderFrame onStage T scene n frame st w) as [[st1|e] w1] eqn:F.
    + eapply IH; [exact H|]. eapply renderFrame_ui; eauto.
    + inversion H. subst. eapply renderFrame_ui; eauto.
Qed.

Lemma sceneLoop_ui T scenes : forall st (w : World E) r w',
  sceneLoop onStage T scenes st w = (r, w') -> keeps (ui w) -> keeps (ui w').
Proof.
  induction scenes as [|scene more IH]; intros st w r w' H K.
  - inversion H. now subst.
  - simpl in H. unfold bind in H.
    destruct (frameLoop onStage T scene (framesFor (duration scene))
                (seq 0 (Z.to_nat (framesFor (duration scene)))) st w)
      as [[st1|e] w1] eqn:F.
    + eapply IH; [exact H|]. eapply frameLoop_ui; eauto.
    + inversion H. subst. eapply frameLoop_ui; eauto.
Qed.

Lemma muxAndRead_ui (w : World E) r w' :
  muxAndRead onStage w = (r, w') -> keeps (ui w) -> keeps (ui w').
Proof.
  unfold muxAndRead, bind, call, report, throw, ret. cbn [trace encoder ui].
  destruct (exec execArgs (encoder w)) as [[[]|e] e1]; cbn [trace encoder ui].
  - destruct (readFile "output.mp4" e1) as [[[bytes|text]|e] e2];
      intro H; inversion H; subst; cbn [ui]; auto.
  - intro H; inversion H; subst; cbn [ui]; auto.
Qed.

Lemma synthesizeVideo_ui scenes (w : World E) r w' :
  synthesizeVideo scenes (Some onStage) w = (r, w') -> keeps (ui w) -> keeps (ui w').
Proof.
  unfold synthesizeVideo.
  destruct (List.length scenes =? 0)%nat.
  { intro H. inversion H. now subst. }
  unfold loadEncoder, bind at 1 2 3, report at 1 2, call. cbn [trace encoder ui].
  destruct (getFFmpeg (encoder w)) as [[[]|e] e0].
  2:{ intro H. inversion H. subst. cbn [ui]. auto. }
  cbn [trace encoder ui].
  destruct supports2d; cbn [negb].
  2:{ intro H. inversion H. subst. cbn [ui]. auto. }
  unfold bind at 1.
  match goal with
  | |- context [sceneLoop ?o ?t ?s ?st ?w0] =>
      destruct (sceneLoop o t s st w0) as [[st1|e] w1] eqn:Loop
  end.
  2:{ intros H K. inversion H. subst.
      eapply sceneLoop_ui; [exact Loop|]. cbn [ui]. auto. }
  unfold bind, report, tryFinally. cbn [trace encoder ui].
  match goal with
  | |- context [muxAndRead ?o ?w0] =>
      destruct (muxAndRead o w0) as [rm wm] eqn:Mux
  end.
  destruct (cleanupFfmpeg_trace (writtenFiles st1) wm) as [wc [Rc [_ Uc]]].
  rewrite Rc. intros H K.
  assert (Kc : keeps (ui wc)).
  { rewrite Uc. eapply muxAndRead_ui; [exact Mux|]. cbn [ui].
    apply onStage_keeps. eapply sceneLoop_ui; [exact Loop|]. cbn [ui]. auto. }
  destruct rm as [[d|]|e]; unfold ret, throw in H; inversion H; now subst.
Qed.

End UiFacts.

Section PageFacts.
Context {host : Host} {E : Type} {enc : Encoder E}.



End PageFacts.

Section Liveness.
Context {host : Host} {E : Type} {enc : Encoder E}.
Hypothesis decoder_present : atob <> None.
Hypothesis writes : forall name bytes e, exists e', writeFile name bytes e = (Ok tt, e').

Lemma renderFrame_returns onStage T scene n frame st (w : World E) :
  resolves scene -> acceptedAccent scene ->
  exists st' w', renderFrame onStage T scene n frame st w = (Ok st', w').
Proof.
  intros Res Acc. unfold renderFrame.
  destruct (renderSceneFrame scene (frameProgress n frame) (context st))
    as [[[]|e] c'] eqn:R.
  - unfold canvasToUint8. destruct atob as [decoder|]; [|congruence].
    unfold bind, call, report, ret, logged. cbn [trace encoder ui].
    match goal with
    | |- context [writeFile ?name ?bytes ?e] =>
        destruct (writes name bytes e) as [e' W]; rewrite W
    end.
    eauto.
  - exfalso. unfold resolves in Res.
    destruct (find (fun entry => string_eqb (gid entry) (gradientId scene)) GRADIENTS)
      as [gradient|] eqn:G; [|congruence].
    destruct (renderSceneFrame_effect scene (frameProgress n frame) gradient
                (current (context st)) G Acc) as [ops [path' Eff]].
    rewrite (Eff (context st) eq_refl) in R. discriminate.
Qed.

Lemma frameLoop_returns onStage T scene n frameNumbers : forall st (w : World E),
  resolves scene -> acceptedAccent scene ->
  exists st' w', frameLoop onStage T scene n frameNumbers st w = (Ok st', w').
Proof.
  induction frameNumbers as [|frame more IH]; intros st w Res Acc.
  - now exists st, w.
  - cbn [frameLoop]. unfold bind.
    destruct (renderFrame_returns onStage T scene n frame st w Res Acc) as [st1 [w1 ->]].
    now apply IH.
Qed.

Lemma sceneLoop_returns onStage T scenes : forall st (w : World E),
  Forall resolves scenes -> Forall acceptedAccent scenes ->
  exists st' w', sceneLoop onStage T scenes st w = (Ok st', w').
Proof.
  induction scenes as [|scene more IH]; intros st w Res Acc.
  - now exists st, w.
  - cbn [sceneLoop]. unfold bind. inversion Res; subst. inversion Acc; subst.
    destruct (frameLoop_returns onStage T scene (framesFor (duration scene))
                (seq 0 (Z.to_nat (framesFor (duration scene)))) st w)
      as [st1 [w1 ->]]; [assumption|assumption|].
    now apply IH.
Qed.

End Liveness.

Section DependableRuns.
Context {host : Host} {E : Type} {enc : Encoder E}.

(** X19. Take an encoder whose loading, writing and running do not throw
    and whose output reads back as bytes, a browser that has a 2D context
    and a base64 decoder, and a non-empty list of scenes.  The attempt
    returns, and then with a video/mp4 blob after the full sequence of
    events, exactly when every scene's gradient is in the registry and every
    scene's accent with the alpha digits appended is a colour. *)
Theorem dependable_export_succeeds (scenes : list Scene) (options : option OnStage)
    (w : World E) :
  dependable -> supports2d = true -> atob <> None -> scenes <> [] ->
  (Forall resolves scenes -> Forall acceptedAccent scenes ->
   exists blob w',
     synthesizeVideo scenes options w = (Ok blob, w') /\
     mimeType blob = "video/mp4"%string /\
     trace w' = trace w ++ successEvents scenes) /\
  (forall blob w',
      synthesizeVideo scenes options w = (Ok blob, w') ->
      Forall resolves scenes /\ Forall acceptedAccent scenes).
Proof.
  intros [Load [Writes Runs]] Two Decoder NE. split.
  - intros Res Acc.
    destruct (synthesizeVideo scenes options w) as [r w'] eqn:Run.
    destruct (synthesizeVideo_stops _ _ _ _ _ Run) as [evs [T Stop]].
    destruct r as [blob|e].
    + exists blob, w'. split; [reflexivity|]. inversion Stop; subst. now split.
    + exfalso. revert Run. unfold synthesizeVideo.
      destruct (List.length scenes =? 0)%nat eqn:Empty.
      { apply length_zero_iff in Empty. contradiction. }
      unfold loadEncoder, bind at 1 2 3, report at 1 2, call. cbn [trace encoder ui].
      destruct (Load (encoder w)) as [e0 ->]. cbn [trace encoder ui].
      rewrite Two. cbn [negb]. unfold bind at 1.
      match goal with
      | |- context [sceneLoop ?o ?t ?s ?st ?w0] =>
          destruct (sceneLoop_returns Decoder Writes o t s st w0 Res Acc)
            as [st1 [w1 ->]]
      end.
      unfold tryFinally, muxAndRead, bind, report, call, ret. cbn [trace encoder ui].
      destruct (Runs execArgs (encoder w1)) as [e1 [-> [bytes [e2 Rd]]]].
      cbn [trace encoder ui]. rewrite Rd. cbn [trace encoder ui].
      match goal with
      | |- context [cleanupFfmpeg ?files ?wm] =>
          destruct (cleanupFfmpeg_trace files wm) as [wc [-> _]]
      end.
      discriminate.
  - intros blob w' Run.
    destruct (synthesizeVideo_stops _ _ _ _ _ Run) as [evs [T Stop]].
    inversion Stop; subst. now split.
Qed.

End DependableRuns.

Lemma lookup_after_write name bytes (fs : Double.MemFs) :
  Double.lookup name (Double.without name fs ++ [(name, bytes)]) = Some bytes.
Proof.
  unfold Double.lookup, Double.without.
  induction fs as [|[other data] more IH]; cbn [filter List.app find fst snd option_map].
  - unfold string_eqb. now rewrite String.eqb_refl.
  - destruct (string_eqb other name) eqn:S; cbn [negb]; [exact IH|].
    cbn [List.app find fst]. rewrite S. exact IH.
Qed.

Lemma memEncoder_dependable :
  @dependable Double.MemFs (Double.memEncoder Double.noFaults).
Proof.
  split; [|split].
  - intro e. now exists e.
  - intros name bytes e. eexists. reflexivity.
  - intros args e. eexists. split; [reflexivity|].
    cbn [readFile Double.memEncoder Double.noFaults Double.failRead Double.textOutput].
    rewrite lookup_after_write. eauto.
Qed.

Lemma oneScene_resolves : Forall (@resolves Double.browser) Double.oneScene.
Proof. constructor; [|constructor]. unfold resolves. cbn. discriminate. Qed.

Lemma oneScene_nonempty : Double.oneScene <> [].
Proof. unfold Double.oneScene. discriminate. Qed.

Lemma browser_decodes : @atob Double.browser <> None.
Proof. cbn. discriminate. Qed.

Lemma oneScene_accepted : Forall (@acceptedAccent Double.browser) Double.oneScene.
Proof. repeat constructor. Qed.

Lemma dependable_export_succeeds_witness :
  exists blob w',
    @synthesizeVideo Double.browser _ (Double.memEncoder Double.noFaults)
      Double.oneScene None Double.start = (Ok blob, w') /\
    mimeType blob = "video/mp4"%string.
Proof.
  destruct (proj1 (@dependable_export_succeeds Double.browser _
                     (Double.memEncoder Double.noFaults) Double.oneScene None
                     Double.start memEncoder_dependable eq_refl browser_decodes
                     oneScene_nonempty)
                  oneScene_resolves oneScene_accepted)
    as [blob [w' [Run [Mime _]]]].
  exists blob, w'. split; [exact Run|exact Mime].
Defined.

Lemma export_returns_video_witness :
  exists blob w',
    @synthesizeVideo Double.browser _ (Double.memEncoder Double.noFaults)
      Double.oneScene None Double.start = (Ok blob, w') /\
    trace w' = trace Double.start ++ successEvents Double.oneScene.
Proof.
  destruct (@synthesizeVideo Double.browser _ (Double.memEncoder Double.noFaults)
              Double.oneScene None Double.start) as [[blob|e] w'] eqn:Run.
  - exists blob, w'. split; [reflexivity|].
    exact (proj1 (export_returns_video _ _ _ _ _ Run)).
  - exfalso. vm_compute in Run. discriminate Run.
Defined.

Lemma encoder_runs_after_frames_witness :
  exists r w' before after,
    @synthesizeVideo Double.browser _ (Double.memEncoder Double.failingExec)
      Double.oneScene None Double.start = (r, w') /\
    trace w' = trace Double.start ++ before ++ after /\
    execCalls before = [] /\ writtenNames after = [].
Proof.
  destruct (@synthesizeVideo Double.browser _ (Double.memEncoder Double.failingExec)
              Double.oneScene None Double.start) as [r w'] eqn:Run.
  destruct (encoder_runs_after_frames _ _ _ _ _ Run)
    as [before [after [T [[X _] [[W _] _]]]]].
  exists r, w', before, after.
  split; [reflexivity|]. split; [exact T|]. split; [exact X|exact W].
Defined.

Lemma errors_have_a_source_witness :
  exists e w',
    @synthesizeVideo Double.browser _ (Double.memEncoder Double.noFaults)
      [Double.namedAccentScene] None Double.start = (Throw e, w') /\
    (In e (@ownErrors Double.browser [Double.namedAccentScene]) \/
     @raisedByCanvas Double.browser [Double.namedAccentScene] e \/
     @raisedByEncoder _ (Double.memEncoder Double.noFaults) e).
Proof.
  destruct (@synthesizeVideo Double.browser _ (Double.memEncoder Double.noFaults)
              [Double.namedAccentScene] None Double.start) as [[blob|e] w'] eqn:Run.
  - exfalso. vm_compute in Run. discriminate Run.
  - exists e, w'. split; [reflexivity|].
    exact (errors_have_a_source _ _ _ _ _ Run).
Defined.

Lemma cleanupFfmpeg_never_throws_witness :
  exists w',
    @cleanupFfmpeg _ (Double.memEncoder Double.noFaults)
      ["frame_00000.png"; "frame_00001.png"]%string Double.start = (Ok tt, w') /\
    ui w' = ui Double.start.
Proof.
  destruct (@cleanupFfmpeg_never_throws _ (Double.memEncoder Double.noFaults)
              (memEncoder_storage Double.noFaults)
              ["frame_00000.png"; "frame_00001.png"]%string Double.start)
    as [w' [R [_ [U _]]]].
  exists w'. split; [exact R|exact U].
Defined.

(** ** The progress bar *)

Lemma nondecreasing_tail x l : nondecreasing (x :: l) -> nondecreasing l.
Proof. destruct l; cbn; tauto. Qed.

Lemma nondecreasing_cons x l :
  nondecreasing l -> (forall y, In y l -> x <= y) -> nondecreasing (x :: l).
Proof.
  intros N B. destruct l as [|y l]; [exact I|].
  split; [apply B; now left|exact N].
Qed.

Lemma nondecreasing_app (m : Q) (l1 l2 : list Q) :
  nondecreasing l1 -> nondecreasing l2 ->
  (forall x, In x l1 -> x <= m) -> (forall y, In y l2 -> m <= y) ->
  nondecreasing (l1 ++ l2).
Proof.
  intros N1 N2 B1 B2. induction l1 as [|x l1 IH]; [exact N2|].
  cbn [List.app]. destruct l1 as [|x' l1].
  - cbn [List.app]. apply nondecreasing_cons; [exact N2|].
    intros y I. apply Qle_trans with m; [apply B1; now left|now apply B2].
  - cbn [List.app]. split; [apply N1|].
    apply IH; [apply N1|]. intros z I. apply B1. now right.
Qed.

Lemma nondecreasing_prefix (l1 l2 : list Q) :
  nondecreasing (l1 ++ l2) -> nondecreasing l1.
Proof.
  induction l1 as [|x l1 IH]; [intros; exact I|].
  intro N. destruct l1 as [|y l1]; [exact I|].
  cbn [List.app] in *. destruct N as [L N]. split; [exact L|now apply IH].
Qed.

Lemma nondecreasing_map_scaled (a b : Q) (l : list Q) :
  0 <= b -> nondecreasing l -> nondecreasing (map (fun f => a + f * b) l).
Proof.
  intros B. induction l as [|x l IH]; [intros; exact I|].
  intro N. destruct l as [|y l]; [exact I|].
  cbn [map] in *. destruct N as [L N]. split; [|now apply IH]. nra.
Qed.

Lemma stageSequence_framesEvents T scene n frameNumbers : forall index,
  stageSequence (framesEvents T scene n frameNumbers index) =
  map (fun written => (frames, frameFraction T written))
      (seq (S index) (List.length frameNumbers)).
Proof.
  induction frameNumbers as [|frame more IH]; intro index; [reflexivity|].
  cbn [framesEvents frameEvents List.app]. unfold stageSequence in *.
  cbn [flat_map List.app List.length seq map]. now rewrite IH.
Qed.

Lemma stageSequence_stageEvents T scenes : forall index,
  stageSequence (stageEvents T scenes index) =
  map (fun written => (frames, frameFraction T written))
      (seq (S index) (totalFrameCount scenes)).
Proof.
  induction scenes as [|scene more IH]; intro index; [reflexivity|].
  cbn [stageEvents]. unfold stageSequence in *. rewrite flat_map_app.
  fold (stageSequence (framesEvents T scene (framesFor (duration scene))
                         (seq 0 (sceneFrameCount scene)) index)).
  rewrite stageSequence_framesEvents, IH, length_seq.
  change (totalFrameCount (scene :: more))
    with (sceneFrameCount scene + totalFrameCount more)%nat.
  rewrite seq_app, map_app.
  now replace (S index + sceneFrameCount scene)%nat
    with (S (index + sceneFrameCount scene)) by lia.
Qed.

Lemma framesFor_upper (d : Q) :
  MIN_DURATION <= d -> inject_Z (framesFor d) <= d * 24 + (1 # 2).
Proof.
  unfold MIN_DURATION, framesFor, Math_maxZ, Math_round. intro Lo.
  change (inject_Z FPS) with 24.
  assert (L : inject_Z 48 <= d * 24 + (1 # 2)) by (change (inject_Z 48) with 48; lra).
  apply Qfloor_resp_le in L. rewrite Qfloor_Z in L.
  rewrite Z.max_r by lia. apply Qfloor_le.
Qed.

Lemma totalFrameCount_upper (scenes : list Scene) :
  Forall inBounds scenes ->
  inject_Z (Z.of_nat (totalFrameCount scenes))
    <= sumOfDurations scenes * 24 + inject_Z (Z.of_nat (List.length scenes)) * (1 # 2).
Proof.
  induction 1 as [|scene more [Lo _] _ IH].
  - vm_compute. discriminate.
  - change (totalFrameCount (scene :: more))
      with (sceneFrameCount scene + totalFrameCount more)%nat.
    cbn [sumOfDurations fold_right List.length].
    fold (sumOfDurations more).
    rewrite Nat2Z.inj_add, Nat2Z.inj_succ, <- Z.add_1_r, !inject_Z_plus.
    unfold sceneFrameCount. rewrite Z2Nat.id.
    + pose proof (framesFor_upper (duration scene) Lo).
      change (inject_Z 1) with 1. lra.
    + unfold framesFor, Math_maxZ. lia.
Qed.

Lemma totalFramesOf_lower (scenes : list Scene) :
  sumOfDurations scenes * 24 - (1 # 2) < inject_Z (totalFramesOf scenes).
Proof.
  unfold totalFramesOf, Math_maxZ, Math_round. change (inject_Z FPS) with 24.
  rewrite total_duration_sum.
  set (x := sumOfDurations scenes * 24 + (1 # 2)).
  pose proof (Qlt_floor x) as U. rewrite inject_Z_plus in U.
  change (inject_Z 1) with 1 in U.
  assert (M : inject_Z (Qfloor x) <= inject_Z (Z.max 1 (Qfloor x))).
  { rewrite <- Zle_Qle. lia. }
  subst x. lra.
Qed.

Lemma sumOfDurations_lower (scenes : list Scene) :
  Forall inBounds scenes ->
  inject_Z (Z.of_nat (List.length scenes)) * 2 <= sumOfDurations scenes.
Proof.
  induction 1 as [|scene more [Lo _] _ IH].
  - vm_compute. discriminate.
  - cbn [sumOfDurations fold_right List.length]. fold (sumOfDurations more).
    rewrite Nat2Z.inj_succ, <- Z.add_1_r, inject_Z_plus.
    change (inject_Z 1) with 1. unfold MIN_DURATION in Lo. lra.
Qed.

(** The frames written exceed [totalFrames] by at most a thirtieth. *)
Lemma frame_overshoot_small (scenes : list Scene) :
  scenes <> [] -> Forall inBounds scenes ->
  30 * inject_Z (Z.of_nat (totalFrameCount scenes))
    <= 31 * inject_Z (totalFramesOf scenes).
Proof.
  intros NE B.
  pose proof (totalFrameCount_upper scenes B) as U.
  pose proof (totalFramesOf_lower scenes) as L.
  pose proof (sumOfDurations_lower scenes B) as S.
  assert (One : 1 <= inject_Z (Z.of_nat (List.length scenes))).
  { change 1 with (inject_Z 1). rewrite <- Zle_Qle.
    destruct scenes; [congruence|cbn [List.length]; lia]. }
  lra.
Qed.

Lemma frameFraction_bounds (scenes : list Scene) (written : nat) :
  scenes <> [] -> Forall inBounds scenes ->
  (written <= totalFrameCount scenes)%nat ->
  0 <= frameFraction (totalFramesOf scenes) written /\
  frameFraction (totalFramesOf scenes) written <= 31 # 30.
Proof.
  intros NE B Le. unfold frameFraction.
  pose proof (totalFramesOf_positive scenes) as P.
  assert (PT : 0 < inject_Z (totalFramesOf scenes)).
  { change 0 with (inject_Z 0). rewrite <- Zlt_Qlt. lia. }
  assert (W : inject_Z (Z.of_nat written)
              <= inject_Z (Z.of_nat (totalFrameCount scenes))).
  { rewrite <- Zle_Qle. lia. }
  assert (W0 : 0 <= inject_Z (Z.of_nat written)).
  { change 0 with (inject_Z 0). rewrite <- Zle_Qle. lia. }
  pose proof (frame_overshoot_small scenes NE B) as O.
  split.
  - apply Qle_shift_div_l; [exact PT|]. lra.
  - apply Qle_shift_div_r; [exact PT|]. lra.
Qed.

Lemma barValue_frames (fraction : Q) : barValue (frames, fraction) = 0.2 + fraction * 0.6.
Proof. reflexivity. Qed.

Lemma stageSequence_success (scenes : list Scene) :
  stageSequence (successEvents scenes) =
  [(loading, 0.1); (loading, 1)]
    ++ map (fun written => (frames, frameFraction (totalFramesOf scenes) written))
           (seq 1 (totalFrameCount scenes))
    ++ [(muxing, 0.1); (muxing, 0.9); (muxing, 1)].
Proof.
  unfold successEvents.
  assert (C : stageSequence (cleanupEvents (map frameFilename
                                              (seq 0 (totalFrameCount scenes)))) = []).
  { apply flat_map_cleanupEvents_nil. reflexivity. }
  unfold stageSequence in *. rewrite !flat_map_app, C.
  fold (stageSequence (stageEvents (totalFramesOf scenes) scenes 0)).
  rewrite stageSequence_stageEvents. reflexivity.
Qed.

Lemma bar_of_success (scenes : list Scene) :
  scenes <> [] -> Forall inBounds scenes ->
  nondecreasing (map barValue (stageSequence (successEvents scenes))) /\
  Forall (fun value => 0.05 <= value /\ value <= 1)
         (map barValue (stageSequence (successEvents scenes))).
Proof.
  intros NE B. rewrite stageSequence_success, !map_app, map_map.
  set (T := totalFramesOf scenes).
  assert (Mid : forall value,
             In value (map (fun written => barValue (frames, frameFraction T written))
                           (seq 1 (totalFrameCount scenes))) ->
             0.2 <= value /\ value <= 0.82).
  { intros value I. apply in_map_iff in I. destruct I as [written [<- I]].
    apply in_seq in I. rewrite barValue_frames.
    destruct (frameFraction_bounds scenes written NE B) as [Lo Hi]; [lia|].
    fold T in Lo, Hi. split; lra. }
  assert (Rise : nondecreasing
                   (map (fun written => barValue (frames, frameFraction T written))
                        (seq 1 (totalFrameCount scenes)))).
  { rewrite <- (map_map (frameFraction T) (fun f => 0.2 + f * 0.6)).
    apply nondecreasing_map_scaled; [lra|].
    apply frameFraction_nondecreasing. apply totalFramesOf_positive. }
  assert (Head : forall value,
             In value (map barValue [(loading, 0.1); (loading, 1)]) ->
             0.05 <= value /\ value <= 0.2).
  { intros value [<-|[<-|[]]]; cbn; split; lra. }
  assert (Tail : forall value,
             In value (map barValue [(muxing, 0.1); (muxing, 0.9); (muxing, 1)]) ->
             0.82 <= value /\ value <= 1).
  { intros value [<-|[<-|[<-|[]]]]; cbn; split; lra. }
  split.
  - apply (nondecreasing_app 0.2).
    + cbn. split; [lra|exact I].
    + apply (nondecreasing_app 0.82).
      * exact Rise.
      * cbn. repeat split; lra.
      * intros x I. now apply Mid.
      * intros y I. now apply Tail.
    + intros x I. now apply Head.
    + intros y I. apply in_app_or in I. destruct I as [I|I].
      * now apply Mid.
      * apply Tail in I. lra.
  - apply Forall_forall. intros value I.
    apply in_app_or in I. destruct I as [I|I]; [apply Head in I; lra|].
    apply in_app_or in I. destruct I as [I|I]; [apply Mid in I|apply Tail in I]; lra.
Qed.

Section BarFacts.
Context {host : Host} {E : Type} {enc : Encoder E}.

Lemma stops_stage_prefix (scenes : list Scene) (r : Result Blob) (evs : list Event) :
  stopsAt scenes r evs ->
  prefixOf (stageSequence evs) (stageSequence (successEvents scenes)).
Proof.
  assert (Load : prefixOf loadEvents (successEvents scenes)).
  { unfold successEvents. eexists. reflexivity. }
  intro Stop. inversion Stop; subst.
  - eexists. reflexivity.
  - rewrite stageSequence_success. eexists. reflexivity.
  - now apply prefixOf_flat_map.
  - apply prefixOf_flat_map. unfold successEvents.
    apply prefixOf_app_l. now apply prefixOf_app_r.
  - assert (P : prefixOf mux muxEvents).
    { match goal with M : muxError _ _ |- _ => destruct M as [[-> _] | [-> _]] end;
        eexists; reflexivity. }
    assert (Eq : stageSequence
                   (loadEvents ++ stageEvents (totalFramesOf scenes) scenes 0
                      ++ [EvStage muxing 0.1] ++ mux ++ cleanupEvents (frameNames scenes))
                 = stageSequence
                     (loadEvents ++ stageEvents (totalFramesOf scenes) scenes 0
                        ++ [EvStage muxing 0.1] ++ mux)).
    { unfold stageSequence. rewrite !flat_map_app.
      rewrite (flat_map_cleanupEvents_nil _ (fun _ => eq_refl)).
      now rewrite app_nil_r. }
    rewrite Eq. apply prefixOf_flat_map. unfold successEvents.
    do 3 apply prefixOf_app_l. now apply prefixOf_app_r.
  - apply prefixOf_refl.
Qed.

(** X20. With every duration within the bounds, the progress the page
    shows on the stage reports of an attempt never recedes and stays within
    [0.05, 1], however far the attempt gets, although the fraction of the
    frame stage itself can pass 1: it passes it by a thirtieth at most. *)
Theorem progress_bar_never_recedes (scenes : list Scene) (options : option OnStage)
    (w w' : World E) (r : Result Blob) :
  Forall inBounds scenes ->
  synthesizeVideo scenes options w = (r, w') ->
  exists evs,
    trace w' = trace w ++ evs /\
    nondecreasing (map barValue (stageSequence evs)) /\
    Forall (fun value => 0.05 <= value /\ value <= 1)
           (map barValue (stageSequence evs)) /\
    Forall (fun fraction => 0 <= fraction /\ fraction <= 31 # 30)
           (stageReports frames evs).
Proof.
  intros B Run. destruct (synthesizeVideo_stops _ _ _ _ _ Run) as [evs [T Stop]].
  exists evs. split; [exact T|].
  destruct scenes as [|scene more].
  { inversion Stop; subst; try congruence. cbn. repeat split; constructor. }
  assert (NE : scene :: more <> []) by discriminate.
  destruct (stops_stage_prefix _ _ _ Stop) as [rest Eq].
  destruct (bar_of_success (scene :: more) NE B) as [Rise Within].
  rewrite Eq, map_app in Rise, Within.
  split; [now apply nondecreasing_prefix in Rise|].
  split; [now apply Forall_app in Within|].
  destruct (synthesizeVideo_frame_stage _ _ _ _ _ Run) as [written [reported [_ [Le [_ [F _]]]]]].
  rewrite T in F. unfold stageReports in F. rewrite flat_map_app in F.
  apply app_inv_head in F. unfold stageReports. rewrite F.
  apply Forall_forall. intros fraction I. apply in_map_iff in I.
  destruct I as [k [<- I]]. apply in_seq in I.
  apply frameFraction_bounds; [exact NE|exact B|lia].
Qed.

End BarFacts.

Lemma oneScene_inBounds : Forall inBounds Double.oneScene.
Proof. repeat constructor; cbn; unfold MIN_DURATION, MAX_DURATION; lra. Qed.

Lemma progress_bar_never_recedes_witness :
  exists r w' evs,
    @synthesizeVideo Double.browser _ (Double.memEncoder Double.failingExec)
      Double.oneScene None Double.start = (r, w') /\
    trace w' = trace Double.start ++ evs /\
    nondecreasing (map barValue (stageSequence evs)).
Proof.
  destruct (@synthesizeVideo Double.browser _ (Double.memEncoder Double.failingExec)
              Double.oneScene None Double.start) as [r w'] eqn:Run.
  destruct (progress_bar_never_recedes _ _ _ _ _ oneScene_inBounds Run)
    as [evs [T [Rise _]]].
  exists r, w', evs. split; [reflexivity|]. split; [exact T|exact Rise].
Defined.

(** ** The preview clock *)

Lemma raf_step (previewTime totalDuration : Q) (startTimestamp : option Q)
    (timestamp : Q) :
  0 < totalDuration ->
  clockRuns startTimestamp previewTime timestamp ->
  0 <= snd (raf previewTime totalDuration startTimestamp timestamp) /\
  snd (raf previewTime totalDuration startTimestamp timestamp) < totalDuration /\
  fst (raf previewTime totalDuration startTimestamp timestamp) <= timestamp.
Proof.
  intros Pos Runs. unfold raf.
  set (start := match startTimestamp with
                | None => timestamp - previewTime * 1000
                | Some s => s
                end).
  assert (S : start <= timestamp).
  { subst start. destruct startTimestamp as [s|]; cbn in Runs; lra. }
  destruct (Qle_bool totalDuration ((timestamp - start) / 1000)) eqn:Wrap; cbn [fst snd].
  - split; [lra|]. split; [exact Pos|lra].
  - apply Qle_bool_false_iff in Wrap.
    assert (Eq : (timestamp - start) / 1000 == (timestamp - start) * (1 # 1000))
      by reflexivity.
    rewrite Eq in *. split; [nra|]. split; [exact Wrap|exact S].
Qed.

Lemma rafRun_within (previewTime totalDuration : Q) (timestamps : list Q) :
  0 < totalDuration ->
  forall startTimestamp,
    match timestamps with
    | [] => True
    | first :: later =>
        clockRuns startTimestamp previewTime first /\ ascending first later
    end ->
    Forall (fun shown => 0 <= shown /\ shown < totalDuration)
           (rafRun previewTime totalDuration startTimestamp timestamps).
Proof.
  intro Pos. induction timestamps as [|timestamp later IH]; intros startTimestamp H.
  - constructor.
  - destruct H as [Runs Asc]. cbn [rafRun].
    pose proof (raf_step previewTime totalDuration startTimestamp timestamp Pos Runs)
      as [Lo [Hi St]].
    destruct (raf previewTime totalDuration startTimestamp timestamp) as [start shown].
    cbn [fst snd] in *. constructor; [now split|].
    apply IH. destruct later as [|next later]; [exact I|].
    destruct Asc as [Le Asc]. split; [|exact Asc]. cbn [clockRuns]. lra.
Qed.

(** X21. The preview clock.  The first animation frame after the effect
    starts shows the time the preview was at, so resuming does not jump.
    While the effect runs and the browser's timestamps do not go back, with
    a positive runtime every time shown lies in [0, totalDuration): at the
    end the clock wraps round to 0 and restarts from that timestamp. *)
Theorem preview_clock_wraps (previewTime totalDuration : Q) (timestamps : list Q) :
  0 <= previewTime -> 0 < totalDuration ->
  (forall timestamp,
      previewTime < totalDuration ->
      snd (raf previewTime totalDuration None timestamp) == previewTime) /\
  (forall start timestamp,
      totalDuration <= (timestamp - start) / 1000 ->
      raf previewTime totalDuration (Some start) timestamp = (timestamp, 0)) /\
  (ascending (hd 0 timestamps) timestamps ->
   Forall (fun shown => 0 <= shown /\ shown < totalDuration)
          (rafRun previewTime totalDuration None timestamps)).
Proof.
  intros P0 Pos. split; [|split].
  - intros timestamp Lt. unfold raf.
    assert (Eq : (timestamp - (timestamp - previewTime * 1000)) / 1000 == previewTime)
      by field.
    destruct (Qle_bool totalDuration
                ((timestamp - (timestamp - previewTime * 1000)) / 1000)) eqn:Wrap.
    + apply Qle_bool_iff in Wrap. rewrite Eq in Wrap. lra.
    + exact Eq.
  - intros start timestamp Over. unfold raf.
    apply Qle_bool_iff in Over. now rewrite Over.
  - intro Asc. apply rafRun_within; [exact Pos|].
    destruct timestamps as [|first later]; [exact I|].
    cbn [hd ascending] in Asc. split; [exact P0|apply Asc].
Qed.

Lemma preview_clock_wraps_witness :
  Forall (fun shown => 0 <= shown /\ shown < 10.5)
         (rafRun 10 10.5 None [16; 266; 516; 766]).
Proof.
  apply (proj2 (proj2 (preview_clock_wraps 10 10.5 [16; 266; 516; 766]
                         ltac:(lra) ltac:(lra)))).
  cbn. repeat split; lra.
Defined.

(** ** The timeline strip *)

Lemma Qeq_bool_false_pos (x : Q) : 0 < x -> Qeq_bool x 0 = false.
Proof.
  intro P. destruct (Qeq_bool x 0) eqn:B; [|reflexivity].
  apply Qeq_bool_iff in B. lra.
Qed.

Lemma timelineSpan_within (totalDuration : Q) (count : nat) (sceneSeconds : Q) :
  0 < sceneSeconds -> sceneSeconds <= totalDuration ->
  (1 <= timelineSpan totalDuration count sceneSeconds <= 12)%Z.
Proof.
  intros P Le. unfold timelineSpan, Math_maxZ, Math_round.
  assert (PT : 0 < totalDuration) by lra.
  rewrite (Qeq_bool_false_pos totalDuration PT).
  assert (R : 0 < sceneSeconds / totalDuration /\ sceneSeconds / totalDuration <= 1).
  { split.
    - apply Qlt_shift_div_l; [exact PT|lra].
    - apply Qle_shift_div_r; [exact PT|lra]. }
  set (ratio := sceneSeconds / totalDuration) in *.
  rewrite (Qeq_bool_false_pos (ratio * 100)) by lra.
  assert (U : ratio * 100 / 100 * 12 + (1 # 2) <= 12 + (1 # 2)).
  { assert (Eq : ratio * 100 / 100 * 12 == ratio * 12) by field. rewrite Eq. lra. }
  apply Qfloor_resp_le in U.
  change (Qfloor (12 + (1 # 2))) with 12%Z in U. lia.
Qed.

Lemma timelineCells_nth (totalDuration : Q) (count : nat) (scenes : list Scene) :
  forall (index : nat) (elapsed : Q) (i : nat) (scene : Scene),
    nth_error scenes i = Some scene ->
    exists cell,
      nth_error (timelineCells totalDuration count index elapsed scenes) i = Some cell /\
      span cell = timelineSpan totalDuration count (duration scene) /\
      startLabel cell == elapsed + totalDurationForScenes (firstn i scenes) /\
      sceneNumber cell = (index + i + 1)%nat /\
      seconds cell = duration scene.
Proof.
  induction scenes as [|first more IH]; intros index elapsed i scene N.
  - destruct i; discriminate.
  - destruct i as [|i]; cbn [nth_error timelineCells] in *.
    + inversion N; subst. eexists. split; [reflexivity|].
      cbn [span startLabel sceneNumber seconds firstn].
      repeat split; [unfold totalDurationForScenes; cbn; lra|lia].
    + destruct (IH (S index) (elapsed + duration first) i scene N)
        as [cell [C [Sp [St [Nu Se]]]]].
      exists cell. split; [exact C|]. split; [exact Sp|].
      split; [|split; [lia|exact Se]].
      rewrite St. cbn [firstn].
      rewrite (total_duration_app [first] (firstn i more)).
      unfold totalDurationForScenes at 2. cbn [fold_left]. lra.
Qed.

Lemma timelineCells_length (totalDuration : Q) (count : nat) (scenes : list Scene) :
  forall index elapsed,
    List.length (timelineCells totalDuration count index elapsed scenes)
    = List.length scenes.
Proof.
  induction scenes as [|first more IH]; intros index elapsed; [reflexivity|].
  cbn [timelineCells List.length]. now rewrite IH.
Qed.

Lemma duration_le_total (scenes : list Scene) (scene : Scene) :
  Forall inBounds scenes -> In scene scenes ->
  duration scene <= totalDurationForScenes scenes.
Proof.
  intros B I. rewrite total_duration_sum.
  induction B as [|first more [Lo _] B IH]; [contradiction|].
  cbn [sumOfDurations fold_right]. fold (sumOfDurations more).
  assert (P : 0 <= sumOfDurations more).
  { clear -B. induction B as [|s l [Lo _] _ IH]; cbn; [lra|].
    fold (sumOfDurations l). unfold MIN_DURATION in Lo. lra. }
  unfold MIN_DURATION in Lo.
  destruct I as [<-|I]; [lra|]. specialize (IH I). lra.
Qed.

(** X22. The strip under the preview has one cell per scene, in order.
    With every duration within the bounds, the cell of the scene at
    position [i] carries the number [i + 1], the scene's duration and, as
    its start label, the sum of the durations before it, and spans between
    1 and 12 of the twelve columns; the bar's width is between 0 and 100
    percent for a time within the runtime. *)
Theorem timeline_strip (scenes : list Scene) (currentTime : Q) :
  Forall inBounds scenes ->
  List.length (snd (Timeline scenes currentTime (totalDurationForScenes scenes)))
    = List.length scenes /\
  (forall i scene,
      nth_error scenes i = Some scene ->
      exists cell,
        nth_error (snd (Timeline scenes currentTime (totalDurationForScenes scenes))) i
          = Some cell /\
        sceneNumber cell = (i + 1)%nat /\
        seconds cell = duration scene /\
        startLabel cell == sceneStart scenes i /\
        (1 <= span cell <= 12)%Z) /\
  (0 <= currentTime -> currentTime <= totalDurationForScenes scenes ->
   0 <= fst (Timeline scenes currentTime (totalDurationForScenes scenes)) /\
   fst (Timeline scenes currentTime (totalDurationForScenes scenes)) <= 100).
Proof.
  intro B. unfold Timeline. cbn [fst snd]. split; [apply timelineCells_length|]. split.
  - intros i scene N.
    destruct (timelineCells_nth (totalDurationForScenes scenes) (List.length scenes)
                scenes 0 0 i scene N) as [cell [C [Sp [St [Nu Se]]]]].
    exists cell. split; [exact C|]. split; [exact Nu|]. split; [exact Se|].
    split; [unfold sceneStart; rewrite St; lra|].
    rewrite Sp. apply nth_error_In in N.
    apply timelineSpan_within.
    + rewrite Forall_forall in B. destruct (B scene N) as [Lo _].
      unfold MIN_DURATION in Lo. lra.
    + now apply duration_le_total.
  - intros Lo Hi.
    destruct (Qeq_bool (totalDurationForScenes scenes) 0) eqn:Z; [split; lra|].
    assert (PT : 0 < totalDurationForScenes scenes).
    { destruct (Qlt_le_dec 0 (totalDurationForScenes scenes)) as [P|N]; [exact P|].
      assert (Eq : totalDurationForScenes scenes == 0) by lra.
      apply Qeq_bool_iff in Eq. congruence. }
    assert (R : 0 <= currentTime / totalDurationForScenes scenes /\
                currentTime / totalDurationForScenes scenes <= 1).
    { split.
      - apply Qle_shift_div_l; [exact PT|lra].
      - apply Qle_shift_div_r; [exact PT|lra]. }
    split; lra.
Qed.

Lemma timeline_strip_witness :
  Forall inBounds Double.storyboard /\
  List.length (snd (Timeline Double.storyboard 5
                      (totalDurationForScenes Double.storyboard))) = 3%nat.
Proof.
  assert (B : Forall inBounds Double.storyboard).
  { repeat constructor; cbn; unfold MIN_DURATION, MAX_DURATION; lra. }
  split; [exact B|].
  exact (proj1 (timeline_strip Double.storyboard 5 B)).
Defined.

(** ** Failures before the first frame *)

Section EarlyFailures.
Context {host : Host} {E : Type} {enc : Encoder E}.

Lemma handleRender_error (scenes : list Scene) (w : World E) :
  forall e,
    (forall w0, encoder w0 = encoder w ->
                fst (synthesizeVideo scenes (Some stageToRenderState) w0) = Throw e) ->
    renderState (ui (handleRender scenes w)) =
      mkRenderState error 0 None (Some (messageOf e)).
Proof.
  intros e Fails. unfold handleRender.
  match goal with
  | |- context [synthesizeVideo scenes _ ?w0] =>
      pose proof (Fails w0) as F;
      destruct (synthesizeVideo scenes (Some stageToRenderState) w0) as [r w1]
  end.
  cbn [fst] in F. rewrite F.
  - destruct e; reflexivity.
  - destruct (previousUrlRef (ui w)); reflexivity.
Qed.

(** X23. When loading the encoder throws, the attempt throws the same
    exception after the single report loading 0.1: nothing is rendered,
    written or deleted, and the page ends in the error state with the
    message of the exception, or with Something went wrong. when the
    exception is not an Error. *)
Theorem load_failure_surfaces (scenes : list Scene) (options : option OnStage)
    (w : World E) (e : Exn) (e' : E) :
  scenes <> [] ->
  getFFmpeg (encoder w) = (Throw e, e') ->
  fst (synthesizeVideo scenes options w) = Throw e /\
  trace (snd (synthesizeVideo scenes options w))
    = trace w ++ [EvStage loading 0.1; EvLoad] /\
  encoder (snd (synthesizeVideo scenes options w)) = e' /\
  renderState (ui (handleRender scenes w)) =
    mkRenderState error 0 None (Some (messageOf e)).
Proof.
  intros NE Load.
  assert (Run : forall options w0,
             encoder w0 = encoder w ->
             synthesizeVideo scenes options w0 =
               (Throw e,
                mkWorld e' ((trace w0 ++ [EvStage loading 0.1]) ++ [EvLoad])
                        (match options with Some f => f | None => fun _ _ u => u end
                           loading 0.1 (ui w0)))).
  { intros o w0 Same. unfold synthesizeVideo.
    destruct (List.length scenes =? 0)%nat eqn:Empty.
    { apply length_zero_iff in Empty. contradiction. }
    unfold loadEncoder, bind at 1 2 3, report at 1 2, call. cbn [trace encoder ui].
    now rewrite Same, Load. }
  rewrite (Run options w eq_refl). cbn [fst snd trace encoder].
  split; [reflexivity|]. split; [now rewrite <- app_assoc|]. split; [reflexivity|].
  apply handleRender_error. intros w0 Same. now rewrite (Run _ w0 Same).
Qed.

(** X24. Without a 2D context the attempt still loads the encoder first and
    then throws its own error: both loading reports are made, no frame is
    rendered or written, and the page shows that error. *)
Theorem no_canvas_context_aborts (scenes : list Scene) (options : option OnStage)
    (w : World E) (e' : E) :
  scenes <> [] ->
  supports2d = false ->
  getFFmpeg (encoder w) = (Ok tt, e') ->
  fst (synthesizeVideo scenes options w)
    = Throw (Error "Unable to access 2D context for rendering.") /\
  trace (snd (synthesizeVideo scenes options w)) = trace w ++ loadEvents /\
  encoder (snd (synthesizeVideo scenes options w)) = e' /\
  renderState (ui (handleRender scenes w)) =
    mkRenderState error 0 None (Some "Unable to access 2D context for rendering."%string).
Proof.
  intros NE Two Load.
  assert (Run : forall options w0,
             encoder w0 = encoder w ->
             synthesizeVideo scenes options w0 =
               (Throw (Error "Unable to access 2D context for rendering."),
                mkWorld e'
                  (((trace w0 ++ [EvStage loading 0.1]) ++ [EvLoad])
                     ++ [EvStage loading 1])
                  (match options with Some f => f | None => fun _ _ u => u end
                     loading 1
                     (match options with Some f => f | None => fun _ _ u => u end
                        loading 0.1 (ui w0))))).
  { intros o w0 Same. unfold synthesizeVideo.
    destruct (List.length scenes =? 0)%nat eqn:Empty.
    { apply length_zero_iff in Empty. contradiction. }
    unfold loadEncoder, bind at 1 2 3, report at 1 2, call. cbn [trace encoder ui].
    rewrite Same, Load, Two. reflexivity. }
  rewrite (Run options w eq_refl). cbn [fst snd trace encoder].
  split; [reflexivity|]. split; [unfold loadEvents; now rewrite <- !app_assoc|].
  split; [reflexivity|].
  apply (handleRender_error scenes w (Error "Unable to access 2D context for rendering.")).
  intros w0 Same. now rewrite (Run _ w0 Same).
Qed.

(** X25. The attempt touches the React state through the [onStage] callback
    and in no other way: what the callback preserves holds after the
    attempt, wherever it stops, and without a callback the state is left as
    it was. *)
Theorem attempt_acts_through_callback (scenes : list Scene) (w w' : World E)
    (r : Result Blob) :
  (forall (keeps : Ui -> Prop) (onStage : OnStage),
      (forall stage fraction u, keeps u -> keeps (onStage stage fraction u)) ->
      synthesizeVideo scenes (Some onStage) w = (r, w') ->
      keeps (ui w) -> keeps (ui w')) /\
  (synthesizeVideo scenes None w = (r, w') -> ui w' = ui w).
Proof.
  split.
  - intros keeps onStage K Run. exact (synthesizeVideo_ui keeps onStage K _ _ _ _ Run).
  - intro Run.
    change (synthesizeVideo scenes (Some (fun _ _ u => u)) w = (r, w')) in Run.
    apply (synthesizeVideo_ui (fun u => u = ui w) (fun _ _ u => u)) with (2 := Run).
    + auto.
    + reflexivity.
Qed.

End EarlyFailures.

Lemma load_failure_surfaces_witness :
  fst (@synthesizeVideo Double.browser _ (Double.memEncoder Double.failingLoad)
         Double.oneScene None Double.start)
    = Throw (Error "failed to load the encoder core").
Proof.
  apply (@load_failure_surfaces Double.browser _ (Double.memEncoder Double.failingLoad)
           Double.oneScene None Double.start
           (Error "failed to load the encoder core") []).
  - discriminate.
  - reflexivity.
Defined.

Lemma no_canvas_context_aborts_witness :
  fst (@synthesizeVideo Double.headless _ (Double.memEncoder Double.noFaults)
         Double.oneScene None Double.start)
    = Throw (Error "Unable to access 2D context for rendering.").
Proof.
  apply (@no_canvas_context_aborts Double.headless _ (Double.memEncoder Double.noFaults)
           Double.oneScene None Double.start []).
  - discriminate.
  - reflexivity.
  - reflexivity.
Defined.

Lemma attempt_acts_through_callback_witness :
  exists r w',
    @synthesizeVideo Double.browser _ (Double.memEncoder Double.failingExec)
      Double.oneScene None Double.start = (r, w') /\
    ui w' = ui Double.start.
Proof.
  destruct (@synthesizeVideo Double.browser _ (Double.memEncoder Double.failingExec)
              Double.oneScene None Double.start) as [r w'] eqn:Run.
  exists r, w'. split; [reflexivity|].
  exact (proj2 (attempt_acts_through_callback _ _ _ _) Run).
Defined.

(** ** An accent that is no colour *)

Section RefusedAccent.
Context {host : Host} {E : Type} {enc : Encoder E}.



End RefusedAccent.


